(** * gosmig: a shallow embedding of the migration engine

    The development follows the Go sources of the package:
    - [migration.go]: [Migration], [validate], [validateMigrations],
      [sortMigrationsAsc], [sortMigrationsDesc];
    - the database layer: [getDBVersion], [insertDBVersion],
      [deleteDBVersion], [executeInTx], [executeNoTx];
    - the coordinators: [runCmdUp] / [migrateUp], [runCmdDown] /
      [migrateDown];
    - the constructor [newGosmig].

    Go's [int] is taken to be the 64-bit two's complement integer; a value is
    a [Z] and the one place where arithmetic can overflow (the comparison
    functions handed to the sort) wraps explicitly.  Contexts and deadlines
    are not represented: the expiry of a deadline surfaces in Go as an
    ordinary error of the database call, which the fault oracle of the
    database model covers. *)

From Stdlib Require Import ZArith List String Lia.
From stdpp Require Import gmap strings list pretty sorting.

Open Scope Z_scope.

(** ** Machine integers *)

Definition int_min : Z := - 2 ^ 63.
Definition int_max : Z := 2 ^ 63 - 1.

Definition in_int (z : Z) : Prop := int_min <= z <= int_max.

(** Two's complement wrap-around of a 64-bit signed integer. *)
Definition wrap64 (z : Z) : Z := (z + 2 ^ 63) mod 2 ^ 64 - 2 ^ 63.

(** ** Errors

    [errors.New] and [fmt.Errorf]: an error is either a plain message or a
    message built around one wrapped error (the [%w] verb), of which the code
    uses the two shapes "text: %w" and "%w: text". *)

Inductive error : Type :=
| errors_New (msg : string)
| fmt_Errorf (pre : string) (wrapped : error) (post : string).

Fixpoint Error (e : error) : string :=
  match e with
  | errors_New msg => msg
  | fmt_Errorf pre wrapped post => pre +:+ Error wrapped +:+ post
  end.

Definition error_eqb : error -> error -> bool :=
  fix eqb (a b : error) : bool :=
    match a, b with
    | errors_New x, errors_New y => bool_decide (x = y)
    | fmt_Errorf p1 w1 q1, fmt_Errorf p2 w2 q2 =>
        bool_decide (p1 = p2) && eqb w1 w2 && bool_decide (q1 = q2)
    | _, _ => false
    end.

(** [errors.Is]: walks the chain of wrapped errors. *)
Fixpoint errors_Is (e target : error) : bool :=
  error_eqb e target ||
  match e with
  | errors_New _ => false
  | fmt_Errorf _ wrapped _ => errors_Is wrapped target
  end.

Definition errDBVersionChangedUp : error :=
  errors_New "database version changed while applying migration up".
Definition errDBVersionChangedDown : error :=
  errors_New "database version changed while applying migration down".

(** [s] mentions [sub]: the test [strings.Contains] of the Go test suite. *)
Definition mentions (s sub : string) : Prop :=
  exists pre post : string, s = pre +:+ sub +:+ post.

(** ** The database seen by the engine

    [Schema] stands for everything in the database except the ledger table;
    the engine never inspects it, only the migrations' actions do. *)

Section Engine.

Context {Schema : Type}.

(** The rows of the ledger table (column [version], a primary key) and the
    rest of the database. *)
Record Store : Type := mkStore {
  ledger : list Z;
  schema : Schema
}.

(** An [Up] or [Down] function of a migration: it works on the database
    through the handle it is given and returns an error or nil.  Whatever it
    changed before failing stays in the store it was given. *)
Definition Action : Type := Store -> option error * Store.

(** [UpDown]: a nil function is [None]. *)
Record UpDown : Type := mkUpDown {
  Up : option Action;
  Down : option Action
}.

(** [Migration]: the two pointer fields [UpDown] and [UpDownNoTX] are
    [mUpDown] and [mUpDownNoTX], nil being [None]. *)
Record Migration : Type := mkMigration {
  Version : Z;
  mUpDown : option UpDown;
  mUpDownNoTX : option UpDown
}.

(** ** Validation ([migration.go]) *)

(** Both functions of an [UpDown] are present. *)
Definition hasUpAndDown (ud : UpDown) : bool :=
  match Up ud, Down ud with
  | Some _, Some _ => true
  | _, _ => false
  end.

Definition validate (m : Migration) : option error :=
  if Version m <=? 0 then
    Some (errors_New "migration version must be > 0")
  else
    match mUpDown m, mUpDownNoTX m with
    | None, None =>
        Some (errors_New ("migration " +:+ pretty (Version m) +:+
                          " must have UpDown xor UpDownNoTX fields defined"))
    | Some _, Some _ =>
        Some (errors_New ("migration " +:+ pretty (Version m) +:+
                          " must have only one of UpDown or UpDownNoTX fields defined"))
    | Some ud, None =>
        if hasUpAndDown ud then None
        else Some (errors_New ("migration " +:+ pretty (Version m) +:+
                               " UpDown must have both Up and Down functions defined"))
    | None, Some ud =>
        if hasUpAndDown ud then None
        else Some (errors_New ("migration " +:+ pretty (Version m) +:+
                               " UpDownNoTX must have both Up and Down functions defined"))
    end.

(** [migVersionCounters[mig.Version]++] over the whole slice. *)
Definition countVersions (migrations : list Migration) : gmap Z nat :=
  fold_left
    (fun counters mig =>
       <[Version mig := S (default 0%nat (counters !! Version mig))]> counters)
    migrations ∅.

(** The messages appended by the first loop, in slice order. *)
Definition migValidationErrs (migrations : list Migration) : list string :=
  omap (fun mig => Error <$> validate mig) migrations.

Definition dupMessage (version : Z) (count : nat) : string :=
  "migration version " +:+ pretty version +:+ " is defined " +:+
  pretty count +:+ " times".

(** The messages appended by the second loop.  Go leaves the iteration order
    of a map unspecified; here it is the order of [map_to_list], about which
    nothing is assumed. *)
Definition dupValidationErrs (migrations : list Migration) : list string :=
  omap (fun '(version, count) =>
          if (1 <? count)%nat then Some (dupMessage version count) else None)
       (map_to_list (countVersions migrations)).

Definition allValidationErrs (migrations : list Migration) : list string :=
  migValidationErrs migrations ++ dupValidationErrs migrations.

Definition validateMigrations (migrations : list Migration) : option error :=
  match allValidationErrs migrations with
  | [] => None
  | errs => Some (errors_New ("invalid migration(s): " +:+ String.concat "; " errs))
  end.

(** ** Sorting ([migration.go])

    [slices.SortFunc] belongs to the Go library.  For a slice of at most
    twelve elements it is the insertion sort below (the library's
    [insertionSortCmpFunc]); for longer ones it is a pattern-defeating
    quicksort.  For a comparison that is a strict total order on the
    elements every correct sort returns the same slice (see
    [sorted_perm_unique]), so the insertion sort stands for both. *)

(** The inner loop: [x] moves left over every predecessor it is smaller
    than.  [before] is the sorted prefix, nearest element first. *)
Fixpoint sinkLeft {E : Type} (cmp : E -> E -> Z) (x : E) (before : list E) : list E :=
  match before with
  | [] => [x]
  | y :: ys => if cmp x y <? 0 then y :: sinkLeft cmp x ys else x :: y :: ys
  end.

Definition insertionSortCmpFunc {E : Type} (cmp : E -> E -> Z) (data : list E) : list E :=
  rev (fold_left (fun before x => sinkLeft cmp x before) data []).

Definition cmpDesc (a b : Migration) : Z := wrap64 (Version b - Version a).
Definition cmpAsc (a b : Migration) : Z := wrap64 (Version a - Version b).

Definition sortMigrationsDesc (migrations : list Migration) : list Migration :=
  insertionSortCmpFunc cmpDesc migrations.

Definition sortMigrationsAsc (migrations : list Migration) : list Migration :=
  insertionSortCmpFunc cmpAsc migrations.

(** ** The database model

    The engine reaches the database through the interfaces [DBOrTX], [TX]
    and [DB], that is through the calls [QueryRowContext], [ExecContext],
    [BeginTx], [Commit], [Rollback] and [Close].  The model below is one
    session on a transactional store: a transaction works on a private copy
    that [Commit] installs and [Rollback] discards.  Every call records an
    event, and every call may fail for reasons outside the engine (a lost
    connection, an expired deadline): the [oracle] lists, call after call,
    the error injected into the next call, and an exhausted oracle injects
    nothing. *)

Inductive Event : Type :=
| EvClose
| EvCreateTable
| EvQueryVersion
| EvInsert (version : Z)
| EvDelete (version : Z)
| EvBeginTx
| EvCommit
| EvRollback
| EvUp (version : Z)
| EvDown (version : Z).

(** The handle a query runs on: the connection ([*sql.DB]) or the open
    transaction ([*sql.Tx]). *)
Inductive Handle : Type := HDB | HTX.

(** An [io.Writer] of the run: standard output or standard error. *)
Inductive Writer : Type := Stdout | Stderr.

Record World : Type := mkWorld {
  committed : Store;
  pending : option Store;
  oracle : list (option error);
  trace : list Event;
  stdout : list string;
  stderr : list string;
  exits : list Z
}.

Definition setCommitted (s : Store) (w : World) : World :=
  mkWorld s (pending w) (oracle w) (trace w) (stdout w) (stderr w) (exits w).
Definition setPending (p : option Store) (w : World) : World :=
  mkWorld (committed w) p (oracle w) (trace w) (stdout w) (stderr w) (exits w).
Definition setOracle (o : list (option error)) (w : World) : World :=
  mkWorld (committed w) (pending w) o (trace w) (stdout w) (stderr w) (exits w).
Definition logEvent (ev : Event) (w : World) : World :=
  mkWorld (committed w) (pending w) (oracle w) (trace w ++ [ev])
          (stdout w) (stderr w) (exits w).
Definition Fprint (output : Writer) (s : string) (w : World) : World :=
  match output with
  | Stdout => mkWorld (committed w) (pending w) (oracle w) (trace w)
                      (stdout w ++ [s]) (stderr w) (exits w)
  | Stderr => mkWorld (committed w) (pending w) (oracle w) (trace w)
                      (stdout w) (stderr w ++ [s]) (exits w)
  end.
Definition osExitCode (code : Z) (w : World) : World :=
  mkWorld (committed w) (pending w) (oracle w) (trace w)
          (stdout w) (stderr w) (exits w ++ [code]).

(** The error the next call is made to fail with, if any. *)
Definition nextFault (w : World) : option error * World :=
  (match oracle w with [] => None | f :: _ => f end,
   setOracle (tail (oracle w)) w).

Definition errTxDone : error :=
  errors_New "sql: transaction has already been committed or rolled back".
Definition errDuplicateKey : error :=
  errors_New "duplicate key value violates unique constraint".

Definition readStore (h : Handle) (w : World) : option Store :=
  match h with
  | HDB => Some (committed w)
  | HTX => pending w
  end.

Definition writeStore (h : Handle) (s : Store) (w : World) : World :=
  match h with
  | HDB => setCommitted s w
  | HTX => setPending (Some s) w
  end.

(** [SELECT COALESCE(MAX(version), 0)] over the rows of the ledger. *)
Definition currentVersion (rows : list Z) : Z :=
  match rows with
  | [] => 0
  | v :: vs => fold_left Z.max vs v
  end.

(** [QueryRowContext(ctx, selectDBVersionSQL).Scan(&dbVersion)]. *)
Definition queryDBVersion (h : Handle) (w : World) : (Z * option error) * World :=
  let (f, w1) := nextFault (logEvent EvQueryVersion w) in
  match f with
  | Some e => ((0, Some e), w1)
  | None =>
      match readStore h w1 with
      | None => ((0, Some errTxDone), w1)
      | Some s => ((currentVersion (ledger s), None), w1)
      end
  end.

(** [ExecContext(ctx, insertMigVersionSQL, version)]: the column is a primary
    key, a second row with the same version is refused. *)
Definition execInsertVersion (h : Handle) (version : Z) (w : World)
  : option error * World :=
  let (f, w1) := nextFault (logEvent (EvInsert version) w) in
  match f with
  | Some e => (Some e, w1)
  | None =>
      match readStore h w1 with
      | None => (Some errTxDone, w1)
      | Some s =>
          if bool_decide (version ∈ ledger s) then (Some errDuplicateKey, w1)
          else (None, writeStore h (mkStore (ledger s ++ [version]) (schema s)) w1)
      end
  end.

(** [ExecContext(ctx, deleteMigVersionSQL, version)]. *)
Definition execDeleteVersion (h : Handle) (version : Z) (w : World)
  : option error * World :=
  let (f, w1) := nextFault (logEvent (EvDelete version) w) in
  match f with
  | Some e => (Some e, w1)
  | None =>
      match readStore h w1 with
      | None => (Some errTxDone, w1)
      | Some s =>
          (None,
           writeStore h
             (mkStore (filter (fun v => v ≠ version) (ledger s)) (schema s)) w1)
      end
  end.

(** [ExecContext(ctx, createMigsTblSQL)]: the table of the model always
    exists, so a call that is not made to fail changes nothing. *)
Definition execCreateTable (h : Handle) (w : World) : option error * World :=
  nextFault (logEvent EvCreateTable w).

Definition BeginTx (w : World) : option error * World :=
  let (f, w1) := nextFault (logEvent EvBeginTx w) in
  match f with
  | Some e => (Some e, w1)
  | None => (None, setPending (Some (committed w1)) w1)
  end.

(** A commit that fails installs nothing. *)
Definition Commit (w : World) : option error * World :=
  let (f, w1) := nextFault (logEvent EvCommit w) in
  match f with
  | Some e => (Some e, setPending None w1)
  | None =>
      match pending w1 with
      | None => (Some errTxDone, w1)
      | Some s => (None, setPending None (setCommitted s w1))
      end
  end.

(** The transaction is gone after [Rollback], whatever the call returns. *)
Definition Rollback (w : World) : option error * World :=
  let (f, w1) := nextFault (logEvent EvRollback w) in
  (match f with
   | Some e => Some e
   | None => match pending w1 with None => Some errTxDone | Some _ => None end
   end,
   setPending None w1).

Definition Close (w : World) : option error * World :=
  nextFault (logEvent EvClose w).

(** A migration's function called with handle [h]. *)
Definition callAction (a : Action) (h : Handle) (w : World) : option error * World :=
  match readStore h w with
  | None => (Some errTxDone, w)
  | Some s => let (r, s') := a s in (r, writeStore h s' w)
  end.

(** What a Go function of result type [error] does: it returns (nil being
    [None]) or it panics. *)
Inductive outcome : Type :=
| ret (err : option error)
| panic.

(** ** The ledger operations *)

Definition createMigrationsTableIfNotExists (h : Handle) (w : World)
  : option error * World :=
  let (err, w1) := execCreateTable h w in
  match err with
  | Some e =>
      (Some (fmt_Errorf "failed to create migrations table if not exists: " e ""), w1)
  | None => (None, w1)
  end.

Definition getDBVersion (h : Handle) (w : World) : (Z * option error) * World :=
  let '((dbVersion, err), w1) := queryDBVersion h w in
  match err with
  | Some e => ((0, Some (fmt_Errorf "failed to get current DB version: " e "")), w1)
  | None => ((dbVersion, None), w1)
  end.

Definition insertDBVersion (h : Handle) (version : Z) (w : World)
  : option error * World :=
  let (err, w1) := execInsertVersion h version w in
  match err with
  | Some e =>
      (Some (fmt_Errorf ("failed to insert migration version " +:+ pretty version +:+
                         " into migrations table: ") e ""), w1)
  | None => (None, w1)
  end.

Definition deleteDBVersion (h : Handle) (version : Z) (w : World)
  : option error * World :=
  let (err, w1) := execDeleteVersion h version w in
  match err with
  | Some e =>
      (Some (fmt_Errorf ("failed to delete migration version " +:+ pretty version +:+
                         " from migrations table: ") e ""), w1)
  | None => (None, w1)
  end.

(** ** The executors *)

(** A panic inside [fn] ends the process: neither [Rollback] nor [Commit] is
    called, and the database drops the transaction with the connection. *)
Definition executeInTx (fn : Handle -> World -> outcome * World) (w : World)
  : outcome * World :=
  let (err, w1) := BeginTx w in
  match err with
  | Some e => (ret (Some (fmt_Errorf "failed to begin transaction: " e "")), w1)
  | None =>
      match fn HTX w1 with
      | (panic, w2) => (panic, setPending None w2)
      | (ret (Some e), w2) =>
          let (_, w3) := Rollback w2 in
          (ret (Some (fmt_Errorf "failed to execute in transaction: " e "")), w3)
      | (ret None, w2) =>
          let (cerr, w3) := Commit w2 in
          match cerr with
          | Some e => (ret (Some (fmt_Errorf "failed to commit transaction: " e "")), w3)
          | None => (ret None, w3)
          end
      end
  end.

Definition executeNoTx (fn : Handle -> World -> outcome * World) (w : World)
  : outcome * World :=
  match fn HDB w with
  | (panic, w1) => (panic, w1)
  | (ret (Some e), w1) =>
      (ret (Some (fmt_Errorf "failed to execute without transaction: " e "")), w1)
  | (ret None, w1) => (ret None, w1)
  end.

(** ** Apply ([runCmdUp], [migrateUp]) *)

(** The line feed of the Go string literals. *)
Definition nl : string := String (Ascii.ascii_of_nat 10) EmptyString.

(** The closure built by [migrateUp version up timeout], applied to the
    handle [h].  Calling a nil [up] panics. *)
Definition migrateUp (version : Z) (up : option Action) (h : Handle) (w : World)
  : outcome * World :=
  let '((dbVersion, err), w1) := getDBVersion h w in
  match err with
  | Some e => (ret (Some e), w1)
  | None =>
      if version <=? dbVersion then
        (ret (Some (fmt_Errorf "" errDBVersionChangedUp
                      (": migration version " +:+ pretty version +:+
                       " <= current DB version " +:+ pretty dbVersion))), w1)
      else
        match up with
        | None => (panic, w1)
        | Some a =>
            let (aerr, w2) := callAction a h (logEvent (EvUp version) w1) in
            match aerr with
            | Some e =>
                (ret (Some (fmt_Errorf ("failed to apply migration.up version " +:+
                                        pretty version +:+ ": ") e "")), w2)
            | None =>
                let (ierr, w3) := insertDBVersion h version w2 in
                (ret ierr, w3)
            end
        end
  end.

(** One migration of the loop of [runCmdUp], through the executor of its
    mode.  With both pointers nil the else branch dereferences
    [migration.UpDownNoTX] and panics. *)
Definition applyOne (migration : Migration) (w : World) : outcome * World :=
  match mUpDown migration with
  | Some ud =>
      match executeInTx (migrateUp (Version migration) (Up ud)) w with
      | (ret (Some e), w1) => (ret (Some (fmt_Errorf "execute in TX: " e "")), w1)
      | r => r
      end
  | None =>
      match mUpDownNoTX migration with
      | None => (panic, w)
      | Some ud =>
          match executeNoTx (migrateUp (Version migration) (Up ud)) w with
          | (ret (Some e), w1) =>
              (ret (Some (fmt_Errorf "execute without TX: " e "")), w1)
          | r => r
          end
      end
  end.

(** The [for range] loop of [runCmdUp]; [nb] is [nbAppliedMigrations]. *)
Fixpoint upLoop (migrations : list Migration) (dbVersion : Z) (output : Writer)
    (limit : Z) (nb : Z) (w : World) : outcome * Z * World :=
  match migrations with
  | [] => (ret None, nb, w)
  | migration :: rest =>
      if Version migration <=? dbVersion then
        upLoop rest dbVersion output limit nb w
      else
        match applyOne migration w with
        | (panic, w1) => (panic, nb, w1)
        | (ret (Some e), w1) => (ret (Some e), nb, w1)
        | (ret None, w1) =>
            let w2 :=
              Fprint output
                ("[x] Applied migration version " +:+ pretty (Version migration) +:+ nl)
                w1 in
            let nb' := nb + 1 in
            if (0 <? limit) && (nb' =? limit) then (ret None, nb', w2)
            else upLoop rest dbVersion output limit nb' w2
        end
  end.

Definition runCmdUp (migrations : list Migration) (output : Writer) (limit : Z)
    (w : World) : outcome * World :=
  let sorted := sortMigrationsAsc migrations in
  let '((dbVersion, err), w1) := getDBVersion HDB w in
  match err with
  | Some e => (ret (Some e), w1)
  | None =>
      match upLoop sorted dbVersion output limit 0 w1 with
      | (panic, _, w2) => (panic, w2)
      | (ret (Some e), _, w2) => (ret (Some e), w2)
      | (ret None, nb, w2) =>
          if nb =? 0 then (ret None, Fprint output ("No migrations to apply" +:+ nl) w2)
          else (ret None, Fprint output (pretty nb +:+ " migration(s) applied" +:+ nl) w2)
      end
  end.

(** ** Rollback ([runCmdDown], [migrateDown]) *)

Definition migrateDown (version : Z) (down : option Action) (h : Handle) (w : World)
  : outcome * World :=
  let '((dbVersion, err), w1) := getDBVersion h w in
  match err with
  | Some e => (ret (Some e), w1)
  | None =>
      if version >? dbVersion then
        (ret (Some (fmt_Errorf "" errDBVersionChangedDown
                      (": migration version " +:+ pretty version +:+
                       " > current DB version " +:+ pretty dbVersion))), w1)
      else
        match down with
        | None => (panic, w1)
        | Some a =>
            let (aerr, w2) := callAction a h (logEvent (EvDown version) w1) in
            match aerr with
            | Some e =>
                (ret (Some (fmt_Errorf ("failed to apply migration.down version " +:+
                                        pretty version +:+ ": ") e "")), w2)
            | None =>
                let (derr, w3) := deleteDBVersion h version w2 in
                (ret derr, w3)
            end
        end
  end.

Definition rollbackOne (migration : Migration) (w : World) : outcome * World :=
  match mUpDown migration with
  | Some ud =>
      match executeInTx (migrateDown (Version migration) (Down ud)) w with
      | (ret (Some e), w1) => (ret (Some (fmt_Errorf "execute in TX: " e "")), w1)
      | r => r
      end
  | None =>
      match mUpDownNoTX migration with
      | None => (panic, w)
      | Some ud =>
          match executeNoTx (migrateDown (Version migration) (Down ud)) w with
          | (ret (Some e), w1) =>
              (ret (Some (fmt_Errorf "execute without TX: " e "")), w1)
          | r => r
          end
      end
  end.

(** The loop of [runCmdDown]: it returns from inside its first iteration
    that is not skipped. *)
Fixpoint downLoop (migrations : list Migration) (dbVersion : Z) (output : Writer)
    (w : World) : outcome * World :=
  match migrations with
  | [] => (ret None, Fprint output ("No migrations to roll back" +:+ nl) w)
  | migration :: rest =>
      if Version migration >? dbVersion then downLoop rest dbVersion output w
      else
        match rollbackOne migration w with
        | (ret None, w1) =>
            (ret None,
             Fprint output
               ("[x]-->[ ] Rolled back migration version " +:+
                pretty (Version migration) +:+ nl) w1)
        | r => r
        end
  end.

Definition runCmdDown (migrations : list Migration) (output : Writer) (w : World)
  : outcome * World :=
  let sorted := sortMigrationsDesc migrations in
  let '((dbVersion, err), w1) := getDBVersion HDB w in
  match err with
  | Some e => (ret (Some e), w1)
  | None => downLoop sorted dbVersion output w1
  end.

(** ** Reports ([runCmdStatus], [runCmdVersion]) *)

(** The verbs [%-10s], [%-10d] and [%-12s]: left-justified, padded with
    spaces to the width. *)
Definition padRight (width : nat) (s : string) : string :=
  s +:+ String.concat "" (replicate (width - String.length s)%nat " ").

(** The pager that [runCmdStatus] starts when [output] is the terminal is
    outside the model; the rows are written to [output]. *)
Definition runCmdStatus (migrations : list Migration) (output : Writer) (w : World)
  : outcome * World :=
  let sorted := sortMigrationsDesc migrations in
  let '((dbVersion, err), w1) := getDBVersion HDB w in
  match err with
  | Some e => (ret (Some e), w1)
  | None =>
      let w2 := Fprint output (padRight 10 "VERSION" +:+ " " +:+
                               padRight 12 "STATUS" +:+ nl) w1 in
      (ret None,
       fold_left
         (fun acc migration =>
            let status :=
              if Version migration <=? dbVersion then "[x] APPLIED"
              else "[ ] PENDING" in
            Fprint output (padRight 10 (pretty (Version migration)) +:+ " " +:+
                           padRight 12 status +:+ nl) acc)
         sorted w2)
  end.

Definition runCmdVersion (h : Handle) (output : Writer) (w : World)
  : outcome * World :=
  let '((dbVersion, err), w1) := getDBVersion h w in
  match err with
  | Some e => (ret (Some e), w1)
  | None =>
      (ret None,
       Fprint output ("Current database version:" +:+ nl +:+ pretty dbVersion +:+ nl) w1)
  end.

(** ** The constructor ([New], [newGosmig]) *)

Definition toolName : string := "gosmig".
Definition cmdUp : string := "up".
Definition cmdUpOne : string := "up-one".
Definition cmdDown : string := "down".
Definition cmdStatus : string := "status".
Definition cmdVersion : string := "version".

Definition allCommands : list string :=
  [cmdUp; cmdUpOne; cmdDown; cmdStatus; cmdVersion].

(** [time.Duration], in nanoseconds. *)
Definition defaultTimeout : Z := 10 * 1000000000.

Record Config : Type := mkConfig { Timeout : Z }.

Definition DefaultConfig : Config := mkConfig defaultTimeout.

Definition ensureDefaults (c : Config) : Config :=
  if Timeout c <=? 0 then mkConfig defaultTimeout else c.

(** The double quote that the verb [%q] puts around a plain word. *)
Definition dquote : string := String (Ascii.ascii_of_nat 34) EmptyString.

Definition parseArgs (args : list string) : string * string * option error :=
  match args with
  | [url; command] =>
      if bool_decide (command ∈ allCommands) then (url, command, None)
      else (EmptyString, EmptyString,
            Some (errors_New ("unknown command: " +:+ dquote +:+ command +:+ dquote)))
  | _ => (EmptyString, EmptyString, Some (errors_New "wrong number of arguments"))
  end.

Definition usage : string :=
  "Usage: " +:+ toolName +:+ " <db_url> <" +:+ String.concat "|" allCommands +:+ ">".

Definition errExit (errCode : Z) (err : error) (output : Writer)
    (osExit : Z -> World -> World) (w : World) : World :=
  osExit errCode (Fprint output (usage +:+ nl +:+ Error err +:+ nl) w).

(** The arguments of [newGosmig] that Go lets be nil are options. *)
Definition ConnectFn : Type := string -> Z -> World -> option error * World.

(** The command of the run, after the ledger table was ensured. *)
Definition dispatch (migrations : list Migration) (command : string)
    (out : Writer) (w : World) : Z * (outcome * World) :=
  if bool_decide (command = cmdUp) then (5, runCmdUp migrations out 0 w)
  else if bool_decide (command = cmdUpOne) then (6, runCmdUp migrations out 1 w)
  else if bool_decide (command = cmdDown) then (7, runCmdDown migrations out w)
  else if bool_decide (command = cmdStatus) then (8, runCmdStatus migrations out w)
  else if bool_decide (command = cmdVersion) then (9, runCmdVersion HDB out w)
  else (0, (ret None, w)).

(** The function returned by [newGosmig].  The deferred [db.Close] runs when
    the function returns and also when it panics. *)
Definition runTool (migrations : list Migration) (connectToDB : ConnectFn)
    (config : Config) (getArgs : unit -> list string)
    (osExit : Z -> World -> World) (out errOut : Writer) (w : World)
  : outcome * World :=
  match parseArgs (getArgs tt) with
  | (_, _, Some err) => (ret None, errExit 1 err errOut osExit w)
  | (url, command, None) =>
      let (cerr, w1) := connectToDB url (Timeout config) w in
      match cerr with
      | Some err => (ret None, errExit 2 err errOut osExit w1)
      | None =>
          let closeDB (r : outcome) (w' : World) : outcome * World :=
            let (err, w'') := Close w' in
            match err with
            | Some e => (r, errExit 3 e errOut osExit w'')
            | None => (r, w'')
            end in
          let (terr, w2) := createMigrationsTableIfNotExists HDB w1 in
          match terr with
          | Some err => closeDB (ret None) (errExit 4 err errOut osExit w2)
          | None =>
              match dispatch migrations command out w2 with
              | (_, (panic, w3)) => closeDB panic w3
              | (code, (ret (Some err), w3)) =>
                  closeDB (ret None) (errExit code err errOut osExit w3)
              | (_, (ret None, w3)) => closeDB (ret None) w3
              end
          end
      end
  end.

Definition newGosmig (migrations : list Migration) (connectToDB : option ConnectFn)
    (config : option Config) (getArgs : option (unit -> list string))
    (osExit : option (Z -> World -> World)) (out errOut : option Writer)
  : option (World -> outcome * World) * option error :=
  if bool_decide (length migrations = 0%nat) then
    (None, Some (errors_New "no migrations provided"))
  else
    match connectToDB with
    | None => (None, Some (errors_New "connectToDB function is nil"))
    | Some connect =>
        let config' :=
          match config with
          | None => DefaultConfig
          | Some c => ensureDefaults c
          end in
        match getArgs with
        | None => (None, Some (errors_New "getArgs function is nil"))
        | Some args =>
            match osExit with
            | None => (None, Some (errors_New "osExit function is nil"))
            | Some exit =>
                match out with
                | None => (None, Some (errors_New "out writer is nil"))
                | Some o =>
                    match errOut with
                    | None => (None, Some (errors_New "errOut writer is nil"))
                    | Some eo =>
                        match validateMigrations migrations with
                        | Some err => (None, Some err)
                        | None =>
                            (Some (runTool migrations connect config' args exit o eo),
                             None)
                        end
                    end
                end
            end
        end
    end.

(** [New]: the tool on the arguments, the exit and the two outputs of the
    process; [osArgs] is [os.Args]. *)
Definition New (osArgs : list string) (migrations : list Migration)
    (connectToDB : option ConnectFn) (config : option Config)
  : option (World -> outcome * World) * option error :=
  newGosmig migrations connectToDB config
    (Some (fun _ : unit => tail osArgs)) (Some osExitCode) (Some Stdout) (Some Stderr).

(** ** Vocabulary of the statements *)

(** [cmp] is negative exactly on the pairs that [key] orders. *)
Definition agrees {E : Type} (cmp : E -> E -> Z) (key : E -> Z) (l : list E) : Prop :=
  forall x y, x ∈ l -> y ∈ l -> (cmp x y <? 0) = (key x <? key y).

Definition ascending {E : Type} (key : E -> Z) : relation E :=
  fun a b => key a < key b.
Definition descending {E : Type} (key : E -> Z) : relation E :=
  fun a b => key b < key a.

(** How many migrations of the slice carry version [v]. *)
Definition occurrences (v : Z) (migrations : list Migration) : nat :=
  length (filter (fun m => Version m = v) migrations).

(** What a migration that passes [validate] looks like. *)
Definition wellFormed (m : Migration) : Prop :=
  0 < Version m /\
  ((exists up down,
       mUpDown m = Some (mkUpDown (Some up) (Some down)) /\ mUpDownNoTX m = None) \/
   (exists up down,
       mUpDown m = None /\ mUpDownNoTX m = Some (mkUpDown (Some up) (Some down)))).

(** The versions of a registry held in Go [int]s. *)
Definition intVersions (ms : list Migration) : Prop :=
  Forall (fun m => in_int (Version m)) ms.

(** The defects of one migration that the specification lists, and the
    finding [validate] words for each. *)
Inductive Defect : Type :=
| BadVersion
| NeitherMode
| BothModes
| MissingAction.

Definition incomplete (o : option UpDown) : bool :=
  match o with
  | Some ud => negb (hasUpAndDown ud)
  | None => false
  end.

Definition hasDefect (m : Migration) (d : Defect) : bool :=
  match d with
  | BadVersion => Version m <=? 0
  | NeitherMode => bool_decide (mUpDown m = None) && bool_decide (mUpDownNoTX m = None)
  | BothModes => bool_decide (mUpDown m <> None) && bool_decide (mUpDownNoTX m <> None)
  | MissingAction => incomplete (mUpDown m) || incomplete (mUpDownNoTX m)
  end.

Definition finding (m : Migration) (d : Defect) : string :=
  match d with
  | BadVersion => "migration version must be > 0"
  | NeitherMode =>
      "migration " +:+ pretty (Version m) +:+
      " must have UpDown xor UpDownNoTX fields defined"
  | BothModes =>
      "migration " +:+ pretty (Version m) +:+
      " must have only one of UpDown or UpDownNoTX fields defined"
  | MissingAction =>
      if incomplete (mUpDown m) then
        "migration " +:+ pretty (Version m) +:+
        " UpDown must have both Up and Down functions defined"
      else
        "migration " +:+ pretty (Version m) +:+
        " UpDownNoTX must have both Up and Down functions defined"
  end.

(** The order in which [validate] looks for them. *)
Definition defectOrder : list Defect :=
  [BadVersion; NeitherMode; BothModes; MissingAction].

Definition firstDefect (m : Migration) : option Defect :=
  List.find (hasDefect m) defectOrder.

(** [strings.Contains]. *)
Fixpoint containsb (s sub : string) : bool :=
  String.prefix sub s ||
  match s with
  | EmptyString => false
  | String _ s' => containsb s' sub
  end.

(** The reading of "every defect is detected and reported": the error of the
    registry mentions the finding of every defect of every migration. *)
Definition reportsEveryDefect (ms : list Migration) : Prop :=
  forall m d, m ∈ ms -> hasDefect m d = true ->
    exists e, validateMigrations ms = Some e /\ mentions (Error e) (finding m d).

(** No call of the run is made to fail by the environment. *)
Definition faultFree (w : World) : Prop :=
  Forall (fun f => f = None) (oracle w).

(** The world after a database call that recorded [ev]. *)
Definition afterCall (ev : Event) (w : World) : World :=
  setOracle (tail (oracle w)) (logEvent ev w).

(** The events that run a migration's function or write to the ledger. *)
Definition isMutation (ev : Event) : bool :=
  match ev with
  | EvUp _ | EvDown _ | EvInsert _ | EvDelete _ => true
  | _ => false
  end.

Definition mutations (evs : list Event) : list Event := List.filter isMutation evs.

(** The re-read of the guard succeeds and finds version [v]. *)
Definition rereads (h : Handle) (w : World) (v : Z) : Prop :=
  fst (getDBVersion h w) = (v, None).

(** A result that is an error wrapping [sentinel]. *)
Definition isConflict (sentinel : error) (r : outcome) : Prop :=
  exists e, r = ret (Some e) /\ errors_Is e sentinel = true.

(** A migration's function that returns nil and leaves the rows of the
    ledger as they are. *)
Definition wellBehaved (a : Action) : Prop :=
  forall s, fst (a s) = None /\ ledger (snd (a s)) = ledger s.

(** The functions of the mode the coordinators pick for a migration. *)
Definition modeOf (m : Migration) : option UpDown :=
  match mUpDown m with
  | Some ud => Some ud
  | None => mUpDownNoTX m
  end.

Definition upAction (m : Migration) : option Action := modeOf m ≫= Up.
Definition downAction (m : Migration) : option Action := modeOf m ≫= Down.

(** What was written to [output] so far. *)
Definition written (output : Writer) (w : World) : list string :=
  match output with
  | Stdout => stdout w
  | Stderr => stderr w
  end.

(** The up (down) function of every migration is well behaved. *)
Definition upsBehave (ms : list Migration) : Prop :=
  Forall (fun m => forall a, upAction m = Some a -> wellBehaved a) ms.
Definition downsBehave (ms : list Migration) : Prop :=
  Forall (fun m => forall a, downAction m = Some a -> wellBehaved a) ms.

(** The events of one applied (rolled back) migration that matter. *)
Definition appliedEvents (v : Z) : list Event := [EvUp v; EvInsert v].
Definition rolledBackEvents (v : Z) : list Event := [EvDown v; EvDelete v].

Definition appliedLine (v : Z) : string :=
  "[x] Applied migration version " +:+ pretty v +:+ nl.
Definition rolledBackLine (v : Z) : string :=
  "[x]-->[ ] Rolled back migration version " +:+ pretty v +:+ nl.

(** The closing line of [runCmdUp] after [nb] applied migrations. *)
Definition summaryLine (nb : Z) : string :=
  if nb =? 0 then "No migrations to apply" +:+ nl
  else pretty nb +:+ " migration(s) applied" +:+ nl.

(** The two directions of a migration, to state a property of [migrateUp]
    and [migrateDown] once. *)
Inductive Direction : Type := Upward | Downward.

Definition migrate (d : Direction) (version : Z) (f : option Action)
  : Handle -> World -> outcome * World :=
  match d with
  | Upward => migrateUp version f
  | Downward => migrateDown version f
  end.

(** What a run leaves outside the database and its log: the two outputs
    and the exit codes. *)
Definition sameOutputs (w w' : World) : Prop :=
  stdout w' = stdout w /\ stderr w' = stderr w /\ exits w' = exits w.

(** The condition on which the guard of a direction trips. *)
Definition guardTrips (d : Direction) (version reread : Z) : Prop :=
  match d with
  | Upward => version <= reread
  | Downward => version > reread
  end.

Definition errDBVersionChanged (d : Direction) : error :=
  match d with
  | Upward => errDBVersionChangedUp
  | Downward => errDBVersionChangedDown
  end.

(** The reading of "a re-read that differs from the version used to select
    the candidate aborts the migration", for the transactional up of
    [version], selected against [snapshot], in world [w]. *)
Definition abortsOnDrift (snapshot version : Z) (up : option Action) (w : World)
  : Prop :=
  forall w1 r, BeginTx w = (None, w1) -> rereads HTX w1 r -> r <> snapshot ->
    exists e, fst (executeInTx (migrateUp version up) w) = ret (Some e).

(** ** Vocabulary of the further properties *)

(** The calls of migration functions among the events. *)
Definition isCall (ev : Event) : bool :=
  match ev with
  | EvUp _ | EvDown _ => true
  | _ => false
  end.

Definition calls (evs : list Event) : list Event := List.filter isCall evs.

(** What one complete execution of a direction calls and writes. *)
Definition directionEvents (d : Direction) (v : Z) : list Event :=
  match d with
  | Upward => appliedEvents v
  | Downward => rolledBackEvents v
  end.

(** A migration's function that leaves the rows of the ledger as they are,
    whether it fails or not. *)
Definition ledgerSafe (a : Action) : Prop :=
  forall s, ledger (snd (a s)) = ledger s.

Definition upsLedgerSafe (ms : list Migration) : Prop :=
  Forall (fun m => forall a, upAction m = Some a -> ledgerSafe a) ms.
Definition downsLedgerSafe (ms : list Migration) : Prop :=
  Forall (fun m => forall a, downAction m = Some a -> ledgerSafe a) ms.

(** The versions apply has to run, in the order it runs them, for a ledger
    at version [V]. *)
Definition pendingVersions (V : Z) (ms : list Migration) : list Z :=
  Version <$> filter (fun m => V < Version m) (sortMigrationsAsc ms).

(** The rows of the report of [runCmdStatus]. *)
Definition statusHeader : string :=
  padRight 10 "VERSION" +:+ " " +:+ padRight 12 "STATUS" +:+ nl.

Definition statusRow (dbVersion v : Z) : string :=
  padRight 10 (pretty v) +:+ " " +:+
  padRight 12 (if v <=? dbVersion then "[x] APPLIED" else "[ ] PENDING") +:+ nl.

End Engine.

(** * A concrete database and registry

    The closed examples at the end of the file run the engine on a database
    whose schema is the list of its tables. *)

Definition Tables : Type := list string.

Definition tableOf (v : Z) : string := "t" +:+ pretty v.

Definition createTable (name : string) : @Action Tables :=
  fun s => (None, mkStore (ledger s) (schema s ++ [name])).

Definition dropTable (name : string) : @Action Tables :=
  fun s => (None, mkStore (ledger s) (filter (fun t => t ≠ name) (schema s))).

(** A function that creates its table and then fails. *)
Definition brokenCreate (name msg : string) : @Action Tables :=
  fun s => (Some (errors_New msg), mkStore (ledger s) (schema s ++ [name])).

Definition txMigration (v : Z) : @Migration Tables :=
  mkMigration v
    (Some (mkUpDown (Some (createTable (tableOf v))) (Some (dropTable (tableOf v)))))
    None.

Definition noTxMigration (v : Z) : @Migration Tables :=
  mkMigration v None
    (Some (mkUpDown (Some (createTable (tableOf v))) (Some (dropTable (tableOf v))))).

Definition brokenMigration (v : Z) : @Migration Tables :=
  mkMigration v
    (Some (mkUpDown (Some (brokenCreate (tableOf v) "boom"))
                    (Some (dropTable (tableOf v)))))
    None.

(** A migration with two defects: version zero and no mode. *)
Definition emptyMigration : @Migration Tables := mkMigration 0 None None.

Definition registry123 : list (@Migration Tables) :=
  [txMigration 2; noTxMigration 3; txMigration 1].

(** A database with the given ledger rows and tables, no transaction open,
    nothing logged or written yet, and the given faults ahead. *)
Definition database (rows : list Z) (tables : Tables)
    (faults : list (option error)) : @World Tables :=
  mkWorld (mkStore rows tables) None faults [] [] [] [].

(** The same database as a transaction on it sees it. *)
Definition inTransaction (rows : list Z) (tables : Tables) : @World Tables :=
  mkWorld (mkStore rows tables) (Some (mkStore rows tables)) [] [] [] [] [].

(** A [connectToDB] that finds the database, and the arguments of an apply
    run. *)
Definition connected : @ConnectFn Tables := fun _ _ w => (None, w).

Definition upArgs : unit -> list string :=
  fun _ => ["postgres://localhost/app"; "up"].

(** The registry listed in ascending order. *)
Definition registry123' : list (@Migration Tables) :=
  [txMigration 1; txMigration 2; noTxMigration 3].

(** * Properties *)

Section Properties.

Context {Schema : Type}.

Local Abbreviation Store := (@Store Schema).
Local Abbreviation Action := (@Action Schema).
Local Abbreviation UpDown := (@UpDown Schema).
Local Abbreviation Migration := (@Migration Schema).
Local Abbreviation World := (@World Schema).
Local Abbreviation ConnectFn := (@ConnectFn Schema).

(** ** Sorting *)

Lemma wrap64_id (z : Z) : in_int z -> wrap64 z = z.
Proof.
  unfold in_int, int_min, int_max, wrap64. intros Hz.
  rewrite Z.mod_small; lia.
Qed.

Section InsertionSort.

Context {E : Type} (cmp : E -> E -> Z) (key : E -> Z).
Lemma sinkLeft_perm (x : E) (before : list E) :
  sinkLeft cmp x before ≡ₚ x :: before.
Proof.
  induction before as [|y ys IH]; simpl; [done|].
  destruct (cmp x y <? 0); [|done].
  rewrite IH. apply perm_swap.
Qed.

Lemma fold_sinkLeft_perm (data before : list E) :
  fold_left (fun b x => sinkLeft cmp x b) data before ≡ₚ before ++ data.
Proof.
  revert before. induction data as [|x data IH]; intros before; simpl.
  - by rewrite app_nil_r.
  - rewrite IH, sinkLeft_perm. by rewrite <- Permutation_middle.
Qed.

Lemma insertionSort_perm (data : list E) :
  insertionSortCmpFunc cmp data ≡ₚ data.
Proof.
  unfold insertionSortCmpFunc.
  rewrite <- Permutation_rev. apply fold_sinkLeft_perm.
Qed.

Lemma sinkLeft_sorted (x : E) (before : list E) :
  (forall y, y ∈ before -> (cmp x y <? 0) = (key x <? key y)) ->
  (forall y, y ∈ before -> key y <> key x) ->
  StronglySorted (descending key) before ->
  StronglySorted (descending key) (sinkLeft cmp x before).
Proof.
  induction before as [|y ys IH]; intros Hcmp Hne Hs; simpl.
  - repeat constructor.
  - apply StronglySorted_cons in Hs as [Hy Hs].
    rewrite (Hcmp y) by left.
    destruct (Z.ltb_spec (key x) (key y)) as [Hlt|Hge].
    + apply StronglySorted_cons. split.
      * rewrite sinkLeft_perm. by constructor.
      * apply IH; [| |done]; intros z Hz; [apply Hcmp|apply Hne]; by right.
    + assert (key y < key x) as Hyx.
      { specialize (Hne y ltac:(left)). lia. }
      apply StronglySorted_cons. split.
      * constructor; [done|].
        eapply Forall_impl; [exact Hy|]. unfold descending. intros z Hz. lia.
      * by apply StronglySorted_cons.
Qed.

Lemma fold_sinkLeft_sorted (data before : list E) :
  agrees cmp key (before ++ data) ->
  NoDup (key <$> before ++ data) ->
  StronglySorted (descending key) before ->
  StronglySorted (descending key) (fold_left (fun b x => sinkLeft cmp x b) data before).
Proof.
  revert before. induction data as [|x data IH]; intros before Hag Hnd Hs; simpl.
  - done.
  - assert (sinkLeft cmp x before ++ data ≡ₚ before ++ x :: data) as Hp.
    { by rewrite sinkLeft_perm, <- Permutation_middle. }
    apply IH.
    + intros a b Ha Hb. apply Hag; by rewrite <- Hp.
    + by rewrite Hp.
    + rewrite fmap_app, fmap_cons in Hnd.
      apply NoDup_app in Hnd as (_ & Hdisj & _).
      apply sinkLeft_sorted; [| |done].
      * intros y Hy. apply Hag; set_solver.
      * intros y Hy Heq. apply (Hdisj (key y)).
        -- by apply list_elem_of_fmap_2.
        -- rewrite Heq. left.
  Qed.

Lemma StronglySorted_rev (l : list E) :
  StronglySorted (descending key) l -> StronglySorted (ascending key) (rev l).
Proof.
  induction 1 as [|x l Hs IH Hx]; simpl; [constructor|].
  apply StronglySorted_app_2; [|done|repeat constructor].
  intros a b Ha Hb. apply list_elem_of_singleton in Hb as ->.
  rewrite Forall_forall in Hx. apply Hx.
  apply list_elem_of_In. apply in_rev. by apply list_elem_of_In.
Qed.

Lemma insertionSort_sorted (data : list E) :
  agrees cmp key data ->
  NoDup (key <$> data) ->
  StronglySorted (ascending key) (insertionSortCmpFunc cmp data).
Proof.
  intros Hag Hnd. apply StronglySorted_rev.
  apply fold_sinkLeft_sorted; [done|done|constructor].
Qed.

(** A list has one arrangement that is strictly ascending. *)
Lemma sorted_perm_unique (l1 l2 : list E) :
  StronglySorted (ascending key) l1 -> StronglySorted (ascending key) l2 ->
  l1 ≡ₚ l2 -> l1 = l2.
Proof.
  apply StronglySorted_unique_strong.
  unfold ascending. intros; lia.
Qed.

End InsertionSort.

(** ** Validation *)

Lemma occurrences_snoc (v : Z) (ms : list Migration) (m : Migration) :
  occurrences v (ms ++ [m]) =
  (occurrences v ms + (if decide (Version m = v) then 1 else 0))%nat.
Proof.
  unfold occurrences. rewrite filter_app, length_app. f_equal.
  rewrite filter_cons, filter_nil. by destruct (decide (Version m = v)).
Qed.

Lemma countVersions_snoc (ms : list Migration) (m : Migration) :
  countVersions (ms ++ [m]) =
  <[Version m := S (default 0%nat (countVersions ms !! Version m))]> (countVersions ms).
Proof. unfold countVersions. by rewrite fold_left_app. Qed.

(** The counters of [validateMigrations] hold the number of occurrences of
    every version that occurs, and nothing else. *)
Lemma countVersions_lookup (ms : list Migration) (v : Z) :
  countVersions ms !! v =
  if decide (occurrences v ms = 0%nat) then None else Some (occurrences v ms).
Proof.
  induction ms as [|m ms IH] using rev_ind.
  - done.
  - rewrite countVersions_snoc, occurrences_snoc.
    destruct (decide (Version m = v)) as [->|Hne].
    + rewrite lookup_insert_eq, IH.
      destruct (decide (occurrences v ms = 0%nat)) as [->|Hpos]; simpl.
      * done.
      * destruct (decide _) as [Hz|_]; [lia|]. f_equal. lia.
    + rewrite lookup_insert_ne by done. rewrite IH, Nat.add_0_r. done.
Qed.

Lemma occurrences_pos (v : Z) (ms : list Migration) :
  v ∈ Version <$> ms -> (0 < occurrences v ms)%nat.
Proof.
  intros (m & -> & Hm)%list_elem_of_fmap.
  unfold occurrences.
  assert (m ∈ filter (fun m' => Version m' = Version m) ms) as Hin.
  { by apply list_elem_of_filter. }
  destruct (filter _ ms); [by apply not_elem_of_nil in Hin|simpl; lia].
Qed.

Lemma occurrences_NoDup (ms : list Migration) :
  (forall v, (occurrences v ms <= 1)%nat) -> NoDup (Version <$> ms).
Proof.
  induction ms as [|m ms IH]; intros Hocc; simpl; [constructor|].
  constructor.
  - intros Hin%occurrences_pos.
    specialize (Hocc (Version m)). unfold occurrences in *.
    rewrite filter_cons_True in Hocc by done. simpl in Hocc. lia.
  - apply IH. intros v. specialize (Hocc v). unfold occurrences in *.
    rewrite filter_cons in Hocc. destruct (decide _); simpl in Hocc; lia.
Qed.

(** A version defined more than once is reported, with its count. *)
Lemma dupValidationErrs_complete (ms : list Migration) (v : Z) :
  (1 < occurrences v ms)%nat ->
  dupMessage v (occurrences v ms) ∈ dupValidationErrs ms.
Proof.
  intros Hocc. unfold dupValidationErrs.
  apply list_elem_of_omap. exists (v, occurrences v ms). split.
  - apply elem_of_map_to_list. rewrite countVersions_lookup.
    destruct (decide _); [lia|done].
  - simpl. by apply Nat.ltb_lt in Hocc as ->.
Qed.

Lemma dupValidationErrs_nil (ms : list Migration) :
  dupValidationErrs ms = [] -> NoDup (Version <$> ms).
Proof.
  intros Hnil. apply occurrences_NoDup. intros v.
  destruct (decide (1 < occurrences v ms)%nat) as [Hdup|]; [|lia].
  apply dupValidationErrs_complete in Hdup. rewrite Hnil in Hdup.
  by apply not_elem_of_nil in Hdup.
Qed.

(** The first defect of a migration is reported, whatever the rest of the
    slice holds. *)
Lemma migValidationErrs_complete (ms : list Migration) (m : Migration) (e : error) :
  m ∈ ms -> validate m = Some e -> Error e ∈ migValidationErrs ms.
Proof.
  intros Hin Hv. unfold migValidationErrs.
  apply list_elem_of_omap. exists m. split; [done|]. by rewrite Hv.
Qed.

Lemma migValidationErrs_nil (ms : list Migration) :
  migValidationErrs ms = [] -> Forall (fun m => validate m = None) ms.
Proof.
  intros Hnil. apply Forall_forall. intros m Hin.
  destruct (validate m) as [e|] eqn:Hv; [|done].
  pose proof (migValidationErrs_complete ms m e Hin Hv) as Hmem.
  rewrite Hnil in Hmem. by apply not_elem_of_nil in Hmem.
Qed.

Lemma validateMigrations_None (ms : list Migration) :
  validateMigrations ms = None <-> allValidationErrs ms = [].
Proof.
  unfold validateMigrations. destruct (allValidationErrs ms); split; done.
Qed.

Lemma validate_None (m : Migration) : validate m = None <-> wellFormed m.
Proof.
  unfold validate, wellFormed, hasUpAndDown.
  destruct (Z.leb_spec (Version m) 0) as [Hle|Hpos].
  - split; [done|]. intros [? _]. lia.
  - destruct (mUpDown m) as [[[up|] [down|]]|], (mUpDownNoTX m) as [[[up'|] [down'|]]|];
      simpl; split; try done; try (intros _; split; [done|]; eauto 6);
      intros [_ [(? & ? & ? & ?)|(? & ? & ? & ?)]]; congruence.
Qed.

(** A registry that passes [validateMigrations]: every migration is well
    formed and no version occurs twice. *)
Lemma validateMigrations_valid (ms : list Migration) :
  validateMigrations ms = None ->
  Forall wellFormed ms /\ NoDup (Version <$> ms).
Proof.
  intros Hv%validateMigrations_None.
  unfold allValidationErrs in Hv. apply app_eq_nil in Hv as [Hm Hd].
  split.
  - eapply Forall_impl; [by apply migValidationErrs_nil|].
    intros m. by rewrite validate_None.
  - by apply dupValidationErrs_nil.
Qed.

(** ** The two sorts of a registry *)

Lemma StronglySorted_weaken {A : Type} (R R' : relation A) (l : list A) :
  (forall a b, R a b -> R' a b) -> StronglySorted R l -> StronglySorted R' l.
Proof.
  intros HR. induction 1 as [|x l Hs IH Hx]; constructor; [done|].
  eapply Forall_impl; [exact Hx|]. intros b. apply HR.
Qed.

Lemma cmpAsc_agrees (ms : list Migration) :
  intVersions ms -> Forall (fun m => 0 < Version m) ms ->
  agrees cmpAsc Version ms.
Proof.
  unfold intVersions. rewrite !Forall_forall. intros Hint Hpos x y Hx Hy.
  pose proof (Hint x Hx) as Hix. pose proof (Hint y Hy) as Hiy.
  pose proof (Hpos x Hx). pose proof (Hpos y Hy).
  unfold cmpAsc. rewrite wrap64_id.
  - destruct (Z.ltb_spec (Version x - Version y) 0), (Z.ltb_spec (Version x) (Version y)); lia.
  - unfold in_int, int_min, int_max in *. lia.
Qed.

Lemma cmpDesc_agrees (ms : list Migration) :
  intVersions ms -> Forall (fun m => 0 < Version m) ms ->
  agrees cmpDesc (fun m => - Version m) ms.
Proof.
  unfold intVersions. rewrite !Forall_forall. intros Hint Hpos x y Hx Hy.
  pose proof (Hint x Hx) as Hix. pose proof (Hint y Hy) as Hiy.
  pose proof (Hpos x Hx). pose proof (Hpos y Hy).
  unfold cmpDesc. rewrite wrap64_id.
  - destruct (Z.ltb_spec (Version y - Version x) 0),
      (Z.ltb_spec (- Version x) (- Version y)); lia.
  - unfold in_int, int_min, int_max in *. lia.
Qed.

Lemma sortMigrationsAsc_perm (ms : list Migration) : sortMigrationsAsc ms ≡ₚ ms.
Proof. apply insertionSort_perm. Qed.

Lemma sortMigrationsDesc_perm (ms : list Migration) : sortMigrationsDesc ms ≡ₚ ms.
Proof. apply insertionSort_perm. Qed.

Lemma sortMigrationsAsc_sorted (ms : list Migration) :
  intVersions ms -> Forall (fun m => 0 < Version m) ms -> NoDup (Version <$> ms) ->
  StronglySorted (ascending Version) (sortMigrationsAsc ms).
Proof.
  intros Hint Hpos Hnd. apply insertionSort_sorted; [|done].
  by apply cmpAsc_agrees.
Qed.

Lemma sortMigrationsDesc_sorted (ms : list Migration) :
  intVersions ms -> Forall (fun m => 0 < Version m) ms -> NoDup (Version <$> ms) ->
  StronglySorted (descending Version) (sortMigrationsDesc ms).
Proof.
  intros Hint Hpos Hnd.
  apply (StronglySorted_weaken (ascending (fun m => - Version m))).
  { unfold ascending, descending. intros; lia. }
  apply insertionSort_sorted; [by apply cmpDesc_agrees|].
  replace (fmap (fun m => - Version m) ms) with (Z.opp <$> (Version <$> ms)).
  - apply NoDup_fmap_2; [|done]. intros a b. lia.
  - rewrite <- list_fmap_compose. done.
Qed.

Lemma sortMigrationsDesc_rev (ms : list Migration) :
  intVersions ms -> Forall (fun m => 0 < Version m) ms -> NoDup (Version <$> ms) ->
  sortMigrationsDesc ms = rev (sortMigrationsAsc ms).
Proof.
  intros Hint Hpos Hnd.
  rewrite <- (rev_involutive (sortMigrationsDesc ms)). f_equal.
  apply (sorted_perm_unique Version).
  - apply StronglySorted_rev. by apply sortMigrationsDesc_sorted.
  - by apply sortMigrationsAsc_sorted.
  - rewrite <- Permutation_rev.
    by rewrite sortMigrationsDesc_perm, sortMigrationsAsc_perm.
Qed.

(** C8.  For every valid registry (one that [validateMigrations] accepts,
    its versions being Go integers), sorting ascending and sorting descending
    give slices that are the reverse of each other, and each holds the
    versions of the input. *)
Theorem sorts_are_reverses (ms : list Migration) :
  intVersions ms ->
  validateMigrations ms = None ->
  sortMigrationsDesc ms = rev (sortMigrationsAsc ms) /\
  sortMigrationsAsc ms = rev (sortMigrationsDesc ms) /\
  Version <$> sortMigrationsAsc ms ≡ₚ Version <$> ms /\
  Version <$> sortMigrationsDesc ms ≡ₚ Version <$> ms.
Proof.
  intros Hint [Hwf Hnd]%validateMigrations_valid.
  assert (Forall (fun m => 0 < Version m) ms) as Hpos.
  { eapply Forall_impl; [exact Hwf|]. by intros m [? _]. }
  pose proof (sortMigrationsDesc_rev ms Hint Hpos Hnd) as Hrev.
  split; [done|]. split.
  - by rewrite Hrev, rev_involutive.
  - by rewrite sortMigrationsAsc_perm, sortMigrationsDesc_perm.
Qed.

(** ** Messages *)

Lemma append_cons (c : Ascii.ascii) (a b : string) :
  String c a +:+ b = String c (a +:+ b).
Proof. done. Qed.

Lemma append_assoc (a b c : string) : (a +:+ b) +:+ c = a +:+ (b +:+ c).
Proof.
  induction a as [|ch a IH]; [done|].
  rewrite !append_cons. by f_equal.
Qed.

Lemma append_nil_r (a : string) : a +:+ "" = a.
Proof.
  induction a as [|ch a IH]; [done|].
  rewrite append_cons. by f_equal.
Qed.

Lemma mentions_refl (s : string) : mentions s s.
Proof. exists ""%string, ""%string. by rewrite append_nil_r. Qed.

Lemma mentions_app_l (p s x : string) : mentions s x -> mentions (p +:+ s) x.
Proof.
  intros (pre & post & ->). exists (p +:+ pre), post. by rewrite append_assoc.
Qed.

Lemma mentions_app_r (s q x : string) : mentions s x -> mentions (s +:+ q) x.
Proof.
  intros (pre & post & ->). exists pre, (post +:+ q).
  by rewrite !append_assoc.
Qed.

(** [strings.Join] keeps every element. *)
Lemma mentions_concat (sep x : string) (l : list string) :
  x ∈ l -> mentions (String.concat sep l) x.
Proof.
  induction l as [|y l IH]; intros Hin; [by apply not_elem_of_nil in Hin|].
  apply elem_of_cons in Hin as [->|Hin].
  - destruct l; simpl; [apply mentions_refl|]. apply mentions_app_r, mentions_refl.
  - destruct l as [|z l]; [by apply not_elem_of_nil in Hin|].
    change (String.concat sep (y :: z :: l))
      with (y +:+ sep +:+ String.concat sep (z :: l)).
    by apply mentions_app_l, mentions_app_l, IH.
Qed.

Lemma prefix_app (sub s : string) :
  String.prefix sub s = true <-> exists post, s = sub +:+ post.
Proof.
  revert s. induction sub as [|c sub IH]; intros s.
  - split; [intros _; by exists s|]. intros _. by destruct s.
  - destruct s as [|c' s]; simpl.
    + split; [done|]. by intros [post ?].
    + destruct (Ascii.ascii_dec c c') as [->|Hne].
      * rewrite IH. split; intros [post Hp]; exists post.
        -- rewrite append_cons. congruence.
        -- rewrite append_cons in Hp. congruence.
      * split; [done|]. intros [post Hp]. rewrite append_cons in Hp. congruence.
Qed.

Lemma containsb_mentions (s sub : string) :
  containsb s sub = true <-> mentions s sub.
Proof.
  induction s as [|c s IH].
  - change (containsb "" sub) with (String.prefix sub "" || false).
    rewrite orb_false_r, prefix_app. split.
    + intros [post Hp]. by exists ""%string, post.
    + intros (pre & post & Hp). destruct pre; [by exists post|done].
  - change (containsb (String c s) sub)
      with (String.prefix sub (String c s) || containsb s sub).
    rewrite orb_true_iff, IH, prefix_app. split.
    + intros [[post Hp]|(pre & post & Hp)].
      * by exists ""%string, post.
      * exists (String c pre), post. rewrite append_cons. by rewrite Hp.
    + intros (pre & post & Hp). destruct pre as [|c' pre].
      * left. by exists post.
      * right. exists pre, post. rewrite append_cons in Hp. congruence.
Qed.


(** ** What validation reports *)

(** [validate] stops at the first defect of the migration, in the order
    [defectOrder], and words it as [finding] says. *)
Lemma validate_firstDefect (m : Migration) :
  validate m = (fun d => errors_New (finding m d)) <$> firstDefect m.
Proof.
  unfold validate, firstDefect, defectOrder, finding, hasDefect, incomplete, hasUpAndDown.
  simpl. destruct (Version m <=? 0); [done|].
  destruct (mUpDown m) as [[[up|] [down|]]|],
           (mUpDownNoTX m) as [[[up'|] [down'|]]|]; done.
Qed.

(** A migration with one of the listed defects has a first one. *)
Lemma firstDefect_Some (m : Migration) (d : Defect) :
  hasDefect m d = true -> exists d', firstDefect m = Some d'.
Proof.
  intros Hd. unfold firstDefect.
  destruct (List.find (hasDefect m) defectOrder) as [d'|] eqn:Hfind; [by exists d'|].
  pose proof (List.find_none _ _ Hfind d) as Hnone.
  rewrite Hd in Hnone. discriminate Hnone.
  destruct d; simpl; tauto.
Qed.

Lemma finding_reported (ms : list Migration) (x : string) :
  x ∈ allValidationErrs ms ->
  exists e, validateMigrations ms = Some e /\ mentions (Error e) x.
Proof.
  intros Hin. unfold validateMigrations.
  destruct (allValidationErrs ms) as [|y l] eqn:Hall.
  - by apply not_elem_of_nil in Hin.
  - eexists. split; [done|]. cbn [Error].
    by apply mentions_app_l, mentions_concat.
Qed.

(** C6, as the code has it.  Validation never stops at a defective
    migration: every migration of the registry that has one of the listed
    defects is reported with its first defect, in the order version <= 0,
    neither mode set, both modes set, chosen mode missing an up or down
    action; so is every version that occurs more than once; all findings are
    joined into the one error returned.  In particular a registry with a zero
    version and a duplicated version gets one error that mentions both. *)
Theorem validateMigrations_aggregates (ms : list Migration) :
  (forall m d, m ∈ ms -> hasDefect m d = true ->
     exists d' e,
       firstDefect m = Some d' /\ validate m = Some (errors_New (finding m d')) /\
       validateMigrations ms = Some e /\ mentions (Error e) (finding m d')) /\
  (forall v, (1 < occurrences v ms)%nat ->
     exists e, validateMigrations ms = Some e /\
       mentions (Error e) (dupMessage v (occurrences v ms))) /\
  (forall e, validateMigrations ms = Some e ->
     e = errors_New ("invalid migration(s): " +:+
                     String.concat "; " (allValidationErrs ms))) /\
  (forall m v, m ∈ ms -> Version m = 0 -> (1 < occurrences v ms)%nat ->
     exists e, validateMigrations ms = Some e /\
       mentions (Error e) "migration version must be > 0" /\
       mentions (Error e) (dupMessage v (occurrences v ms))).
Proof.
  assert (forall m d, m ∈ ms -> firstDefect m = Some d ->
            finding m d ∈ allValidationErrs ms) as Hmig.
  { intros m d Hin Hd. apply elem_of_app. left.
    apply (migValidationErrs_complete ms m (errors_New (finding m d))); [done|].
    by rewrite validate_firstDefect, Hd. }
  assert (forall v, (1 < occurrences v ms)%nat ->
            dupMessage v (occurrences v ms) ∈ allValidationErrs ms) as Hdup.
  { intros v Hv. apply elem_of_app. right. by apply dupValidationErrs_complete. }
  split; [|split; [|split]].
  - intros m d Hin Hd.
    destruct (firstDefect_Some m d Hd) as [d' Hd'].
    destruct (finding_reported ms _ (Hmig m d' Hin Hd')) as (e & He & Hm).
    exists d', e. split; [done|]. split; [|done].
    by rewrite validate_firstDefect, Hd'.
  - intros v Hv. by apply finding_reported, Hdup.
  - intros e. unfold validateMigrations.
    destruct (allValidationErrs ms); [done|]. congruence.
  - intros m v Hin Hzero Hv.
    destruct (finding_reported ms _ (Hdup v Hv)) as (e & He & Hm2).
    exists e. split; [done|]. split; [|done].
    destruct (finding_reported ms _ (Hmig m BadVersion Hin
      ltac:(unfold firstDefect; simpl; by rewrite Hzero))) as (e' & He' & Hm1).
    rewrite He in He'. by injection He' as <-.
Qed.

(** C10.  [newGosmig] refuses an empty slice of migrations with the error
    "no migrations provided", whatever its other arguments are and before it
    looks at any of them; [validateMigrations] on the empty slice reports
    nothing.  Building the tool touches no database: only the function it
    returns does. *)
Theorem newGosmig_no_migrations
    (connectToDB : option ConnectFn) (config : option Config)
    (getArgs : option (unit -> list string))
    (osExit : option (Z -> World -> World)) (out errOut : option Writer) :
  newGosmig [] connectToDB config getArgs osExit out errOut =
    (None, Some (errors_New "no migrations provided")) /\
  validateMigrations ([] : list Migration) = None.
Proof. split; reflexivity. Qed.


(** ** The database calls when nothing is made to fail *)

Lemma faultFree_next (w : World) :
  faultFree w -> match oracle w with [] => None | f :: _ => f end = None.
Proof. unfold faultFree. destruct (oracle w); [done|]. by inversion 1. Qed.

Lemma faultFree_afterCall (ev : Event) (w : World) :
  faultFree w -> faultFree (afterCall ev w).
Proof.
  unfold faultFree. simpl. destruct (oracle w); simpl; [done|]. by inversion 1.
Qed.

Lemma nextFault_quiet (ev : Event) (w : World) :
  faultFree w -> nextFault (logEvent ev w) = (None, afterCall ev w).
Proof.
  intros Hq. unfold nextFault, afterCall. simpl. by rewrite faultFree_next.
Qed.

Lemma readStore_afterCall (h : Handle) (ev : Event) (w : World) :
  readStore h (afterCall ev w) = readStore h w.
Proof. by destruct h. Qed.

Lemma getDBVersion_quiet (h : Handle) (w : World) (s : Store) :
  faultFree w -> readStore h w = Some s ->
  getDBVersion h w = ((currentVersion (ledger s), None), afterCall EvQueryVersion w).
Proof.
  intros Hq Hs. unfold getDBVersion, queryDBVersion.
  rewrite nextFault_quiet by done.
  by rewrite readStore_afterCall, Hs.
Qed.

Lemma insertDBVersion_quiet (h : Handle) (version : Z) (w : World) (s : Store) :
  faultFree w -> readStore h w = Some s -> version ∉ ledger s ->
  insertDBVersion h version w =
    (None, writeStore h (mkStore (ledger s ++ [version]) (schema s))
             (afterCall (EvInsert version) w)).
Proof.
  intros Hq Hs Hfresh. unfold insertDBVersion, execInsertVersion.
  rewrite nextFault_quiet by done.
  rewrite readStore_afterCall, Hs.
  by rewrite bool_decide_eq_false_2.
Qed.

Lemma deleteDBVersion_quiet (h : Handle) (version : Z) (w : World) (s : Store) :
  faultFree w -> readStore h w = Some s ->
  deleteDBVersion h version w =
    (None, writeStore h (mkStore (filter (fun v => v ≠ version) (ledger s)) (schema s))
             (afterCall (EvDelete version) w)).
Proof.
  intros Hq Hs. unfold deleteDBVersion, execDeleteVersion.
  rewrite nextFault_quiet by done.
  by rewrite readStore_afterCall, Hs.
Qed.

Lemma BeginTx_quiet (w : World) :
  faultFree w ->
  BeginTx w = (None, setPending (Some (committed w)) (afterCall EvBeginTx w)).
Proof. intros Hq. unfold BeginTx. by rewrite nextFault_quiet. Qed.

Lemma Commit_quiet (w : World) (s : Store) :
  faultFree w -> pending w = Some s ->
  Commit w = (None, setPending None (setCommitted s (afterCall EvCommit w))).
Proof.
  intros Hq Hs. unfold Commit. rewrite nextFault_quiet by done.
  simpl. by rewrite Hs.
Qed.


(** ** What every call leaves behind, failing or not *)

Lemma getDBVersion_snd (h : Handle) (w : World) :
  snd (getDBVersion h w) = afterCall EvQueryVersion w.
Proof.
  unfold getDBVersion, queryDBVersion, nextFault, afterCall. simpl.
  destruct (oracle w) as [|[e|] o]; simpl; try done;
    destruct (readStore h _); done.
Qed.

Lemma insertDBVersion_trace (h : Handle) (version : Z) (w : World) :
  trace (snd (insertDBVersion h version w)) = trace w ++ [EvInsert version].
Proof.
  unfold insertDBVersion, execInsertVersion, nextFault. simpl.
  destruct (oracle w) as [|[e|] o]; simpl; try done;
    (destruct (readStore h _) as [s|]; simpl; [|done];
     destruct (bool_decide _); simpl; [done|]; by destruct h).
Qed.

Lemma deleteDBVersion_trace (h : Handle) (version : Z) (w : World) :
  trace (snd (deleteDBVersion h version w)) = trace w ++ [EvDelete version].
Proof.
  unfold deleteDBVersion, execDeleteVersion, nextFault. simpl.
  destruct (oracle w) as [|[e|] o]; simpl; try done;
    (destruct (readStore h _) as [s|]; simpl; [|done]; by destruct h).
Qed.

Lemma callAction_trace (a : Action) (h : Handle) (w : World) :
  trace (snd (callAction a h w)) = trace w.
Proof.
  unfold callAction. destruct (readStore h w) as [s|]; [|done].
  destruct (a s) as [r s']. by destruct h.
Qed.

Lemma rereads_inv (h : Handle) (w : World) (r : Z) :
  rereads h w r -> getDBVersion h w = ((r, None), afterCall EvQueryVersion w).
Proof.
  unfold rereads. intros Hr. rewrite <- (getDBVersion_snd h w).
  destruct (getDBVersion h w) as [p w1]. simpl in *. by subst.
Qed.

(** ** The version guard *)

Lemma errors_Is_wrapped (pre post : string) (sentinel : error) :
  errors_Is sentinel sentinel = true ->
  errors_Is (fmt_Errorf pre sentinel post) sentinel = true.
Proof. intros Hs. simpl. rewrite Hs. by rewrite orb_true_r. Qed.

(** C3.  Once the guard has re-read version [r], an up execution is aborted
    by the guard (its result wraps [errDBVersionChangedUp] and the migration's
    function was not called) exactly when [version <= r], and a down
    execution (with [errDBVersionChangedDown]) exactly when [version > r].
    An aborted execution has made the one query of the re-read and nothing
    else: no function call, no insert, no delete, no change to the database. *)
Theorem guard_aborts_exactly (version r : Z) (up down : option Action)
    (h : Handle) (w : World) :
  rereads h w r ->
  (exists res w' evs,
     migrateUp version up h w = (res, w') /\ trace w' = trace w ++ evs /\
     ((isConflict errDBVersionChangedUp res /\ EvUp version ∉ evs) <-> version <= r) /\
     (version <= r ->
        evs = [EvQueryVersion] /\ committed w' = committed w /\ pending w' = pending w)) /\
  (exists res w' evs,
     migrateDown version down h w = (res, w') /\ trace w' = trace w ++ evs /\
     ((isConflict errDBVersionChangedDown res /\ EvDown version ∉ evs) <-> version > r) /\
     (version > r ->
        evs = [EvQueryVersion] /\ committed w' = committed w /\ pending w' = pending w)).
Proof.
  intros Hr%rereads_inv. split.
  - unfold migrateUp. rewrite Hr.
    destruct (Z.leb_spec version r) as [Hle|Hgt].
    + eexists _, _, [EvQueryVersion]. split; [done|]. split; [done|]. split; [|done].
      split; [done|]. intros _. split.
      * eexists. split; [done|]. by apply errors_Is_wrapped.
      * by intros ?%list_elem_of_singleton.
    + destruct up as [a|].
      * destruct (callAction a h (logEvent (EvUp version) (afterCall EvQueryVersion w)))
          as [aerr w2] eqn:Hcall.
        assert (trace w2 = trace w ++ [EvQueryVersion; EvUp version]) as Ht2.
        { pose proof (callAction_trace a h
            (logEvent (EvUp version) (afterCall EvQueryVersion w))) as Ht.
          rewrite Hcall in Ht. simpl in Ht. rewrite Ht. by rewrite <- app_assoc. }
        destruct aerr as [e|].
        -- eexists _, _, _. split; [done|]. split; [exact Ht2|].
           split; [|lia]. split; [|lia]. intros [_ Hnot]. exfalso. apply Hnot.
           set_solver.
        -- destruct (insertDBVersion h version w2) as [ierr w3] eqn:Hins.
           pose proof (insertDBVersion_trace h version w2) as Ht3.
           rewrite Hins in Ht3. simpl in Ht3. rewrite Ht2, <- app_assoc in Ht3.
           eexists _, _, _. split; [done|]. split; [exact Ht3|].
           split; [|lia]. split; [|lia]. intros [_ Hnot]. exfalso. apply Hnot.
           set_solver.
      * eexists _, _, [EvQueryVersion]. split; [done|]. split; [done|].
        split; [|lia]. split; [|lia]. by intros [(e & ? & _) _].
  - unfold migrateDown. rewrite Hr.
    destruct (Z.gtb_spec version r) as [Hgt|Hle].
    + eexists _, _, [EvQueryVersion]. split; [done|]. split; [done|]. split; [|done].
      split; [lia|]. intros _. split.
      * eexists. split; [done|]. by apply errors_Is_wrapped.
      * by intros ?%list_elem_of_singleton.
    + destruct down as [a|].
      * destruct (callAction a h (logEvent (EvDown version) (afterCall EvQueryVersion w)))
          as [aerr w2] eqn:Hcall.
        assert (trace w2 = trace w ++ [EvQueryVersion; EvDown version]) as Ht2.
        { pose proof (callAction_trace a h
            (logEvent (EvDown version) (afterCall EvQueryVersion w))) as Ht.
          rewrite Hcall in Ht. simpl in Ht. rewrite Ht. by rewrite <- app_assoc. }
        destruct aerr as [e|].
        -- eexists _, _, _. split; [done|]. split; [exact Ht2|].
           split; [|lia]. split; [|lia]. intros [_ Hnot]. exfalso. apply Hnot.
           set_solver.
        -- destruct (deleteDBVersion h version w2) as [derr w3] eqn:Hdel.
           pose proof (deleteDBVersion_trace h version w2) as Ht3.
           rewrite Hdel in Ht3. simpl in Ht3. rewrite Ht2, <- app_assoc in Ht3.
           eexists _, _, _. split; [done|]. split; [exact Ht3|].
           split; [|lia]. split; [|lia]. intros [_ Hnot]. exfalso. apply Hnot.
           set_solver.
      * eexists _, _, [EvQueryVersion]. split; [done|]. split; [done|].
        split; [|lia]. split; [|lia]. by intros [(e & ? & _) _].
Qed.


(** ** The current version of a ledger *)

Lemma fold_max_ge (l : list Z) (a : Z) :
  a <= fold_left Z.max l a /\ forall x, x ∈ l -> x <= fold_left Z.max l a.
Proof.
  revert a. induction l as [|y l IH]; intros a; simpl.
  - split; [lia|]. intros x Hx. by apply not_elem_of_nil in Hx.
  - destruct (IH (Z.max a y)) as [Ha Hl]. split; [lia|].
    intros x [->|Hx]%elem_of_cons; [lia|by apply Hl].
Qed.

Lemma currentVersion_ge (l : list Z) (x : Z) : x ∈ l -> x <= currentVersion l.
Proof.
  destruct l as [|v vs]; [by intros ?%not_elem_of_nil|]. simpl.
  destruct (fold_max_ge vs v) as [Hv Hvs].
  intros [->|Hx]%elem_of_cons; [done|by apply Hvs].
Qed.

Lemma currentVersion_fresh (l : list Z) (v : Z) :
  currentVersion l < v -> v ∉ l.
Proof. intros Hlt Hin%currentVersion_ge. lia. Qed.

Lemma currentVersion_snoc (l : list Z) (v : Z) :
  currentVersion l < v -> currentVersion (l ++ [v]) = v.
Proof.
  destruct l as [|x xs]; simpl; [done|].
  rewrite fold_left_app. simpl. lia.
Qed.

(** ** One migration, nothing failing *)

Lemma migrateUp_quiet (version : Z) (a : Action) (h : Handle) (w : World) (s : Store) :
  faultFree w -> readStore h w = Some s ->
  currentVersion (ledger s) < version -> wellBehaved a ->
  migrateUp version (Some a) h w =
    (ret None,
     writeStore h (mkStore (ledger s ++ [version]) (schema (snd (a s))))
       (afterCall (EvInsert version)
          (writeStore h (snd (a s))
             (logEvent (EvUp version) (afterCall EvQueryVersion w))))).
Proof.
  intros Hq Hs Hlt Ha. unfold migrateUp.
  rewrite (getDBVersion_quiet h w s) by done.
  destruct (Z.leb_spec version (currentVersion (ledger s))) as [?|_]; [lia|].
  unfold callAction.
  replace (readStore h (logEvent (EvUp version) (afterCall EvQueryVersion w)))
    with (Some s) by (by destruct h).
  destruct (Ha s) as [Hnil Hled]. destruct (a s) as [r s'] eqn:Has. simpl in *. subst r.
  erewrite insertDBVersion_quiet.
  - by rewrite Hled.
  - destruct h; by apply faultFree_afterCall.
  - by destruct h.
  - rewrite Hled. by apply currentVersion_fresh.
Qed.

Lemma migrateDown_quiet (version : Z) (a : Action) (h : Handle) (w : World) (s : Store) :
  faultFree w -> readStore h w = Some s ->
  version <= currentVersion (ledger s) -> wellBehaved a ->
  migrateDown version (Some a) h w =
    (ret None,
     writeStore h
       (mkStore (filter (fun v => v ≠ version) (ledger s)) (schema (snd (a s))))
       (afterCall (EvDelete version)
          (writeStore h (snd (a s))
             (logEvent (EvDown version) (afterCall EvQueryVersion w))))).
Proof.
  intros Hq Hs Hle Ha. unfold migrateDown.
  rewrite (getDBVersion_quiet h w s) by done.
  destruct (Z.gtb_spec version (currentVersion (ledger s))) as [?|_]; [lia|].
  unfold callAction.
  replace (readStore h (logEvent (EvDown version) (afterCall EvQueryVersion w)))
    with (Some s) by (by destruct h).
  destruct (Ha s) as [Hnil Hled]. destruct (a s) as [r s'] eqn:Has. simpl in *. subst r.
  erewrite deleteDBVersion_quiet.
  - by rewrite Hled.
  - destruct h; by apply faultFree_afterCall.
  - by destruct h.
Qed.


Lemma Forall_tail_keep {A : Type} (P : A -> Prop) (l : list A) :
  Forall P l -> Forall P (tail l).
Proof. destruct 1; [constructor|done]. Qed.

(** The oracle of a world reached by some calls is a tail of the oracle the
    run started with. *)
Ltac quiet_oracle Hq :=
  unfold faultFree in *; simpl; repeat apply Forall_tail_keep; exact Hq.

Lemma written_Fprint (output : Writer) (line : string) (w : World) :
  written output (Fprint output line w) = written output w ++ [line].
Proof. by destruct output. Qed.

(** A well-formed, well-behaved migration above the current version is
    applied: its function runs, its version is inserted, and in
    transactional mode the two are committed together. *)
Lemma applyOne_quiet (m : Migration) (w : World) :
  wellFormed m -> (forall a, upAction m = Some a -> wellBehaved a) ->
  faultFree w -> currentVersion (ledger (committed w)) < Version m ->
  exists w' evs,
    applyOne m w = (ret None, w') /\
    ledger (committed w') = ledger (committed w) ++ [Version m] /\
    trace w' = trace w ++ evs /\ mutations evs = appliedEvents (Version m) /\
    faultFree w' /\ stdout w' = stdout w /\ stderr w' = stderr w.
Proof.
  intros [_ Hmode] Hbehave Hq Hlt. unfold applyOne, upAction, modeOf in *.
  destruct Hmode as [(up & down & Hm1 & Hm2)|(up & down & Hm1 & Hm2)];
    rewrite Hm1, ?Hm2 in *; simpl in Hbehave; specialize (Hbehave up eq_refl); simpl.
  - unfold executeInTx. rewrite BeginTx_quiet by done.
    erewrite migrateUp_quiet; [| |reflexivity|exact Hlt|exact Hbehave].
    2:{ by apply faultFree_afterCall. }
    erewrite Commit_quiet; [| |reflexivity].
    2:{ quiet_oracle Hq. }
    eexists _, [EvBeginTx; EvQueryVersion; EvUp (Version m); EvInsert (Version m); EvCommit].
    split; [reflexivity|]. simpl. rewrite <- !app_assoc. repeat split; try done.
    quiet_oracle Hq.
  - unfold executeNoTx.
    erewrite migrateUp_quiet; [|exact Hq|reflexivity|exact Hlt|exact Hbehave].
    eexists _, [EvQueryVersion; EvUp (Version m); EvInsert (Version m)].
    split; [reflexivity|]. simpl. rewrite <- !app_assoc. repeat split; try done.
    quiet_oracle Hq.
Qed.


(** ** The loop of [runCmdUp], nothing failing *)

Lemma mutations_app (evs1 evs2 : list Event) :
  mutations (evs1 ++ evs2) = mutations evs1 ++ mutations evs2.
Proof. apply List.filter_app. Qed.

Lemma written_applyOne (output : Writer) (w w' : World) :
  stdout w' = stdout w -> stderr w' = stderr w -> written output w' = written output w.
Proof. by destruct output. Qed.

(** Over an ascending slice, with no limit, the loop skips the versions up
    to [dbVersion] and applies all the others, in the order of the slice. *)
Lemma upLoop_quiet (l : list Migration) (dbVersion : Z) (output : Writer)
    (nb : Z) (w : World) :
  StronglySorted (ascending Version) l -> Forall wellFormed l -> upsBehave l ->
  faultFree w ->
  (forall m, m ∈ l -> dbVersion < Version m ->
     currentVersion (ledger (committed w)) < Version m) ->
  exists w' evs,
    let applied := Version <$> filter (fun m => dbVersion < Version m) l in
    upLoop l dbVersion output 0 nb w = (ret None, nb + Z.of_nat (length applied), w') /\
    ledger (committed w') = ledger (committed w) ++ applied /\
    trace w' = trace w ++ evs /\ mutations evs = applied ≫= appliedEvents /\
    written output w' = written output w ++ (appliedLine <$> applied) /\
    faultFree w'.
Proof.
  revert nb w. induction l as [|m l IH]; intros nb w Hsorted Hwf Hbehave Hq Hinv.
  - exists w, []. simpl. rewrite Z.add_0_r, !app_nil_r. done.
  - apply StronglySorted_cons in Hsorted as [Hm Hsorted].
    apply Forall_cons in Hwf as [Hwfm Hwf].
    apply Forall_cons in Hbehave as [Hbm Hbehave].
    simpl. destruct (Z.leb_spec (Version m) dbVersion) as [Hskip|Happly].
    + rewrite (filter_cons_False (fun m0 => dbVersion < Version m0) m l)
        by (simpl; lia).
      apply IH; try done. intros m' Hm' Hgt. apply Hinv; [by right|done].
    + rewrite (filter_cons_True (fun m0 => dbVersion < Version m0) m l)
        by (simpl; lia).
      destruct (applyOne_quiet m w Hwfm Hbm Hq) as
        (w1 & evs1 & -> & Hled1 & Htr1 & Hmut1 & Hq1 & Hout1 & Herr1).
      { apply Hinv; [by left|done]. }
      set (w2 := Fprint output _ w1).
      destruct (IH (nb + 1) w2 Hsorted Hwf Hbehave) as
        (w' & evs & Hrun & Hled & Htr & Hmut & Hwr & Hq').
      { by destruct output. }
      { intros m' Hm' _.
        replace (ledger (committed w2)) with (ledger (committed w) ++ [Version m])
          by (by destruct output).
        rewrite currentVersion_snoc by (apply Hinv; [by left|done]).
        rewrite Forall_forall in Hm. by apply Hm. }
      exists w', (evs1 ++ evs). cbv zeta in *. rewrite fmap_cons.
      rewrite Hrun. split; [f_equal; f_equal; cbn [length]; lia|].
      replace (ledger (committed w2)) with (ledger (committed w) ++ [Version m]) in Hled
        by (by destruct output).
      replace (trace w2) with (trace w ++ evs1) in Htr by (by destruct output).
      split; [by rewrite Hled, <- app_assoc|].
      split; [by rewrite Htr, <- app_assoc|].
      split; [by rewrite mutations_app, Hmut1, Hmut|].
      split; [|done].
      rewrite Hwr. unfold w2. rewrite written_Fprint.
      rewrite (written_applyOne output w w1) by done.
      rewrite fmap_cons.
      by rewrite <- app_assoc.
Qed.


(** ** Apply-all, nothing failing *)

Lemma runCmdUp_quiet (ms : list Migration) (output : Writer) (w : World) :
  intVersions ms -> validateMigrations ms = None -> upsBehave ms -> faultFree w ->
  exists w' evs,
    let applied :=
      Version <$> filter (fun m => currentVersion (ledger (committed w)) < Version m)
                    (sortMigrationsAsc ms) in
    runCmdUp ms output 0 w = (ret None, w') /\
    ledger (committed w') = ledger (committed w) ++ applied /\
    trace w' = trace w ++ evs /\ mutations evs = applied ≫= appliedEvents /\
    written output w' =
      written output w ++ (appliedLine <$> applied) ++
      [summaryLine (Z.of_nat (length applied))].
Proof.
  intros Hint [Hwf Hnd]%validateMigrations_valid Hbehave Hq.
  assert (Forall (fun m => 0 < Version m) ms) as Hpos.
  { eapply Forall_impl; [exact Hwf|]. by intros m [? _]. }
  unfold runCmdUp. rewrite (getDBVersion_quiet HDB w (committed w)) by done.
  destruct (upLoop_quiet (sortMigrationsAsc ms) (currentVersion (ledger (committed w)))
              output 0 (afterCall EvQueryVersion w))
    as (w1 & evs & Hrun & Hled & Htr & Hmut & Hwr & Hq1).
  { by apply sortMigrationsAsc_sorted. }
  { by rewrite sortMigrationsAsc_perm. }
  { unfold upsBehave. by rewrite sortMigrationsAsc_perm. }
  { by apply faultFree_afterCall. }
  { by intros m _ Hlt. }
  cbv zeta in *. rewrite Hrun. rewrite Z.add_0_l. unfold summaryLine.
  set (applied := Version <$> filter _ (sortMigrationsAsc ms)) in *.
  simpl in Htr, Hled.
  destruct (Z.of_nat (length applied) =? 0);
    eexists _, (EvQueryVersion :: evs); (split; [reflexivity|]);
    (split; [by destruct output|]);
    (split; [destruct output; simpl; by rewrite Htr, <- app_assoc|]);
    (split; [done|]);
    rewrite written_Fprint, Hwr; simpl; destruct output; simpl;
    by rewrite <- app_assoc.
Qed.

Lemma fmap_filter_Version (P : Z -> Prop) `{!forall z, Decision (P z)}
    (l : list Migration) :
  Version <$> filter (fun m => P (Version m)) l = filter P (Version <$> l).
Proof.
  induction l as [|m l IH]; [done|].
  rewrite fmap_cons. destruct (decide (P (Version m))) as [Hp|Hn].
  - rewrite !filter_cons_True by done. by rewrite fmap_cons, IH.
  - by rewrite !filter_cons_False.
Qed.

Lemma filter_Forall_id {A : Type} (P : A -> Prop) `{!forall x, Decision (P x)}
    (l : list A) :
  Forall P l -> filter P l = l.
Proof.
  induction 1 as [|x l Hx Hl IH]; [done|]. by rewrite filter_cons_True, IH.
Qed.

Lemma filter_Forall_nil {A : Type} (P : A -> Prop) `{!forall x, Decision (P x)}
    (l : list A) :
  Forall (fun x => ~ P x) l -> filter P l = [].
Proof.
  induction 1 as [|x l Hx Hl IH]; [done|]. by rewrite filter_cons_False.
Qed.

(** The versions above [V] among [1..N]. *)
Lemma filter_above_seqZ (V N : Z) :
  0 <= V <= N -> filter (fun v => V < v) (seqZ 1 N) = seqZ (V + 1) (N - V).
Proof.
  intros HV. replace N with (V + (N - V)) at 1 by lia.
  rewrite seqZ_app by lia. rewrite filter_app.
  rewrite filter_Forall_nil, filter_Forall_id.
  - by rewrite Z.add_comm.
  - apply Forall_seqZ. intros; lia.
  - apply Forall_seqZ. intros; lia.
Qed.

Lemma StronglySorted_seqZ (m n : Z) : StronglySorted Z.lt (seqZ m n).
Proof.
  destruct (decide (n <= 0)) as [Hn|Hn]; [rewrite seqZ_nil by done; constructor|].
  rewrite <- (Z2Nat.id n) by lia. generalize (Z.to_nat n) as k. clear Hn.
  intros k. revert m. induction k as [|k IH]; intros m.
  - rewrite seqZ_nil by done. constructor.
  - rewrite seqZ_cons by lia. constructor.
    + replace (Z.pred (Z.of_nat (S k))) with (Z.of_nat k) by lia. apply IH.
    + apply Forall_seqZ. intros; lia.
Qed.

(** The ascending sort of a registry with versions [1..N] lists them as
    [1; 2; ...; N]. *)
Lemma sortMigrationsAsc_seqZ (ms : list Migration) (N : Z) :
  intVersions ms -> Version <$> ms ≡ₚ seqZ 1 N ->
  Version <$> sortMigrationsAsc ms = seqZ 1 N.
Proof.
  intros Hint Hperm.
  assert (NoDup (Version <$> ms)) as Hnd.
  { rewrite Hperm. apply NoDup_seqZ. }
  assert (Forall (fun m => 0 < Version m) ms) as Hpos.
  { apply Forall_forall. intros m Hm.
    assert (Version m ∈ seqZ 1 N) as Hin.
    { rewrite <- Hperm. by apply list_elem_of_fmap_2. }
    apply elem_of_seqZ in Hin. lia. }
  apply (StronglySorted_unique_strong Z.lt).
  - intros; lia.
  - apply (StronglySorted_fmap _ (ascending Version)); [done|].
    by apply sortMigrationsAsc_sorted.
  - apply StronglySorted_seqZ.
  - by rewrite sortMigrationsAsc_perm.
Qed.

Lemma currentVersion_lt (l : list Z) (N : Z) :
  0 < N -> Forall (fun x => x < N) l -> currentVersion l < N.
Proof.
  intros HN Hl. destruct l as [|v vs]; simpl; [done|].
  apply Forall_cons in Hl as [Hv Hvs]. revert v Hv.
  induction Hvs as [|x vs Hx Hvs IH]; intros v Hv; simpl; [done|].
  apply IH. lia.
Qed.


(** C1.  A valid registry with versions [1..N], a ledger at version [V]
    with [0 <= V <= N], no failing database call and well-behaved up
    functions: apply-all (limit 0) succeeds, runs the up functions of
    [V+1; ...; N] and of no other version, in ascending order and each
    followed by the insert of its version, which makes [max 0 (N - V)]
    applied migrations, and leaves the ledger at version [N]. *)
Theorem apply_all_reaches_N (ms : list Migration) (N V : Z) (output : Writer)
    (w : World) :
  validateMigrations ms = None ->
  Version <$> ms ≡ₚ seqZ 1 N ->
  N <= int_max ->
  0 <= V <= N ->
  currentVersion (ledger (committed w)) = V ->
  faultFree w ->
  upsBehave ms ->
  exists w' evs,
    runCmdUp ms output 0 w = (ret None, w') /\
    trace w' = trace w ++ evs /\
    mutations evs = seqZ (V + 1) (N - V) ≫= appliedEvents /\
    length (seqZ (V + 1) (N - V)) = Z.to_nat (Z.max 0 (N - V)) /\
    ledger (committed w') = ledger (committed w) ++ seqZ (V + 1) (N - V) /\
    currentVersion (ledger (committed w')) = N /\
    written output w' =
      written output w ++ (appliedLine <$> seqZ (V + 1) (N - V)) ++
      [summaryLine (N - V)].
Proof.
  intros Hvalid Hperm HN HV Hcur Hq Hbehave.
  assert (intVersions ms) as Hint.
  { apply Forall_forall. intros m Hm.
    assert (Version m ∈ seqZ 1 N) as Hin.
    { rewrite <- Hperm. by apply list_elem_of_fmap_2. }
    apply elem_of_seqZ in Hin. unfold in_int, int_min, int_max in *. lia. }
  destruct (runCmdUp_quiet ms output w Hint Hvalid Hbehave Hq)
    as (w' & evs & Hrun & Hled & Htr & Hmut & Hwr).
  cbv zeta in *. rewrite Hcur in *.
  rewrite (fmap_filter_Version (fun v => V < v)) in *.
  rewrite (sortMigrationsAsc_seqZ ms N Hint Hperm) in *.
  rewrite (filter_above_seqZ V N HV) in *.
  exists w', evs. split; [done|]. split; [done|]. split; [done|].
  split; [rewrite length_seqZ; f_equal; lia|]. split; [done|]. split.
  - rewrite Hled. destruct (decide (V = N)) as [->|Hne].
    + rewrite Z.sub_diag, seqZ_nil, app_nil_r by done. done.
    + replace (N - V) with (Z.of_nat (S (Z.to_nat (N - V - 1)))) by lia.
      rewrite seqZ_S, app_assoc.
      replace (V + 1 + Z.of_nat (Z.to_nat (N - V - 1))) with N by lia.
      apply currentVersion_snoc, currentVersion_lt; [lia|].
      apply Forall_app. split.
      * apply Forall_forall. intros x Hx%currentVersion_ge. lia.
      * apply Forall_seqZ. intros; lia.
  - rewrite Hwr. do 4 f_equal. rewrite length_seqZ. lia.
Qed.

(** ** Nothing to apply, negative limits *)

Lemma upLoop_skip (l : list Migration) (dbVersion : Z) (output : Writer)
    (limit nb : Z) (w : World) :
  Forall (fun m => Version m <= dbVersion) l ->
  upLoop l dbVersion output limit nb w = (ret None, nb, w).
Proof.
  induction 1 as [|m l Hm Hl IH]; simpl; [done|].
  destruct (Z.leb_spec (Version m) dbVersion); [done|lia].
Qed.

(** C7.  When every version of the registry is at most the ledger's current
    version, apply-all makes the one query that reads the version and nothing
    else: no function of a migration runs, nothing is inserted or deleted,
    the database is unchanged; and when that read succeeds the run ends well
    after writing the line "No migrations to apply", and only that line. *)
Theorem apply_all_nothing_to_do (ms : list Migration) (output : Writer) (w : World) :
  Forall (fun m => Version m <= currentVersion (ledger (committed w))) ms ->
  exists res w',
    runCmdUp ms output 0 w = (res, w') /\
    trace w' = trace w ++ [EvQueryVersion] /\
    committed w' = committed w /\ pending w' = pending w /\
    (rereads HDB w (currentVersion (ledger (committed w))) ->
       res = ret None /\
       w' = Fprint output ("No migrations to apply" +:+ nl)
              (afterCall EvQueryVersion w)).
Proof.
  intros Hall. unfold runCmdUp.
  pose proof (getDBVersion_snd HDB w) as Hsnd.
  destruct (getDBVersion HDB w) as [[dbVersion [e|]] w1] eqn:Hget;
    simpl in Hsnd; subst w1.
  - eexists _, _. split; [done|]. split; [done|]. split; [done|]. split; [done|].
    unfold rereads. rewrite Hget. simpl. congruence.
  - assert (dbVersion = currentVersion (ledger (committed w))) as ->.
    { revert Hget. unfold getDBVersion, queryDBVersion, nextFault. simpl.
      destruct (oracle w) as [|[?|] ?]; simpl; congruence. }
    rewrite upLoop_skip by (by rewrite sortMigrationsAsc_perm).
    simpl. eexists _, _. split; [done|].
    split; [by destruct output|]. split; [by destruct output|].
    split; [by destruct output|]. done.
Qed.

Lemma upLoop_nonpositive_limit (l : list Migration) (dbVersion : Z)
    (output : Writer) (limit nb : Z) (w : World) :
  limit <= 0 ->
  upLoop l dbVersion output limit nb w = upLoop l dbVersion output 0 nb w.
Proof.
  intros Hlimit. revert nb w. induction l as [|m l IH]; intros nb w; simpl; [done|].
  destruct (Version m <=? dbVersion); [done|].
  destruct (applyOne m w) as [[[e|]|] w1]; try done.
  replace (0 <? limit) with false by (symmetry; apply Z.ltb_ge; lia).
  simpl. apply IH.
Qed.

(** C9.  A negative limit is no limit: the run is the one of limit 0, with
    the same result, the same database and the same output.  The test that
    stops the loop needs [limit > 0]. *)
Theorem negative_limit_is_unlimited (ms : list Migration) (output : Writer)
    (limit : Z) (w : World) :
  limit < 0 ->
  runCmdUp ms output limit w = runCmdUp ms output 0 w.
Proof.
  intros Hneg. unfold runCmdUp.
  destruct (getDBVersion HDB w) as [[dbVersion [e|]] w1]; [done|].
  by rewrite upLoop_nonpositive_limit by lia.
Qed.


(** ** Rollback, nothing failing *)

Lemma rollbackOne_quiet (m : Migration) (w : World) :
  wellFormed m -> (forall a, downAction m = Some a -> wellBehaved a) ->
  faultFree w -> Version m <= currentVersion (ledger (committed w)) ->
  exists w' evs,
    rollbackOne m w = (ret None, w') /\
    ledger (committed w') =
      filter (fun v => v ≠ Version m) (ledger (committed w)) /\
    trace w' = trace w ++ evs /\ mutations evs = rolledBackEvents (Version m) /\
    stdout w' = stdout w /\ stderr w' = stderr w.
Proof.
  intros [_ Hmode] Hbehave Hq Hle. unfold rollbackOne, downAction, modeOf in *.
  destruct Hmode as [(up & down & Hm1 & Hm2)|(up & down & Hm1 & Hm2)];
    rewrite Hm1, ?Hm2 in *; simpl in Hbehave; specialize (Hbehave down eq_refl); simpl.
  - unfold executeInTx. rewrite BeginTx_quiet by done.
    erewrite migrateDown_quiet; [| |reflexivity|exact Hle|exact Hbehave].
    2:{ by apply faultFree_afterCall. }
    erewrite Commit_quiet; [| |reflexivity].
    2:{ quiet_oracle Hq. }
    eexists _, [EvBeginTx; EvQueryVersion; EvDown (Version m); EvDelete (Version m);
                EvCommit].
    split; [reflexivity|]. simpl. rewrite <- !app_assoc. done.
  - unfold executeNoTx.
    erewrite migrateDown_quiet; [|exact Hq|reflexivity|exact Hle|exact Hbehave].
    eexists _, [EvQueryVersion; EvDown (Version m); EvDelete (Version m)].
    split; [reflexivity|]. simpl. rewrite <- !app_assoc. done.
Qed.

Lemma downLoop_skip (l1 l2 : list Migration) (dbVersion : Z) (output : Writer)
    (w : World) :
  Forall (fun m => dbVersion < Version m) l1 ->
  downLoop (l1 ++ l2) dbVersion output w = downLoop l2 dbVersion output w.
Proof.
  induction 1 as [|m l Hm Hl IH]; simpl; [done|].
  destruct (Z.gtb_spec (Version m) dbVersion); [done|lia].
Qed.

(** C5.  A valid registry, no failing database call, well-behaved down
    functions, a ledger at version [V].  If [V > 0] and [c] is the highest
    version of the registry that is at most [V], rollback-one runs the down
    function of [c], then deletes [c] from the ledger, and does this for no
    other version; it reports the rolled back version and returns.  If
    [V = 0], or no version of the registry is at most [V], it makes the one
    query of the version, changes nothing and reports "No migrations to roll
    back". *)
Theorem rollback_one_step (ms : list Migration) (V : Z) (output : Writer)
    (w : World) :
  intVersions ms -> validateMigrations ms = None -> downsBehave ms ->
  faultFree w -> currentVersion (ledger (committed w)) = V ->
  (forall c, 0 < V -> c ∈ Version <$> ms -> c <= V ->
     (forall c', c' ∈ Version <$> ms -> c' <= V -> c' <= c) ->
     exists w' evs,
       runCmdDown ms output w = (ret None, w') /\
       trace w' = trace w ++ evs /\ mutations evs = rolledBackEvents c /\
       ledger (committed w') = filter (fun v => v ≠ c) (ledger (committed w)) /\
       written output w' = written output w ++ [rolledBackLine c]) /\
  ((V = 0 \/ Forall (fun m => V < Version m) ms) ->
     runCmdDown ms output w =
       (ret None,
        Fprint output ("No migrations to roll back" +:+ nl)
          (afterCall EvQueryVersion w))).
Proof.
  intros Hint Hvalid Hbehave Hq Hcur.
  destruct (validateMigrations_valid ms Hvalid) as [Hwf Hnd].
  assert (Forall (fun m => 0 < Version m) ms) as Hpos.
  { eapply Forall_impl; [exact Hwf|]. by intros m [? _]. }
  unfold runCmdDown. rewrite (getDBVersion_quiet HDB w (committed w)) by done.
  rewrite Hcur. split.
  - intros c HV (m & -> & Hm)%list_elem_of_fmap Hle Hmax.
    assert (m ∈ sortMigrationsDesc ms) as Hin by (by rewrite sortMigrationsDesc_perm).
    apply list_elem_of_split in Hin as (l1 & l2 & Hsplit).
    pose proof (sortMigrationsDesc_sorted ms Hint Hpos Hnd) as Hsorted.
    rewrite Hsplit in Hsorted |- *.
    rewrite downLoop_skip.
    2:{ apply Forall_forall. intros m1 Hm1.
        assert (Version m < Version m1) as Hlt.
        { apply (StronglySorted_app_1_elem_of _ _ _ _ _ Hsorted Hm1). by left. }
        destruct (decide (Version m1 <= V)) as [Hle1|]; [|lia].
        assert (Version m1 ∈ Version <$> ms) as Hin1.
        { apply list_elem_of_fmap_2. rewrite <- sortMigrationsDesc_perm, Hsplit.
          apply elem_of_app. by left. }
        specialize (Hmax _ Hin1 Hle1). lia. }
    simpl. destruct (Z.gtb_spec (Version m) V) as [?|_]; [lia|].
    rewrite Forall_forall in Hwf. unfold downsBehave in Hbehave.
    rewrite Forall_forall in Hbehave.
    destruct (rollbackOne_quiet m (afterCall EvQueryVersion w))
      as (w1 & evs & -> & Hled & Htr & Hmut & Hout & Herr).
    { by apply Hwf. }
    { by apply Hbehave. }
    { by apply faultFree_afterCall. }
    { simpl. lia. }
    eexists _, (EvQueryVersion :: evs). split; [reflexivity|].
    simpl in Htr, Hled.
    split; [destruct output; simpl; by rewrite Htr, <- app_assoc|].
    split; [done|]. split; [by destruct output|].
    rewrite written_Fprint. f_equal. by destruct output.
  - intros Hnone.
    assert (Forall (fun m => V < Version m) (sortMigrationsDesc ms)) as Hall.
    { rewrite sortMigrationsDesc_perm. destruct Hnone as [->|Hall]; done. }
    rewrite <- (app_nil_r (sortMigrationsDesc ms)).
    by rewrite downLoop_skip.
Qed.


(** ** What a transaction cannot touch *)

(** Inside a transaction nothing reaches the committed store, and no
    executor writes to the outputs. *)
Lemma migrate_frame (d : Direction) (version : Z) (f : option Action)
    (h : Handle) (w : World) :
  sameOutputs w (snd (migrate d version f h w)) /\
  (h = HTX -> committed (snd (migrate d version f h w)) = committed w).
Proof.
  unfold sameOutputs.
  destruct d; unfold migrate, migrateUp, migrateDown, getDBVersion, queryDBVersion,
    insertDBVersion, execInsertVersion, deleteDBVersion, execDeleteVersion,
    callAction, nextFault, readStore, writeStore;
    destruct h; simpl; repeat (case_match; simpl; simplify_eq); done.
Qed.

Lemma BeginTx_committed (w : World) (r : option error) (w1 : World) :
  BeginTx w = (r, w1) -> committed w1 = committed w /\ sameOutputs w w1.
Proof.
  unfold BeginTx, nextFault, sameOutputs. simpl.
  repeat case_match; intros; simplify_eq; done.
Qed.

Lemma Rollback_world (w : World) :
  trace (snd (Rollback w)) = trace w ++ [EvRollback] /\
  committed (snd (Rollback w)) = committed w /\
  pending (snd (Rollback w)) = None /\
  sameOutputs w (snd (Rollback w)).
Proof. done. Qed.

Lemma Commit_failed (w : World) (e : error) (w' : World) :
  Commit w = (Some e, w') -> committed w' = committed w /\ sameOutputs w w'.
Proof.
  unfold Commit, nextFault, sameOutputs. simpl.
  repeat case_match; intros; simplify_eq; done.
Qed.

(** An execution in a transaction that does not end well leaves the
    committed store as it found it. *)
Lemma executeInTx_failed (d : Direction) (version : Z) (f : option Action)
    (w : World) (e : error) (w' : World) :
  executeInTx (migrate d version f) w = (ret (Some e), w') ->
  committed w' = committed w.
Proof.
  unfold executeInTx.
  destruct (BeginTx w) as [[be|] w1] eqn:Hbegin;
    apply BeginTx_committed in Hbegin as [Hc1 _].
  - intros; simplify_eq. done.
  - pose proof (migrate_frame d version f HTX w1) as [_ Hc2].
    specialize (Hc2 eq_refl).
    destruct (migrate d version f HTX w1) as [[[e2|]|] w2]; simpl in Hc2.
    + unfold Rollback, nextFault. simpl. intros; simplify_eq. simpl. congruence.
    + destruct (Commit w2) as [[ce|] w3] eqn:Hcommit; [|done].
      apply Commit_failed in Hcommit as [Hc3 _].
      intros; simplify_eq. congruence.
    + done.
Qed.

Lemma executeInTx_outputs (fn : Handle -> World -> outcome * World) (w : World) :
  (forall w1, sameOutputs w1 (snd (fn HTX w1))) ->
  sameOutputs w (snd (executeInTx fn w)).
Proof.
  intros Hfn. unfold executeInTx.
  destruct (BeginTx w) as [[be|] w1] eqn:Hbegin;
    apply BeginTx_committed in Hbegin as [_ Ho1]; [done|].
  specialize (Hfn w1). destruct (fn HTX w1) as [[[e2|]|] w2]; simpl in Hfn.
  - unfold sameOutputs in *. simpl. intuition congruence.
  - unfold Commit, nextFault. unfold sameOutputs in *.
    repeat case_match; simplify_eq; simpl; intuition congruence.
  - unfold sameOutputs in *. simpl. intuition congruence.
Qed.

Lemma applyOne_outputs (m : Migration) (w : World) :
  sameOutputs w (snd (applyOne m w)).
Proof.
  unfold applyOne. destruct (mUpDown m) as [ud|].
  - pose proof (executeInTx_outputs (migrate Upward (Version m) (Up ud)) w
                  (fun w1 => proj1 (migrate_frame Upward _ _ HTX w1))) as Ho.
    simpl in Ho. by destruct (executeInTx _ w) as [[[e|]|] w1].
  - destruct (mUpDownNoTX m) as [ud|]; [|done].
    pose proof (proj1 (migrate_frame Upward (Version m) (Up ud) HDB w)) as Ho.
    unfold executeNoTx. simpl in Ho.
    by destruct (migrateUp (Version m) (Up ud) HDB w) as [[[e|]|] w1].
Qed.

Lemma upLoop_app (l1 l2 : list Migration) (dbVersion : Z) (output : Writer)
    (nb : Z) (w : World) :
  upLoop (l1 ++ l2) dbVersion output 0 nb w =
  match upLoop l1 dbVersion output 0 nb w with
  | (ret None, nb1, w1) => upLoop l2 dbVersion output 0 nb1 w1
  | r => r
  end.
Proof.
  revert nb w. induction l1 as [|m l1 IH]; intros nb w; simpl; [done|].
  destruct (Version m <=? dbVersion); [apply IH|].
  destruct (applyOne m w) as [[[e|]|] w1]; done.
Qed.


Lemma BeginTx_ok (w w1 : World) :
  BeginTx w = (None, w1) ->
  w1 = setPending (Some (committed w)) (afterCall EvBeginTx w).
Proof.
  unfold BeginTx, nextFault, afterCall. simpl.
  case_match; intros; by simplify_eq.
Qed.

Lemma errDBVersionChanged_Is (d : Direction) (pre post : string) :
  errors_Is (fmt_Errorf pre (errDBVersionChanged d) post) (errDBVersionChanged d) = true.
Proof. by destruct d. Qed.

(** C2, as the code has it.  A candidate is aborted when the re-read has
    reached its version (up: [version <= reread]) or dropped below it (down:
    [version > reread]); a re-read that merely differs from the version the
    candidate was selected against aborts nothing.  When the guard trips the
    execution returns the conflict error; in transactional mode the
    transaction is rolled back, with no function of the migration run, no row
    written to the ledger and nothing committed; without a transaction the
    one query of the re-read is all that happened. *)
Theorem guard_abort_commits_nothing (d : Direction) (version r : Z)
    (f : option Action) (w : World) :
  guardTrips d version r ->
  (forall w1, BeginTx w = (None, w1) -> rereads HTX w1 r ->
     exists e w',
       executeInTx (migrate d version f) w = (ret (Some e), w') /\
       errors_Is e (errDBVersionChanged d) = true /\
       trace w' = trace w ++ [EvBeginTx; EvQueryVersion; EvRollback] /\
       committed w' = committed w /\ pending w' = None) /\
  (rereads HDB w r ->
     exists e w',
       executeNoTx (migrate d version f) w = (ret (Some e), w') /\
       errors_Is e (errDBVersionChanged d) = true /\
       trace w' = trace w ++ [EvQueryVersion] /\
       committed w' = committed w /\ pending w' = pending w).
Proof.
  intros Hguard. split.
  - intros w1 Hbegin Hr%rereads_inv. unfold executeInTx. rewrite Hbegin.
    apply BeginTx_ok in Hbegin as ->.
    destruct d; simpl in Hguard; unfold migrate, migrateUp, migrateDown; rewrite Hr.
    + destruct (Z.leb_spec version r) as [_|?]; [|lia].
      eexists _, _. split; [reflexivity|]. split; [done|].
      simpl. by rewrite <- !app_assoc.
    + destruct (Z.gtb_spec version r) as [_|?]; [|lia].
      eexists _, _. split; [reflexivity|]. split; [done|].
      simpl. by rewrite <- !app_assoc.
  - intros Hr%rereads_inv. unfold executeNoTx.
    destruct d; simpl in Hguard; unfold migrate, migrateUp, migrateDown; rewrite Hr.
    + destruct (Z.leb_spec version r) as [_|?]; [|lia].
      eexists _, _. split; [reflexivity|]. done.
    + destruct (Z.gtb_spec version r) as [_|?]; [|lia].
      eexists _, _. split; [reflexivity|]. done.
Qed.

(** C4.  A transactional execution whose body fails (the guard, the
    migration's function or the write to the ledger) calls [Rollback],
    returns the error of the body whatever [Rollback] returned, and leaves
    the committed database as it was.  When the body ends well and [Commit]
    fails, the error of [Commit] is returned and nothing is committed.  In
    apply-all the first migration that fails ends the run with its error:
    no later migration is tried, and the database is the one the migrations
    applied before it left behind. *)
Theorem transactional_failure :
  (forall (d : Direction) (version : Z) (f : option Action) (w w1 w2 : World)
          (e : error),
     BeginTx w = (None, w1) ->
     migrate d version f HTX w1 = (ret (Some e), w2) ->
     executeInTx (migrate d version f) w =
       (ret (Some (fmt_Errorf "failed to execute in transaction: " e "")),
        snd (Rollback w2)) /\
     trace (snd (Rollback w2)) = trace w2 ++ [EvRollback] /\
     pending (snd (Rollback w2)) = None /\
     committed (snd (Rollback w2)) = committed w) /\
  (forall (d : Direction) (version : Z) (f : option Action) (w w1 w2 w3 : World)
          (e : error),
     BeginTx w = (None, w1) ->
     migrate d version f HTX w1 = (ret None, w2) ->
     Commit w2 = (Some e, w3) ->
     executeInTx (migrate d version f) w =
       (ret (Some (fmt_Errorf "failed to commit transaction: " e "")), w3) /\
     committed w3 = committed w) /\
  (forall (ms l1 l2 : list Migration) (m : Migration) (output : Writer)
          (dbVersion nb1 : Z) (w w0 w1 w2 : World) (e : error),
     sortMigrationsAsc ms = l1 ++ m :: l2 ->
     getDBVersion HDB w = ((dbVersion, None), w0) ->
     upLoop l1 dbVersion output 0 0 w0 = (ret None, nb1, w1) ->
     dbVersion < Version m ->
     applyOne m w1 = (ret (Some e), w2) ->
     runCmdUp ms output 0 w = (ret (Some e), w2) /\
     (mUpDown m <> None -> committed w2 = committed w1) /\
     written output w2 = written output w1).
Proof.
  split; [|split].
  - intros d version f w w1 w2 e Hbegin Hbody.
    unfold executeInTx. rewrite Hbegin, Hbody. split; [done|].
    apply BeginTx_committed in Hbegin as [Hc1 _].
    pose proof (migrate_frame d version f HTX w1) as [_ Hc2].
    rewrite Hbody in Hc2. simpl in Hc2. simpl.
    split; [done|]. split; [done|]. by rewrite Hc2.
  - intros d version f w w1 w2 w3 e Hbegin Hbody Hcommit.
    unfold executeInTx. rewrite Hbegin, Hbody, Hcommit. split; [done|].
    apply BeginTx_committed in Hbegin as [Hc1 _].
    pose proof (migrate_frame d version f HTX w1) as [_ Hc2].
    rewrite Hbody in Hc2. simpl in Hc2.
    apply Commit_failed in Hcommit as [Hc3 _].
    rewrite Hc3, Hc2 by done. done.
  - intros ms l1 l2 m output dbVersion nb1 w w0 w1 w2 e Hsort Hget Hpre Hlt Hfail.
    split; [|split].
    + unfold runCmdUp. rewrite Hget, Hsort, upLoop_app, Hpre. simpl.
      destruct (Z.leb_spec (Version m) dbVersion); [lia|]. by rewrite Hfail.
    + intros Htx. unfold applyOne in Hfail.
      destruct (mUpDown m) as [ud|]; [|done].
      destruct (executeInTx (migrateUp (Version m) (Up ud)) w1)
        as [[[e'|]|] w'] eqn:Hexec; simplify_eq.
      by apply (executeInTx_failed Upward) in Hexec.
    + pose proof (applyOne_outputs m w1) as (Hout & Herr & _).
      rewrite Hfail in Hout, Herr. simpl in *. by destruct output.
Qed.

(** * Further properties of the code *)

(** ** The registries that validation accepts *)

Lemma omap_nil_Forall {A B : Type} (f : A -> option B) (l : list A) :
  omap f l = [] <-> Forall (fun x => f x = None) l.
Proof.
  induction l as [|x l IH]; simpl.
  - split; [constructor|done].
  - destruct (f x) eqn:Hfx; simpl.
    + split; [done|]. intros [Hx _]%Forall_cons. congruence.
    + rewrite IH. split; [by constructor|]. by intros [_ ?]%Forall_cons.
Qed.

Lemma occurrences_absent (v : Z) (ms : list Migration) :
  v ∉ Version <$> ms -> occurrences v ms = 0%nat.
Proof.
  intros Hnot. destruct (occurrences v ms) eqn:Hocc; [done|]. exfalso.
  apply Hnot. unfold occurrences in Hocc.
  destruct (filter (fun m => Version m = v) ms) as [|m l] eqn:Hf; [done|].
  assert (m ∈ filter (fun m => Version m = v) ms) as Hin by (rewrite Hf; left).
  apply list_elem_of_filter in Hin as [<- Hin]. by apply list_elem_of_fmap_2.
Qed.

Lemma NoDup_occurrences (ms : list Migration) (v : Z) :
  NoDup (Version <$> ms) -> (occurrences v ms <= 1)%nat.
Proof.
  induction ms as [|m ms IH]; [intros _; unfold occurrences; simpl; lia|].
  rewrite fmap_cons. intros [Hnot Hnd]%NoDup_cons. unfold occurrences in *.
  rewrite filter_cons. destruct (decide (Version m = v)) as [<-|_]; [|by apply IH].
  pose proof (occurrences_absent _ _ Hnot) as Hz. unfold occurrences in Hz.
  simpl. lia.
Qed.

Lemma validateMigrations_of_valid (ms : list Migration) :
  Forall wellFormed ms -> NoDup (Version <$> ms) -> validateMigrations ms = None.
Proof.
  intros Hwf Hnd. apply validateMigrations_None. unfold allValidationErrs.
  apply app_nil. split.
  - apply omap_nil_Forall. eapply Forall_impl; [exact Hwf|].
    intros m Hm%validate_None. by rewrite Hm.
  - apply omap_nil_Forall. apply Forall_forall. intros [v c] Hin.
    apply elem_of_map_to_list in Hin. rewrite countVersions_lookup in Hin.
    destruct (decide _); [done|]. injection Hin as <-.
    pose proof (NoDup_occurrences ms v Hnd) as Hle.
    destruct (Nat.ltb_spec 1 (occurrences v ms)); [lia|done].
Qed.

(** X1.  [validateMigrations] returns nil exactly on the registries in which
    every migration has a positive version and exactly one mode with both of
    its functions, and no two migrations share a version. *)
Theorem validateMigrations_accepts_iff (ms : list Migration) :
  validateMigrations ms = None <->
  Forall wellFormed ms /\ NoDup (Version <$> ms).
Proof.
  split; [apply validateMigrations_valid|].
  intros [Hwf Hnd]. by apply validateMigrations_of_valid.
Qed.

(** ** The order of the registry *)

Lemma sortMigrationsAsc_canonical (ms ms' : list Migration) :
  intVersions ms -> Forall (fun m => 0 < Version m) ms -> NoDup (Version <$> ms) ->
  ms ≡ₚ ms' -> sortMigrationsAsc ms = sortMigrationsAsc ms'.
Proof.
  intros Hint Hpos Hnd Hperm. apply (sorted_perm_unique Version).
  - by apply sortMigrationsAsc_sorted.
  - apply sortMigrationsAsc_sorted.
    + unfold intVersions. by rewrite <- Hperm.
    + by rewrite <- Hperm.
    + by rewrite <- Hperm.
  - by rewrite !sortMigrationsAsc_perm.
Qed.

Lemma sortMigrationsDesc_canonical (ms ms' : list Migration) :
  intVersions ms -> Forall (fun m => 0 < Version m) ms -> NoDup (Version <$> ms) ->
  ms ≡ₚ ms' -> sortMigrationsDesc ms = sortMigrationsDesc ms'.
Proof.
  intros Hint Hpos Hnd Hperm.
  rewrite (sortMigrationsDesc_rev ms), (sortMigrationsDesc_rev ms'); try done.
  - f_equal. by apply sortMigrationsAsc_canonical.
  - unfold intVersions. by rewrite <- Hperm.
  - by rewrite <- Hperm.
  - by rewrite <- Hperm.
Qed.

(** X2.  The order in which a valid registry lists its migrations does not
    matter: a reordered registry is valid too, and apply (with any limit),
    rollback and status do on it exactly what they do on the original, in
    every state of the database and whatever fails. *)
Theorem registry_order_is_irrelevant (ms ms' : list Migration) (output : Writer)
    (limit : Z) (w : World) :
  intVersions ms -> validateMigrations ms = None -> ms ≡ₚ ms' ->
  validateMigrations ms' = None /\
  runCmdUp ms' output limit w = runCmdUp ms output limit w /\
  runCmdDown ms' output w = runCmdDown ms output w /\
  runCmdStatus ms' output w = runCmdStatus ms output w.
Proof.
  intros Hint [Hwf Hnd]%validateMigrations_valid Hperm.
  assert (Forall (fun m => 0 < Version m) ms) as Hpos.
  { eapply Forall_impl; [exact Hwf|]. by intros m [? _]. }
  split.
  - apply validateMigrations_of_valid; by rewrite <- Hperm.
  - unfold runCmdUp, runCmdDown, runCmdStatus.
    by rewrite (sortMigrationsAsc_canonical ms ms'),
               (sortMigrationsDesc_canonical ms ms').
Qed.

(** ** The command line and the constructor *)

(** X3.  [parseArgs] accepts exactly the argument lists made of a URL and
    one of the five commands, and returns the two as they are; on any other
    list it returns two empty strings beside the error. *)
Theorem parseArgs_accepts_iff (args : list string) (url command : string) :
  (parseArgs args = (url, command, None) <->
   args = [url; command] /\ command ∈ allCommands) /\
  (forall e, parseArgs args = (url, command, Some e) ->
     url = EmptyString /\ command = EmptyString).
Proof.
  unfold parseArgs. split; [split|].
  - destruct args as [|a [|b [|c rest]]]; try done.
    case_bool_decide as Hin; [|done].
    intros; by simplify_eq.
  - intros [-> Hin]. by rewrite bool_decide_eq_true_2.
  - intros e. destruct args as [|a [|b [|c rest]]]; try (intros; by simplify_eq).
    destruct (bool_decide (b ∈ allCommands)); intros; by simplify_eq.
Qed.

(** X4.  [newGosmig] returns a tool exactly when the slice of migrations is
    not empty, the five function and writer arguments are not nil and the
    registry passes [validateMigrations]; a nil [config] is accepted.  It
    returns either the tool or an error, never both and never neither. *)
Theorem newGosmig_builds_iff (ms : list Migration)
    (connectToDB : option ConnectFn) (config : option Config)
    (getArgs : option (unit -> list string))
    (osExit : option (Z -> World -> World)) (out errOut : option Writer) :
  (is_Some (fst (newGosmig ms connectToDB config getArgs osExit out errOut)) <->
   ms <> [] /\ is_Some connectToDB /\ is_Some getArgs /\ is_Some osExit /\
   is_Some out /\ is_Some errOut /\ validateMigrations ms = None) /\
  (is_Some (fst (newGosmig ms connectToDB config getArgs osExit out errOut)) <->
   snd (newGosmig ms connectToDB config getArgs osExit out errOut) = None).
Proof.
  unfold newGosmig.
  destruct ms as [|m ms], connectToDB, getArgs, osExit, out, errOut; simpl;
    try destruct (validateMigrations (m :: ms)) eqn:Hv; simpl;
    split; split; intros; destruct_and?;
    repeat match goal with
           | H : is_Some None |- _ => destruct H as [? ?]
           end;
    simplify_eq; try done; eauto 10.
Qed.

(** ** No panic after validation *)

Lemma migrate_no_panic (d : Direction) (version : Z) (a : Action) (h : Handle)
    (w : World) :
  fst (migrate d version (Some a) h w) <> panic.
Proof.
  destruct d; unfold migrate, migrateUp, migrateDown;
    repeat (case_match; simpl); done.
Qed.

Lemma executeInTx_no_panic (fn : Handle -> World -> outcome * World) (w : World) :
  (forall w1, fst (fn HTX w1) <> panic) -> fst (executeInTx fn w) <> panic.
Proof.
  intros Hfn. unfold executeInTx.
  destruct (BeginTx w) as [[e|] w1]; [done|].
  specialize (Hfn w1). destruct (fn HTX w1) as [[[e|]|] w2]; simpl in *; try done.
  destruct (Commit w2) as [[?|] ?]; simpl; done.
Qed.

Lemma applyOne_no_panic (m : Migration) (w : World) :
  wellFormed m -> fst (applyOne m w) <> panic.
Proof.
  intros [_ [(up & down & Hm1 & Hm2)|(up & down & Hm1 & Hm2)]];
    unfold applyOne; rewrite Hm1, ?Hm2; simpl.
  - pose proof (executeInTx_no_panic (migrate Upward (Version m) (Some up)) w
                  (migrate_no_panic Upward _ up HTX)) as Hp. simpl in Hp.
    destruct (executeInTx _ w) as [[[?|]|] ?]; simpl; done.
  - pose proof (migrate_no_panic Upward (Version m) up HDB w) as Hp.
    unfold executeNoTx. simpl in Hp.
    destruct (migrateUp _ _ HDB w) as [[[?|]|] ?]; simpl; done.
Qed.

Lemma rollbackOne_no_panic (m : Migration) (w : World) :
  wellFormed m -> fst (rollbackOne m w) <> panic.
Proof.
  intros [_ [(up & down & Hm1 & Hm2)|(up & down & Hm1 & Hm2)]];
    unfold rollbackOne; rewrite Hm1, ?Hm2; simpl.
  - pose proof (executeInTx_no_panic (migrate Downward (Version m) (Some down)) w
                  (migrate_no_panic Downward _ down HTX)) as Hp. simpl in Hp.
    destruct (executeInTx _ w) as [[[?|]|] ?]; simpl; done.
  - pose proof (migrate_no_panic Downward (Version m) down HDB w) as Hp.
    unfold executeNoTx. simpl in Hp.
    destruct (migrateDown _ _ HDB w) as [[[?|]|] ?]; simpl; done.
Qed.

Lemma upLoop_no_panic (l : list Migration) (dbVersion : Z) (output : Writer)
    (limit nb : Z) (w : World) :
  Forall wellFormed l -> fst (fst (upLoop l dbVersion output limit nb w)) <> panic.
Proof.
  intros Hwf. revert nb w. induction Hwf as [|m l Hm Hl IH]; intros nb w; simpl; [done|].
  destruct (Version m <=? dbVersion); [apply IH|].
  pose proof (applyOne_no_panic m w Hm) as Hp.
  destruct (applyOne m w) as [[[e|]|] w1]; simpl in *; try done.
  destruct ((0 <? limit) && (nb + 1 =? limit)); [done|apply IH].
Qed.

Lemma runCmdUp_no_panic (ms : list Migration) (output : Writer) (limit : Z)
    (w : World) :
  Forall wellFormed ms -> fst (runCmdUp ms output limit w) <> panic.
Proof.
  intros Hwf. unfold runCmdUp.
  destruct (getDBVersion HDB w) as [[dbVersion [e|]] w1]; [done|].
  pose proof (upLoop_no_panic (sortMigrationsAsc ms) dbVersion output limit 0 w1) as Hp.
  destruct (upLoop _ _ _ _ _ _) as [[[[e|]|] nb] w2]; simpl in *.
  - done.
  - destruct (nb =? 0); simpl; done.
  - intros _. apply Hp; [by rewrite sortMigrationsAsc_perm|done].
Qed.

Lemma downLoop_no_panic (l : list Migration) (dbVersion : Z) (output : Writer)
    (w : World) :
  Forall wellFormed l -> fst (downLoop l dbVersion output w) <> panic.
Proof.
  induction 1 as [|m l Hm Hl IH]; simpl; [done|].
  destruct (Version m >? dbVersion); [apply IH|].
  pose proof (rollbackOne_no_panic m w Hm) as Hp.
  destruct (rollbackOne m w) as [[[e|]|] w1]; simpl; done.
Qed.

Lemma runCmdDown_no_panic (ms : list Migration) (output : Writer) (w : World) :
  Forall wellFormed ms -> fst (runCmdDown ms output w) <> panic.
Proof.
  intros Hwf. unfold runCmdDown.
  destruct (getDBVersion HDB w) as [[dbVersion [e|]] w1]; [done|].
  apply downLoop_no_panic. by rewrite sortMigrationsDesc_perm.
Qed.

Lemma runTool_returns (ms : list Migration) (connectToDB : ConnectFn)
    (config : Config) (getArgs : unit -> list string)
    (osExit : Z -> World -> World) (out errOut : Writer) (w : World) :
  Forall wellFormed ms ->
  fst (runTool ms connectToDB config getArgs osExit out errOut w) = ret None.
Proof.
  intros Hwf. unfold runTool.
  destruct (parseArgs _) as [[url command] [?|]]; [done|].
  destruct (connectToDB url (Timeout config) w) as [[?|] wc]; [done|].
  destruct (createMigrationsTableIfNotExists HDB wc) as [[?|] wt].
  { destruct (Close _) as [[?|] ?]; simpl; done. }
  pose proof (runCmdUp_no_panic ms) as Hup.
  pose proof (runCmdDown_no_panic ms) as Hdown.
  unfold dispatch.
  repeat case_bool_decide;
    match goal with
    | |- context [runCmdUp ?a ?b ?c ?d] =>
        specialize (Hup b c d Hwf); destruct (runCmdUp a b c d) as [[[?|]|] ?]
    | |- context [runCmdDown ?a ?b ?c] =>
        specialize (Hdown b c Hwf); destruct (runCmdDown a b c) as [[[?|]|] ?]
    | |- context [runCmdStatus ?a ?b ?c] =>
        unfold runCmdStatus; destruct (getDBVersion HDB c) as [[? [?|]] ?]
    | |- context [runCmdVersion ?a ?b ?c] =>
        unfold runCmdVersion; destruct (getDBVersion a c) as [[? [?|]] ?]
    | _ => idtac
    end; simpl in *; try done;
    repeat case_match; simpl; done.
Qed.

(** X5.  A tool that [newGosmig] agreed to build never panics: whatever the
    arguments, the state of the database and the failures of its calls, the
    function returns.  The nil dereferences that [runCmdUp] and [runCmdDown]
    can run into are all excluded by the validation of the constructor. *)
Theorem built_tool_never_panics (ms : list Migration)
    (connectToDB : option ConnectFn) (config : option Config)
    (getArgs : option (unit -> list string))
    (osExit : option (Z -> World -> World)) (out errOut : option Writer)
    (run : World -> outcome * World) :
  newGosmig ms connectToDB config getArgs osExit out errOut = (Some run, None) ->
  forall w, fst (run w) = ret None.
Proof.
  unfold newGosmig. intros Hbuild w.
  repeat (case_match; simplify_eq);
    apply runTool_returns; by apply validateMigrations_valid.
Qed.

(** ** What a run can call and write, whatever fails *)

Lemma migrate_events (d : Direction) (version : Z) (f : option Action)
    (h : Handle) (w : World) :
  exists evs,
    trace (snd (migrate d version f h w)) = trace w ++ evs /\
    mutations evs `prefix_of` directionEvents d version /\
    (fst (migrate d version f h w) = ret None ->
     mutations evs = directionEvents d version).
Proof.
  destruct d; unfold migrate, migrateUp, migrateDown, getDBVersion, queryDBVersion,
    insertDBVersion, execInsertVersion, deleteDBVersion, execDeleteVersion,
    callAction, nextFault, readStore, writeStore;
    destruct h; simpl; repeat (case_match; simpl; simplify_eq);
    (eexists; split; [simpl; rewrite <- ?app_assoc; reflexivity|]; simpl;
     split; [by eexists|done]).
Qed.

Lemma executeInTx_events (d : Direction) (version : Z) (f : option Action)
    (w : World) :
  exists evs,
    trace (snd (executeInTx (migrate d version f) w)) = trace w ++ evs /\
    mutations evs `prefix_of` directionEvents d version /\
    (fst (executeInTx (migrate d version f) w) = ret None ->
     mutations evs = directionEvents d version).
Proof.
  unfold executeInTx.
  destruct (BeginTx w) as [[e|] w1] eqn:Hbegin.
  - exists [EvBeginTx]. revert Hbegin. unfold BeginTx, nextFault. simpl.
    case_match; intros; simplify_eq; simpl; (split; [done|]);
      (split; [by eexists|done]).
  - apply BeginTx_ok in Hbegin as ->.
    set (w1 := setPending _ _).
    destruct (migrate_events d version f HTX w1) as (evs & Htr & Hpre & Hfull).
    destruct (migrate d version f HTX w1) as [[[e|]|] w2]; simpl in *.
    + exists ([EvBeginTx] ++ evs ++ [EvRollback]). rewrite Htr. simpl.
      rewrite <- !app_assoc. split; [done|].
      unfold mutations in *. rewrite List.filter_app. simpl. rewrite app_nil_r.
      done.
    + unfold Commit, nextFault. simpl.
      exists ([EvBeginTx] ++ evs ++ [EvCommit]).
      assert (mutations ([EvBeginTx] ++ evs ++ [EvCommit]) = mutations evs) as Hm.
      { unfold mutations. simpl. rewrite List.filter_app. simpl.
        by rewrite app_nil_r. }
      rewrite Hm.
      repeat case_match; simplify_eq; simpl; rewrite Htr, <- !app_assoc;
        (split; [done|]); (split; [done|]); try done; by intros _; apply Hfull.
    + exists ([EvBeginTx] ++ evs). rewrite Htr. simpl. rewrite <- !app_assoc.
      done.
Qed.

Lemma executeNoTx_events (d : Direction) (version : Z) (f : option Action)
    (w : World) :
  exists evs,
    trace (snd (executeNoTx (migrate d version f) w)) = trace w ++ evs /\
    mutations evs `prefix_of` directionEvents d version /\
    (fst (executeNoTx (migrate d version f) w) = ret None ->
     mutations evs = directionEvents d version).
Proof.
  unfold executeNoTx.
  destruct (migrate_events d version f HDB w) as (evs & Htr & Hpre & Hfull).
  exists evs. by destruct (migrate d version f HDB w) as [[[e|]|] w1].
Qed.

Lemma applyOne_events (m : Migration) (w : World) :
  exists evs,
    trace (snd (applyOne m w)) = trace w ++ evs /\
    mutations evs `prefix_of` appliedEvents (Version m) /\
    (fst (applyOne m w) = ret None -> mutations evs = appliedEvents (Version m)).
Proof.
  unfold applyOne. destruct (mUpDown m) as [ud|].
  - destruct (executeInTx_events Upward (Version m) (Up ud) w)
      as (evs & Htr & Hpre & Hfull).
    exists evs. simpl in *.
    by destruct (executeInTx _ w) as [[[e|]|] w1].
  - destruct (mUpDownNoTX m) as [ud|].
    + destruct (executeNoTx_events Upward (Version m) (Up ud) w)
        as (evs & Htr & Hpre & Hfull).
      exists evs. simpl in *.
      by destruct (executeNoTx _ w) as [[[e|]|] w1].
    + exists []. simpl. rewrite app_nil_r. split; [done|]. split; [by eexists|done].
Qed.

Lemma rollbackOne_events (m : Migration) (w : World) :
  exists evs,
    trace (snd (rollbackOne m w)) = trace w ++ evs /\
    mutations evs `prefix_of` rolledBackEvents (Version m) /\
    (fst (rollbackOne m w) = ret None ->
     mutations evs = rolledBackEvents (Version m)).
Proof.
  unfold rollbackOne. destruct (mUpDown m) as [ud|].
  - destruct (executeInTx_events Downward (Version m) (Down ud) w)
      as (evs & Htr & Hpre & Hfull).
    exists evs. simpl in *.
    by destruct (executeInTx _ w) as [[[e|]|] w1].
  - destruct (mUpDownNoTX m) as [ud|].
    + destruct (executeNoTx_events Downward (Version m) (Down ud) w)
        as (evs & Htr & Hpre & Hfull).
      exists evs. simpl in *.
      by destruct (executeNoTx _ w) as [[[e|]|] w1].
    + exists []. simpl. rewrite app_nil_r. split; [done|]. split; [by eexists|done].
Qed.

Lemma calls_app (evs1 evs2 : list Event) :
  calls (evs1 ++ evs2) = calls evs1 ++ calls evs2.
Proof. apply List.filter_app. Qed.

Lemma calls_mutations (evs : list Event) : calls (mutations evs) = calls evs.
Proof.
  induction evs as [|ev evs IH]; [done|].
  unfold calls, mutations in *. destruct ev; simpl; by rewrite ?IH.
Qed.

(** One execution calls at most one function. *)
Lemma calls_of_one_execution (d : Direction) (v : Z) (evs : list Event) :
  mutations evs `prefix_of` directionEvents d v -> (length (calls evs) <= 1)%nat.
Proof.
  intros [k Hk]. rewrite <- calls_mutations.
  unfold directionEvents, appliedEvents, rolledBackEvents in Hk.
  destruct d, (mutations evs) as [|e1 [|e2 [|e3 l]]]; simpl in Hk;
    simplify_eq; simpl; lia.
Qed.

Lemma upLoop_calls (l : list Migration) (dbVersion : Z) (output : Writer)
    (limit nb : Z) (w : World) :
  0 <= nb < limit ->
  exists evs,
    trace (snd (upLoop l dbVersion output limit nb w)) = trace w ++ evs /\
    Z.of_nat (length (calls evs)) <= limit - nb.
Proof.
  revert nb w. induction l as [|m l IH]; intros nb w Hnb; simpl.
  - exists []. rewrite app_nil_r. simpl. split; [done|lia].
  - destruct (Version m <=? dbVersion); [by apply IH|].
    destruct (applyOne_events m w) as (evs1 & Htr1 & Hpre1 & _).
    pose proof (calls_of_one_execution Upward _ _ Hpre1) as Hone.
    destruct (applyOne m w) as [[[e|]|] w1]; simpl in *.
    + exists evs1. split; [done|lia].
    + destruct (Z.ltb_spec 0 limit) as [_|?]; [|lia]. simpl.
      destruct (Z.eqb_spec (nb + 1) limit) as [Heq|Hne].
      * exists evs1. simpl. split; [by destruct output|lia].
      * destruct (IH (nb + 1) (Fprint output (appliedLine (Version m)) w1))
          as (evs2 & Htr2 & Hle2); [lia|].
        exists (evs1 ++ evs2). unfold appliedLine in Htr2. rewrite Htr2.
        replace (trace (Fprint output _ w1)) with (trace w ++ evs1)
          by (by destruct output).
        rewrite <- app_assoc, calls_app, length_app. split; [done|lia].
    + exists evs1. split; [done|lia].
Qed.

(** X6.  With a limit [L > 0], apply calls at most [L] up functions, for
    every registry, every state of the database and whatever fails; up-one
    (limit 1) therefore calls at most one. *)
Theorem apply_calls_at_most_limit (ms : list Migration) (output : Writer)
    (limit : Z) (w : World) :
  0 < limit ->
  exists evs,
    trace (snd (runCmdUp ms output limit w)) = trace w ++ evs /\
    Z.of_nat (length (calls evs)) <= limit.
Proof.
  intros Hlimit. unfold runCmdUp.
  pose proof (getDBVersion_snd HDB w) as Hsnd.
  destruct (getDBVersion HDB w) as [[dbVersion [e|]] w1]; simpl in Hsnd; subst w1.
  - exists [EvQueryVersion]. simpl. split; [done|lia].
  - destruct (upLoop_calls (sortMigrationsAsc ms) dbVersion output limit 0
                (afterCall EvQueryVersion w)) as (evs & Htr & Hle); [lia|].
    exists (EvQueryVersion :: evs).
    destruct (upLoop _ _ _ _ _ _) as [[[[e|]|] nb] w2]; simpl in *;
      try destruct (nb =? 0); simpl;
      (split; [try destruct output; simpl; by rewrite Htr, <- app_assoc|lia]).
Qed.

(** X7.  Rollback runs at most one down function and deletes at most the
    version of that migration, after the function and never before: for
    every registry, every state of the database and whatever fails. *)
Theorem rollback_touches_at_most_one (ms : list Migration) (output : Writer)
    (w : World) :
  exists evs c,
    trace (snd (runCmdDown ms output w)) = trace w ++ evs /\
    mutations evs `prefix_of` rolledBackEvents c.
Proof.
  unfold runCmdDown.
  pose proof (getDBVersion_snd HDB w) as Hsnd.
  destruct (getDBVersion HDB w) as [[dbVersion [e|]] w1]; simpl in Hsnd; subst w1.
  - exists [EvQueryVersion], 0. split; [done|]. by eexists.
  - generalize (sortMigrationsDesc ms). intros l.
    induction l as [|m l IH]; simpl.
    + exists [EvQueryVersion], 0. split; [by destruct output|]. by eexists.
    + destruct (Version m >? dbVersion); [done|].
      destruct (rollbackOne_events m (afterCall EvQueryVersion w))
        as (evs & Htr & Hpre & _).
      exists (EvQueryVersion :: evs), (Version m).
      destruct (rollbackOne m _) as [[[e|]|] w1]; simpl in *;
        (split; [try destruct output; simpl; by rewrite Htr, <- app_assoc|done]).
Qed.

(** ** Transactions are closed *)

Lemma migrate_pending_HDB (d : Direction) (version : Z) (f : option Action)
    (w : World) :
  pending (snd (migrate d version f HDB w)) = pending w.
Proof.
  destruct d; unfold migrate, migrateUp, migrateDown, getDBVersion, queryDBVersion,
    insertDBVersion, execInsertVersion, deleteDBVersion, execDeleteVersion,
    callAction, nextFault, readStore, writeStore;
    simpl; repeat (case_match; simpl; simplify_eq); done.
Qed.

Lemma executeInTx_pending (fn : Handle -> World -> outcome * World) (w : World) :
  pending w = None -> pending (snd (executeInTx fn w)) = None.
Proof.
  intros Hp. unfold executeInTx, BeginTx, Commit, Rollback, nextFault. simpl.
  repeat (case_match; simpl; simplify_eq); done.
Qed.

Lemma applyOne_pending (m : Migration) (w : World) :
  pending w = None -> pending (snd (applyOne m w)) = None.
Proof.
  intros Hp. unfold applyOne. destruct (mUpDown m) as [ud|].
  - pose proof (executeInTx_pending (migrateUp (Version m) (Up ud)) w Hp) as Ht.
    by destruct (executeInTx _ w) as [[[e|]|] w1].
  - destruct (mUpDownNoTX m) as [ud|]; [|done].
    pose proof (migrate_pending_HDB Upward (Version m) (Up ud) w) as Ht.
    unfold executeNoTx. simpl in Ht.
    destruct (migrateUp _ _ HDB w) as [[[e|]|] w1]; simpl in *; congruence.
Qed.

Lemma rollbackOne_pending (m : Migration) (w : World) :
  pending w = None -> pending (snd (rollbackOne m w)) = None.
Proof.
  intros Hp. unfold rollbackOne. destruct (mUpDown m) as [ud|].
  - pose proof (executeInTx_pending (migrateDown (Version m) (Down ud)) w Hp) as Ht.
    by destruct (executeInTx _ w) as [[[e|]|] w1].
  - destruct (mUpDownNoTX m) as [ud|]; [|done].
    pose proof (migrate_pending_HDB Downward (Version m) (Down ud) w) as Ht.
    unfold executeNoTx. simpl in Ht.
    destruct (migrateDown _ _ HDB w) as [[[e|]|] w1]; simpl in *; congruence.
Qed.

(** X8.  Apply and rollback leave no transaction open: started without an
    open transaction, they end without one, for every registry and limit and
    whatever fails (also when a migration with a nil function panics). *)
Theorem no_transaction_left_open (ms : list Migration) (output : Writer)
    (limit : Z) (w : World) :
  pending w = None ->
  pending (snd (runCmdUp ms output limit w)) = None /\
  pending (snd (runCmdDown ms output w)) = None.
Proof.
  intros Hp. unfold runCmdUp, runCmdDown.
  pose proof (getDBVersion_snd HDB w) as Hsnd.
  destruct (getDBVersion HDB w) as [[dbVersion [e|]] w1]; simpl in Hsnd; subst w1;
    [done|].
  assert (pending (afterCall EvQueryVersion w) = None) as Hp1 by done.
  split.
  - assert (forall (l : list Migration) (nb : Z) (w1 : World), pending w1 = None ->
              pending (snd (upLoop l dbVersion output limit nb w1)) = None) as Hloop.
    { induction l as [|m l IH]; intros nb w1 Hw1; simpl; [done|].
      destruct (Version m <=? dbVersion); [by apply IH|].
      pose proof (applyOne_pending m w1 Hw1) as Ha.
      destruct (applyOne m w1) as [[[e|]|] w2]; simpl in *; try done.
      destruct ((0 <? limit) && (nb + 1 =? limit)).
      - by destruct output.
      - apply IH. by destruct output. }
    specialize (Hloop (sortMigrationsAsc ms) 0 _ Hp1).
    destruct (upLoop _ _ _ _ _ _) as [[[[e|]|] nb] w2]; simpl in *; try done.
    destruct (nb =? 0); by destruct output.
  - generalize (sortMigrationsDesc ms). intros l.
    induction l as [|m l IH]; simpl; [by destruct output|].
    destruct (Version m >? dbVersion); [done|].
    pose proof (rollbackOne_pending m _ Hp1) as Hr.
    destruct (rollbackOne m _) as [[[e|]|] w1]; simpl in *; try done.
    by destruct output.
Qed.

(** ** Apply with a limit, nothing failing *)

Lemma upLoop_quiet_limit (l : list Migration) (dbVersion : Z) (output : Writer)
    (limit nb : Z) (w : World) :
  0 <= nb < limit ->
  StronglySorted (ascending Version) l -> Forall wellFormed l -> upsBehave l ->
  faultFree w ->
  (forall m, m ∈ l -> dbVersion < Version m ->
     currentVersion (ledger (committed w)) < Version m) ->
  exists w' evs,
    let applied :=
      take (Z.to_nat (limit - nb))
           (Version <$> filter (fun m => dbVersion < Version m) l) in
    upLoop l dbVersion output limit nb w =
      (ret None, nb + Z.of_nat (length applied), w') /\
    ledger (committed w') = ledger (committed w) ++ applied /\
    trace w' = trace w ++ evs /\ mutations evs = applied ≫= appliedEvents /\
    written output w' = written output w ++ (appliedLine <$> applied) /\
    faultFree w'.
Proof.
  revert nb w. induction l as [|m l IH]; intros nb w Hnb Hsorted Hwf Hbehave Hq Hinv.
  - exists w, []. simpl. rewrite take_nil. simpl.
    rewrite Z.add_0_r, !app_nil_r. done.
  - apply StronglySorted_cons in Hsorted as [Hm Hsorted].
    apply Forall_cons in Hwf as [Hwfm Hwf].
    apply Forall_cons in Hbehave as [Hbm Hbehave].
    simpl. destruct (Z.leb_spec (Version m) dbVersion) as [Hskip|Happly].
    + rewrite (filter_cons_False (fun m0 => dbVersion < Version m0) m l)
        by (simpl; lia).
      apply IH; try done. intros m' Hm' Hgt. apply Hinv; [by right|done].
    + rewrite (filter_cons_True (fun m0 => dbVersion < Version m0) m l)
        by (simpl; lia).
      destruct (applyOne_quiet m w Hwfm Hbm Hq) as
        (w1 & evs1 & Hone & Hled1 & Htr1 & Hmut1 & Hq1 & Hout1 & Herr1).
      { apply Hinv; [by left|done]. }
      rewrite Hone.
      set (w2 := Fprint output _ w1).
      assert (ledger (committed w2) = ledger (committed w) ++ [Version m]) as Hled2
        by (by destruct output).
      assert (trace w2 = trace w ++ evs1) as Htr2 by (by destruct output).
      assert (written output w2 = written output w ++ [appliedLine (Version m)])
        as Hwr2.
      { unfold w2. rewrite written_Fprint.
        by rewrite (written_applyOne output w w1). }
      assert (faultFree w2) as Hq2 by (by destruct output).
      rewrite fmap_cons.
      replace (Z.to_nat (limit - nb)) with (S (Z.to_nat (limit - (nb + 1)))) by lia.
      rewrite firstn_cons.
      destruct (Z.ltb_spec 0 limit) as [_|?]; [|lia]. simpl.
      destruct (Z.eqb_spec (nb + 1) limit) as [Heq|Hne].
      * replace (limit - (nb + 1)) with 0 by lia. rewrite take_0.
        exists w2, evs1. cbv zeta. simpl.
        rewrite Hled2, Htr2, Hwr2. repeat split; try done.
      * destruct (IH (nb + 1) w2 ltac:(lia) Hsorted Hwf Hbehave Hq2) as
          (w' & evs & Hrun & Hled & Htr & Hmut & Hwr & Hq').
        { intros m' Hm' _. rewrite Hled2.
          rewrite currentVersion_snoc by (apply Hinv; [by left|done]).
          rewrite Forall_forall in Hm. by apply Hm. }
        exists w', (evs1 ++ evs). cbv zeta in *.
        rewrite Hrun. split; [f_equal; f_equal; cbn [length]; lia|].
        rewrite Hled2 in Hled. rewrite Htr2 in Htr. rewrite Hwr2 in Hwr.
        split; [by rewrite Hled, <- app_assoc|].
        split; [by rewrite Htr, <- app_assoc|].
        split; [by rewrite mutations_app, Hmut1, Hmut|].
        split; [by rewrite Hwr, <- app_assoc|].
        done.
Qed.

Lemma runCmdUp_quiet_limit (ms : list Migration) (output : Writer) (limit : Z)
    (w : World) :
  0 < limit ->
  intVersions ms -> validateMigrations ms = None -> upsBehave ms -> faultFree w ->
  exists w' evs,
    let applied :=
      take (Z.to_nat limit)
           (pendingVersions (currentVersion (ledger (committed w))) ms) in
    runCmdUp ms output limit w = (ret None, w') /\
    ledger (committed w') = ledger (committed w) ++ applied /\
    trace w' = trace w ++ evs /\ mutations evs = applied ≫= appliedEvents /\
    written output w' =
      written output w ++ (appliedLine <$> applied) ++
      [summaryLine (Z.of_nat (length applied))] /\
    faultFree w'.
Proof.
  intros Hlimit Hint [Hwf Hnd]%validateMigrations_valid Hbehave Hq.
  assert (Forall (fun m => 0 < Version m) ms) as Hpos.
  { eapply Forall_impl; [exact Hwf|]. by intros m [? _]. }
  unfold runCmdUp, pendingVersions.
  rewrite (getDBVersion_quiet HDB w (committed w)) by done.
  destruct (upLoop_quiet_limit (sortMigrationsAsc ms)
              (currentVersion (ledger (committed w))) output limit 0
              (afterCall EvQueryVersion w))
    as (w1 & evs & Hrun & Hled & Htr & Hmut & Hwr & Hq1).
  { lia. }
  { by apply sortMigrationsAsc_sorted. }
  { by rewrite sortMigrationsAsc_perm. }
  { unfold upsBehave. by rewrite sortMigrationsAsc_perm. }
  { by apply faultFree_afterCall. }
  { by intros m _ Hlt. }
  cbv zeta in *. rewrite Z.sub_0_r in *. rewrite Hrun. rewrite Z.add_0_l.
  unfold summaryLine.
  set (applied := take _ (Version <$> filter _ (sortMigrationsAsc ms))) in *.
  simpl in Htr, Hled.
  destruct (Z.of_nat (length applied) =? 0);
    eexists _, (EvQueryVersion :: evs); (split; [reflexivity|]);
    (split; [by destruct output|]);
    (split; [destruct output; simpl; by rewrite Htr, <- app_assoc|]);
    (split; [done|]);
    (split; [rewrite written_Fprint, Hwr; simpl; destruct output; simpl;
             by rewrite <- app_assoc|]);
    by destruct output.
Qed.

(** X9.  With a limit [L > 0], a valid registry, no failing call and
    well-behaved up functions, apply runs exactly the first [L] pending
    versions in ascending order (all of them when fewer are pending), inserts
    each one into the ledger, and reports that many. *)
Theorem apply_with_limit (ms : list Migration) (output : Writer) (limit : Z)
    (w : World) :
  0 < limit ->
  intVersions ms -> validateMigrations ms = None -> upsBehave ms -> faultFree w ->
  exists w' evs,
    let applied :=
      take (Z.to_nat limit)
           (pendingVersions (currentVersion (ledger (committed w))) ms) in
    runCmdUp ms output limit w = (ret None, w') /\
    ledger (committed w') = ledger (committed w) ++ applied /\
    trace w' = trace w ++ evs /\ mutations evs = applied ≫= appliedEvents /\
    written output w' =
      written output w ++ (appliedLine <$> applied) ++
      [summaryLine (Z.of_nat (length applied))].
Proof.
  intros Hlimit Hint Hvalid Hbehave Hq.
  destruct (runCmdUp_quiet_limit ms output limit w Hlimit Hint Hvalid Hbehave Hq)
    as (w' & evs & Hrun & Hled & Htr & Hmut & Hwr & _).
  exists w', evs. done.
Qed.

(** ** One step up, one step down *)

Lemma runCmdDown_quiet (ms : list Migration) (output : Writer) (w : World) (c : Z) :
  intVersions ms -> validateMigrations ms = None -> downsBehave ms -> faultFree w ->
  c ∈ Version <$> ms -> c <= currentVersion (ledger (committed w)) ->
  (forall c', c' ∈ Version <$> ms ->
     c' <= currentVersion (ledger (committed w)) -> c' <= c) ->
  exists w' evs,
    runCmdDown ms output w = (ret None, w') /\
    trace w' = trace w ++ evs /\ mutations evs = rolledBackEvents c /\
    ledger (committed w') = filter (fun v => v ≠ c) (ledger (committed w)) /\
    written output w' = written output w ++ [rolledBackLine c].
Proof.
  intros Hint Hvalid Hbehave Hq (m & -> & Hm)%list_elem_of_fmap Hle Hmax.
  destruct (validateMigrations_valid ms Hvalid) as [Hwf Hnd].
  assert (Forall (fun m => 0 < Version m) ms) as Hpos.
  { eapply Forall_impl; [exact Hwf|]. by intros m' [? _]. }
  unfold runCmdDown. rewrite (getDBVersion_quiet HDB w (committed w)) by done.
  set (V := currentVersion (ledger (committed w))) in *.
  assert (m ∈ sortMigrationsDesc ms) as Hin by (by rewrite sortMigrationsDesc_perm).
  apply list_elem_of_split in Hin as (l1 & l2 & Hsplit).
  pose proof (sortMigrationsDesc_sorted ms Hint Hpos Hnd) as Hsorted.
  rewrite Hsplit in Hsorted |- *.
  rewrite downLoop_skip.
  2:{ apply Forall_forall. intros m1 Hm1.
      assert (Version m < Version m1) as Hlt.
      { apply (StronglySorted_app_1_elem_of _ _ _ _ _ Hsorted Hm1). by left. }
      destruct (decide (Version m1 <= V)) as [Hle1|]; [|lia].
      assert (Version m1 ∈ Version <$> ms) as Hin1.
      { apply list_elem_of_fmap_2. rewrite <- sortMigrationsDesc_perm, Hsplit.
        apply elem_of_app. by left. }
      specialize (Hmax _ Hin1 Hle1). lia. }
  simpl. destruct (Z.gtb_spec (Version m) V) as [?|_]; [lia|].
  rewrite Forall_forall in Hwf. unfold downsBehave in Hbehave.
  rewrite Forall_forall in Hbehave.
  destruct (rollbackOne_quiet m (afterCall EvQueryVersion w))
    as (w1 & evs & -> & Hled & Htr & Hmut & Hout & Herr).
  { by apply Hwf. }
  { by apply Hbehave. }
  { by apply faultFree_afterCall. }
  { simpl. unfold V in Hle. lia. }
  eexists _, (EvQueryVersion :: evs). split; [reflexivity|].
  simpl in Htr, Hled.
  split; [destruct output; simpl; by rewrite Htr, <- app_assoc|].
  split; [done|]. split; [by destruct output|].
  rewrite written_Fprint. f_equal. by destruct output.
Qed.

Lemma pendingVersions_elem (V c : Z) (ms : list Migration) :
  c ∈ pendingVersions V ms -> c ∈ Version <$> ms /\ V < c.
Proof.
  unfold pendingVersions. intros (m & -> & Hm)%list_elem_of_fmap.
  apply list_elem_of_filter in Hm as [Hlt Hm].
  rewrite sortMigrationsAsc_perm in Hm. split; [by apply list_elem_of_fmap_2|done].
Qed.

(** X10.  Up-one followed by rollback gives the ledger back: for a valid
    registry with a pending migration, no failing call and well-behaved
    functions, up-one inserts the lowest pending version and the rollback
    that follows deletes that same version, leaving the rows of the ledger as
    they were before the two commands. *)
Theorem up_one_then_down_restores_ledger (ms : list Migration) (output : Writer)
    (w : World) :
  intVersions ms -> validateMigrations ms = None ->
  upsBehave ms -> downsBehave ms -> faultFree w ->
  pendingVersions (currentVersion (ledger (committed w))) ms <> [] ->
  exists w1 w2 c,
    runCmdUp ms output 1 w = (ret None, w1) /\
    runCmdDown ms output w1 = (ret None, w2) /\
    head (pendingVersions (currentVersion (ledger (committed w))) ms) = Some c /\
    ledger (committed w1) = ledger (committed w) ++ [c] /\
    ledger (committed w2) = ledger (committed w).
Proof.
  intros Hint Hvalid Hups Hdowns Hq Hpending.
  destruct (runCmdUp_quiet_limit ms output 1 w ltac:(lia) Hint Hvalid Hups Hq)
    as (w1 & evs1 & Hrun1 & Hled1 & _ & _ & _ & Hq1).
  cbv zeta in *.
  destruct (pendingVersions _ ms) as [|c rest] eqn:Hpend; [done|].
  assert (c ∈ pendingVersions (currentVersion (ledger (committed w))) ms) as Hc.
  { rewrite Hpend. left. }
  apply pendingVersions_elem in Hc as [Hcin Hclt].
  change (take (Z.to_nat 1) (c :: rest)) with ([c] ++ take 0 rest) in Hled1.
  rewrite take_0, app_nil_r in Hled1.
  assert (currentVersion (ledger (committed w1)) = c) as Hcur1.
  { rewrite Hled1. by apply currentVersion_snoc. }
  destruct (runCmdDown_quiet ms output w1 c Hint Hvalid Hdowns Hq1 Hcin)
    as (w2 & evs2 & Hrun2 & _ & _ & Hled2 & _).
  { lia. }
  { intros c' _. lia. }
  exists w1, w2, c. split; [done|]. split; [done|]. split; [done|].
  split; [done|].
  rewrite Hled2, Hled1, filter_app.
  rewrite (filter_cons_False (fun v => v ≠ c) c []) by (intros Hne; by apply Hne).
  rewrite filter_nil, app_nil_r. apply filter_Forall_id.
  apply Forall_forall. intros x Hx%currentVersion_ge. lia.
Qed.

(** ** The status report *)

Lemma rereads_HDB (w : World) (V : Z) :
  rereads HDB w V -> V = currentVersion (ledger (committed w)).
Proof.
  unfold rereads, getDBVersion, queryDBVersion, nextFault. simpl.
  destruct (oracle w) as [|[?|] ?]; simpl; congruence.
Qed.

Lemma status_rows (output : Writer) (V : Z) (l : list Migration) (w : World) :
  let w' := fold_left
              (fun acc m => Fprint output (statusRow V (Version m)) acc) l w in
  written output w' = written output w ++ (statusRow V <$> (Version <$> l)) /\
  trace w' = trace w /\ committed w' = committed w /\ pending w' = pending w.
Proof.
  revert w. induction l as [|m l IH]; intros w; simpl.
  - by rewrite app_nil_r.
  - destruct (IH (Fprint output (statusRow V (Version m)) w)) as (Hwr & Htr & Hc & Hp).
    rewrite Hwr, Htr, Hc, Hp, written_Fprint, <- app_assoc.
    by destruct output.
Qed.

(** X11.  When the version can be read, status returns nil after writing the
    header and then one row per migration of the registry, in the order of
    the descending sort, each marked APPLIED exactly when its version is at
    most the current version of the ledger; it makes that one query and
    changes nothing in the database.  For a valid registry the rows are in
    strictly descending order of version and every version has its row. *)
Theorem status_report (ms : list Migration) (output : Writer) (w : World) (V : Z) :
  rereads HDB w V ->
  exists w',
    runCmdStatus ms output w = (ret None, w') /\
    V = currentVersion (ledger (committed w)) /\
    written output w' =
      written output w ++
      statusHeader :: (statusRow V <$> (Version <$> sortMigrationsDesc ms)) /\
    trace w' = trace w ++ [EvQueryVersion] /\
    committed w' = committed w /\ pending w' = pending w /\
    (intVersions ms -> validateMigrations ms = None ->
     StronglySorted (fun a b => b < a) (Version <$> sortMigrationsDesc ms) /\
     Version <$> sortMigrationsDesc ms ≡ₚ Version <$> ms).
Proof.
  intros Hr. pose proof (rereads_HDB w V Hr) as HV.
  apply rereads_inv in Hr. unfold runCmdStatus. rewrite Hr.
  eexists. split; [reflexivity|]. split; [done|].
  destruct (status_rows output V (sortMigrationsDesc ms)
              (Fprint output statusHeader (afterCall EvQueryVersion w)))
    as (Hwr & Htr & Hc & Hp).
  cbv zeta in *. unfold statusRow, statusHeader in *.
  rewrite Hwr, Htr, Hc, Hp, written_Fprint, <- app_assoc.
  split; [by destruct output|]. split; [by destruct output|].
  split; [by destruct output|]. split; [by destruct output|].
  intros Hint [Hwf Hnd]%validateMigrations_valid.
  assert (Forall (fun m => 0 < Version m) ms) as Hpos.
  { eapply Forall_impl; [exact Hwf|]. by intros m [? _]. }
  split; [|by rewrite sortMigrationsDesc_perm].
  apply (StronglySorted_fmap _ (descending Version)); [done|].
  by apply sortMigrationsDesc_sorted.
Qed.

(** ** Failures outside and inside a transaction *)

Lemma error_eqb_refl (e : error) : error_eqb e e = true.
Proof.
  induction e as [msg|pre e IH post]; simpl.
  - by apply bool_decide_eq_true_2.
  - rewrite !bool_decide_eq_true_2 by done. by rewrite IH.
Qed.

Lemma errors_Is_refl (e : error) : errors_Is e e = true.
Proof. destruct e; cbn [errors_Is]; by rewrite error_eqb_refl. Qed.

Lemma errors_Is_wrap (pre post : string) (e cause : error) :
  errors_Is e cause = true -> errors_Is (fmt_Errorf pre e post) cause = true.
Proof. intros He. cbn [errors_Is]. rewrite He. by rewrite orb_true_r. Qed.

(** X12.  Without a transaction nothing is undone.  When the up function of
    a migration run by [executeNoTx] fails, what it changed before failing
    stays in the database; when it succeeds and the insert into the ledger
    fails, its changes stay and the version is not recorded.  In both cases
    the error returned wraps the cause.  The same failure of the insert
    inside [executeInTx] leaves the database as it was. *)
Theorem noTx_failure_is_not_undone (version : Z) (a : Action) (w : World)
    (e : error) (s' : Store) :
  currentVersion (ledger (committed w)) < version ->
  (faultFree w -> a (committed w) = (Some e, s') ->
   exists err w',
     executeNoTx (migrateUp version (Some a)) w = (ret (Some err), w') /\
     errors_Is err e = true /\ committed w' = s' /\
     mutations (drop (length (trace w)) (trace w')) = [EvUp version]) /\
  (forall rest, oracle w = None :: Some e :: rest -> a (committed w) = (None, s') ->
   exists err w',
     executeNoTx (migrateUp version (Some a)) w = (ret (Some err), w') /\
     errors_Is err e = true /\ committed w' = s') /\
  (forall rest, oracle w = None :: None :: Some e :: rest ->
   a (committed w) = (None, s') ->
   exists err w',
     executeInTx (migrateUp version (Some a)) w = (ret (Some err), w') /\
     errors_Is err e = true /\ committed w' = committed w).
Proof.
  intros Hlt. split; [|split].
  - intros Hq Ha. unfold executeNoTx, migrateUp.
    rewrite (getDBVersion_quiet HDB w (committed w)) by done.
    destruct (Z.leb_spec version (currentVersion (ledger (committed w)))); [lia|].
    unfold callAction. simpl. rewrite Ha. simpl.
    eexists _, _. split; [reflexivity|].
    split; [by apply errors_Is_wrap, errors_Is_wrap, errors_Is_refl|].
    split; [done|].
    simpl. rewrite <- app_assoc, drop_app_length. done.
  - intros rest Ho Ha.
    unfold executeNoTx, migrateUp, getDBVersion, queryDBVersion, insertDBVersion,
      execInsertVersion, callAction, nextFault.
    simpl. rewrite Ho. simpl.
    destruct (Z.leb_spec version (currentVersion (ledger (committed w)))); [lia|].
    rewrite Ha. simpl.
    eexists _, _. split; [reflexivity|].
    split; [by apply errors_Is_wrap, errors_Is_wrap, errors_Is_refl|done].
  - intros rest Ho Ha.
    unfold executeInTx, BeginTx, Rollback, migrateUp, getDBVersion, queryDBVersion,
      insertDBVersion, execInsertVersion, callAction, nextFault.
    simpl. rewrite Ho. simpl.
    destruct (Z.leb_spec version (currentVersion (ledger (committed w)))); [lia|].
    rewrite Ha. simpl.
    eexists _, _. split; [reflexivity|].
    split; [by apply errors_Is_wrap, errors_Is_wrap, errors_Is_refl|done].
Qed.

(** X13.  The two executors never drop the cause of a failure.  The error
    [executeInTx] returns wraps, for [errors.Is], the error of the call that
    failed ([BeginTx], the function it was given, or [Commit]) and its text
    ends with the text of that error; [executeNoTx] does the same with the
    error of its function. *)
Theorem executors_wrap_the_cause (fn : Handle -> World -> outcome * World)
    (w : World) (err : error) (w' : World) :
  (executeInTx fn w = (ret (Some err), w') ->
   exists cause,
     errors_Is err cause = true /\ mentions (Error err) (Error cause) /\
     (fst (BeginTx w) = Some cause \/
      fst (fn HTX (snd (BeginTx w))) = ret (Some cause) \/
      fst (Commit (snd (fn HTX (snd (BeginTx w))))) = Some cause)) /\
  (executeNoTx fn w = (ret (Some err), w') ->
   exists cause,
     errors_Is err cause = true /\ mentions (Error err) (Error cause) /\
     fst (fn HDB w) = ret (Some cause)).
Proof.
  assert (forall pre cause,
            mentions (Error (fmt_Errorf pre cause "")) (Error cause)) as Hm.
  { intros pre cause. simpl. apply mentions_app_l, mentions_app_r, mentions_refl. }
  split.
  - unfold executeInTx.
    destruct (BeginTx w) as [[be|] w1]; simpl.
    + intros; simplify_eq. exists be.
      split; [by apply errors_Is_wrap, errors_Is_refl|]. split; [apply Hm|by left].
    + destruct (fn HTX w1) as [[[e|]|] w2]; simpl; [| |done].
      * intros; simplify_eq. exists e.
        split; [by apply errors_Is_wrap, errors_Is_refl|].
        split; [apply Hm|by right; left].
      * destruct (Commit w2) as [[ce|] w3]; [|done].
        intros; simplify_eq. exists ce.
        split; [by apply errors_Is_wrap, errors_Is_refl|].
        split; [apply Hm|by right; right].
  - unfold executeNoTx.
    destruct (fn HDB w) as [[[e|]|] w1]; simpl; try done.
    intros; simplify_eq. exists e.
    split; [by apply errors_Is_wrap, errors_Is_refl|]. split; [apply Hm|done].
Qed.

(** ** The run of the tool *)

(** The events of a run of apply and of rollback extend the log. *)
Lemma apply_events (ms : list Migration) (output : Writer) (limit : Z) (w : World) :
  exists evs, trace (snd (runCmdUp ms output limit w)) = trace w ++ evs.
Proof.
  unfold runCmdUp.
  pose proof (getDBVersion_snd HDB w) as Hsnd.
  destruct (getDBVersion HDB w) as [[dbVersion [e|]] w1]; simpl in Hsnd; subst w1.
  - by exists [EvQueryVersion].
  - assert (forall (l : list Migration) (nb : Z) (w1 : World),
              exists evs,
                trace (snd (upLoop l dbVersion output limit nb w1)) = trace w1 ++ evs)
      as Hloop.
    { induction l as [|m l IH]; intros nb w1; simpl.
      - exists []. by rewrite app_nil_r.
      - destruct (Version m <=? dbVersion); [apply IH|].
        destruct (applyOne_events m w1) as (evs1 & Htr1 & _).
        destruct (applyOne m w1) as [[[e|]|] w2]; simpl in *;
          try (by exists evs1).
        destruct ((0 <? limit) && (nb + 1 =? limit)).
        + exists evs1. by destruct output.
        + destruct (IH (nb + 1)
                      (Fprint output (appliedLine (Version m)) w2)) as [evs2 Htr2].
          exists (evs1 ++ evs2). unfold appliedLine in Htr2. rewrite Htr2.
          replace (trace (Fprint output _ w2)) with (trace w1 ++ evs1)
            by (by destruct output).
          by rewrite <- app_assoc. }
    destruct (Hloop (sortMigrationsAsc ms) 0 (afterCall EvQueryVersion w))
      as [evs Htr].
    exists (EvQueryVersion :: evs).
    destruct (upLoop _ _ _ _ _ _) as [[[[e|]|] nb] w2]; simpl in *;
      try destruct (nb =? 0); simpl; try destruct output; simpl;
      by rewrite Htr, <- app_assoc.
Qed.

Lemma rollback_touches (ms : list Migration) (output : Writer) (w : World) :
  exists evs, trace (snd (runCmdDown ms output w)) = trace w ++ evs.
Proof.
  unfold runCmdDown.
  pose proof (getDBVersion_snd HDB w) as Hsnd.
  destruct (getDBVersion HDB w) as [[dbVersion [e|]] w1]; simpl in Hsnd; subst w1.
  - by exists [EvQueryVersion].
  - generalize (sortMigrationsDesc ms). intros l.
    induction l as [|m l IH]; simpl.
    + exists [EvQueryVersion]. by destruct output.
    + destruct (Version m >? dbVersion); [done|].
      destruct (rollbackOne_events m (afterCall EvQueryVersion w))
        as (evs & Htr & _).
      exists (EvQueryVersion :: evs).
      destruct (rollbackOne m _) as [[[e|]|] w1]; simpl in *;
        try destruct output; simpl; by rewrite Htr, <- app_assoc.
Qed.


Lemma createTable_trace (w : World) :
  trace (snd (createMigrationsTableIfNotExists HDB w)) = trace w ++ [EvCreateTable].
Proof.
  unfold createMigrationsTableIfNotExists, execCreateTable, nextFault. simpl.
  by destruct (match oracle w with [] => None | f :: _ => f end).
Qed.

Lemma errExit_trace (code : Z) (err : error) (output : Writer) (w : World) :
  trace (errExit code err output osExitCode w) = trace w.
Proof. unfold errExit, osExitCode. by destruct output. Qed.

(** X14.  Once [connectToDB] has returned a connection, the run of the tool
    always closes it, and closing is the last thing it does to the
    database: whatever the command is and wherever a failure occurs (the
    table, the command, a panic of the command, the close itself), the last
    database call of the run is [Close].  This is the run with an [osExit]
    that returns to its caller, as the one the tests of the package pass to
    [newGosmig]; [os.Exit] ends the process inside [errExit]. *)
Theorem connection_is_always_closed (ms : list Migration) (connectToDB : ConnectFn)
    (config : Config) (getArgs : unit -> list string) (out errOut : Writer)
    (url command : string) (w w1 : World) :
  parseArgs (getArgs tt) = (url, command, None) ->
  connectToDB url (Timeout config) w = (None, w1) ->
  exists evs,
    trace (snd (runTool ms connectToDB config getArgs osExitCode out errOut w)) =
      trace w1 ++ evs ++ [EvClose] /\
    head evs = Some EvCreateTable.
Proof.
  intros Hargs Hconn. unfold runTool. rewrite Hargs, Hconn.
  assert (forall (r : outcome) (wx : World) (evs : list Event),
            trace wx = trace w1 ++ evs ->
            trace (snd (let (err, w'') := Close wx in
                        match err with
                        | Some e => (r, errExit 3 e errOut osExitCode w'')
                        | None => (r, w'')
                        end)) = trace w1 ++ evs ++ [EvClose]) as Hclose.
  { intros r wx evs Hwx. unfold Close, nextFault. simpl.
    destruct (match oracle wx with [] => None | f :: _ => f end); simpl;
      destruct errOut; simpl; by rewrite Hwx, <- app_assoc. }
  pose proof (createTable_trace w1) as Hw2.
  destruct (createMigrationsTableIfNotExists HDB w1) as [[e|] w2]; simpl in Hw2.
  - exists [EvCreateTable]. split; [|done].
    apply (Hclose (ret None) _ [EvCreateTable]). by rewrite errExit_trace.
  - assert (exists evs, trace (snd (snd (dispatch ms command out w2))) =
                        trace w2 ++ evs) as [evs Hevs].
    { unfold dispatch. repeat case_bool_decide; simpl.
      - destruct (apply_events ms out 0 w2) as [evs ?]. by exists evs.
      - destruct (apply_events ms out 1 w2) as [evs ?]. by exists evs.
      - destruct (rollback_touches ms out w2) as [evs ?]. by exists evs.
      - unfold runCmdStatus. pose proof (getDBVersion_snd HDB w2) as Hs.
        destruct (getDBVersion HDB w2) as [[V [?|]] ?]; simpl in *; subst.
        + by exists [EvQueryVersion].
        + exists [EvQueryVersion].
          match goal with |- context [fold_left ?f ?l ?a] =>
            destruct (status_rows out V l a) as (_ & Htr & _) end.
          cbv zeta in Htr. unfold statusRow in Htr. rewrite Htr.
          by destruct out.
      - unfold runCmdVersion. pose proof (getDBVersion_snd HDB w2) as Hs.
        destruct (getDBVersion HDB w2) as [[V [?|]] ?]; simpl in *; subst;
          exists [EvQueryVersion]; [done|by destruct out].
      - exists []. by rewrite app_nil_r. }
    exists (EvCreateTable :: evs). split; [|done].
    destruct (dispatch ms command out w2) as [code [[[e|]|] w3]]; simpl in Hevs;
      [apply (Hclose (ret None) _ (EvCreateTable :: evs))
      |apply (Hclose (ret None) _ (EvCreateTable :: evs))
      |apply (Hclose panic _ (EvCreateTable :: evs))];
      rewrite ?errExit_trace, Hevs, Hw2, <- app_assoc; done.
Qed.

(** ** Partial progress of apply, whatever fails *)

Lemma migrateUp_any (version : Z) (a : Action) (h : Handle) (w : World) (s : Store) :
  readStore h w = Some s -> currentVersion (ledger s) < version -> ledgerSafe a ->
  exists s',
    readStore h (snd (migrateUp version (Some a) h w)) = Some s' /\
    ((fst (migrateUp version (Some a) h w) = ret None /\
      ledger s' = ledger s ++ [version]) \/
     ((exists e, fst (migrateUp version (Some a) h w) = ret (Some e)) /\
      ledger s' = ledger s)).
Proof.
  intros Hs Hlt Hsafe. specialize (Hsafe s).
  unfold migrateUp, getDBVersion, queryDBVersion, insertDBVersion,
    execInsertVersion, callAction, nextFault.
  destruct h; simpl in *; simplify_eq;
    repeat (case_match; simpl in *; simplify_eq);
    (eexists; split; [first [reflexivity|eassumption]|]; simpl;
     first [ left; split; [done|]; congruence
           | right; split; [by eexists|]; congruence ]).
Qed.

Lemma applyOne_any (m : Migration) (w : World) :
  wellFormed m -> (forall a, upAction m = Some a -> ledgerSafe a) ->
  currentVersion (ledger (committed w)) < Version m ->
  (fst (applyOne m w) = ret None /\
   ledger (committed (snd (applyOne m w))) = ledger (committed w) ++ [Version m]) \/
  ((exists e, fst (applyOne m w) = ret (Some e)) /\
   ledger (committed (snd (applyOne m w))) = ledger (committed w)).
Proof.
  intros [_ Hmode] Hsafe Hlt. unfold applyOne, upAction, modeOf in *.
  destruct Hmode as [(up & down & Hm1 & Hm2)|(up & down & Hm1 & Hm2)];
    rewrite Hm1, ?Hm2 in *; simpl in Hsafe; specialize (Hsafe up eq_refl); simpl.
  - unfold executeInTx.
    destruct (BeginTx w) as [[be|] w1] eqn:Hbegin.
    { apply BeginTx_committed in Hbegin as [Hc _]. right. simpl.
      split; [by eexists|by rewrite Hc]. }
    apply BeginTx_ok in Hbegin as ->.
    set (w1 := setPending _ _).
    destruct (migrateUp_any (Version m) up HTX w1 (committed w) eq_refl Hlt Hsafe)
      as (s' & Hread & Hcases).
    pose proof (proj2 (migrate_frame Upward (Version m) (Some up) HTX w1) eq_refl)
      as Hframe.
    simpl in Hframe, Hread.
    destruct (migrateUp (Version m) (Some up) HTX w1) as [[[e|]|] w2];
      simpl in *.
    + right. split; [by eexists|by rewrite Hframe].
    + destruct Hcases as [[_ Hled]|[[e ?] _]]; [|done].
      unfold Commit, nextFault. simpl. rewrite Hread.
      destruct (match oracle w2 with [] => None | f :: _ => f end); simpl.
      * right. split; [by eexists|by rewrite Hframe].
      * left. done.
    + destruct Hcases as [[? _]|[[e ?] _]]; done.
  - unfold executeNoTx.
    destruct (migrateUp_any (Version m) up HDB w (committed w) eq_refl Hlt Hsafe)
      as (s' & Hread & Hcases).
    simpl in Hread. injection Hread as Hread.
    destruct (migrateUp (Version m) (Some up) HDB w) as [[[e|]|] w2];
      simpl in *; subst s'.
    + right. split; [by eexists|]. destruct Hcases as [[? _]|[_ ?]]; done.
    + left. split; [done|]. destruct Hcases as [[_ ?]|[[e ?] _]]; done.
    + destruct Hcases as [[? _]|[[e ?] _]]; done.
Qed.

Lemma upLoop_any (l : list Migration) (dbVersion : Z) (output : Writer)
    (limit nb : Z) (w : World) :
  StronglySorted (ascending Version) l -> Forall wellFormed l -> upsLedgerSafe l ->
  (forall m, m ∈ l -> dbVersion < Version m ->
     currentVersion (ledger (committed w)) < Version m) ->
  exists k : nat,
    let pend := Version <$> filter (fun m => dbVersion < Version m) l in
    let run := upLoop l dbVersion output limit nb w in
    (k <= length pend)%nat /\
    ledger (committed (snd run)) = ledger (committed w) ++ take k pend /\
    (fst (fst run) = ret None -> limit <= 0 -> k = length pend) /\
    (0 <= nb -> nb < limit -> nb + Z.of_nat k <= limit).
Proof.
  revert nb w. induction l as [|m l IH]; intros nb w Hsorted Hwf Hsafe Hinv.
  - exists 0%nat. simpl. rewrite app_nil_r. repeat split; try done. lia.
  - apply StronglySorted_cons in Hsorted as [Hm Hsorted].
    apply Forall_cons in Hwf as [Hwfm Hwf].
    apply Forall_cons in Hsafe as [Hsm Hsafe].
    simpl. destruct (Z.leb_spec (Version m) dbVersion) as [Hskip|Happly].
    + rewrite (filter_cons_False (fun m0 => dbVersion < Version m0) m l)
        by (simpl; lia).
      apply IH; try done. intros m' Hm' Hgt. apply Hinv; [by right|done].
    + rewrite (filter_cons_True (fun m0 => dbVersion < Version m0) m l)
        by (simpl; lia).
      rewrite fmap_cons.
      assert (currentVersion (ledger (committed w)) < Version m) as Hcur
        by (apply Hinv; [by left|done]).
      destruct (applyOne_any m w Hwfm Hsm Hcur) as [[Hok Hled]|[[e He] Hled]].
      * destruct (applyOne m w) as [r w1]. simpl in Hok, Hled. subst r.
        set (w2 := Fprint output _ w1).
        assert (ledger (committed w2) = ledger (committed w) ++ [Version m]) as Hled2
          by (by destruct output).
        destruct ((0 <? limit) && (nb + 1 =? limit)) eqn:Hbreak.
        -- exists 1%nat. cbv zeta. simpl. rewrite take_0, Hled2.
           apply andb_prop in Hbreak as [?%Z.ltb_lt ?%Z.eqb_eq].
           repeat split; try done; lia.
        -- destruct (IH (nb + 1) w2 Hsorted Hwf Hsafe) as (k & Hk & Hledk & Hall & Hlim).
           { intros m' Hm' _. rewrite Hled2.
             rewrite currentVersion_snoc by done.
             rewrite Forall_forall in Hm. by apply Hm. }
           exists (S k). cbv zeta in *. simpl.
           split; [lia|]. split; [by rewrite Hledk, Hled2, <- app_assoc|].
           split; [intros Hr Hl; f_equal; by apply Hall|].
           intros Hnb0 Hnb.
           assert (nb + 1 < limit).
           { apply andb_false_iff in Hbreak as [?%Z.ltb_ge|?%Z.eqb_neq]; lia. }
           specialize (Hlim ltac:(lia) ltac:(done)). lia.
      * destruct (applyOne m w) as [r w1]. simpl in He, Hled. subst r.
        exists 0%nat. cbv zeta. simpl. rewrite app_nil_r.
        repeat split; try done; lia.
Qed.

(** X15.  Whatever fails during apply (any database call, any up function),
    the ledger ends as the ledger it started from followed by the first [k]
    pending versions, in ascending order, for some [k]: no version is
    recorded before a lower pending one, and none is recorded twice.  When
    the run returns nil with no limit, [k] is the number of pending
    versions; with a limit [L > 0], [k <= L].  This is for a valid registry
    whose up functions leave the rows of the ledger alone, failing or not. *)
Theorem partial_progress_is_a_prefix (ms : list Migration) (output : Writer)
    (limit : Z) (w : World) :
  intVersions ms -> validateMigrations ms = None -> upsLedgerSafe ms ->
  exists k : nat,
    let pend := pendingVersions (currentVersion (ledger (committed w))) ms in
    let run := runCmdUp ms output limit w in
    (k <= length pend)%nat /\
    ledger (committed (snd run)) = ledger (committed w) ++ take k pend /\
    (fst run = ret None -> limit <= 0 -> k = length pend) /\
    (0 < limit -> Z.of_nat k <= limit).
Proof.
  intros Hint [Hwf Hnd]%validateMigrations_valid Hsafe.
  assert (Forall (fun m => 0 < Version m) ms) as Hpos.
  { eapply Forall_impl; [exact Hwf|]. by intros m [? _]. }
  unfold runCmdUp, pendingVersions.
  pose proof (getDBVersion_snd HDB w) as Hsnd.
  destruct (getDBVersion HDB w) as [[dbVersion [e|]] w1] eqn:Hget;
    simpl in Hsnd; subst w1.
  - exists 0%nat. cbv zeta. simpl. rewrite app_nil_r.
    repeat split; try done; lia.
  - assert (dbVersion = currentVersion (ledger (committed w))) as ->.
    { apply rereads_HDB. unfold rereads. by rewrite Hget. }
    destruct (upLoop_any (sortMigrationsAsc ms)
                (currentVersion (ledger (committed w))) output limit 0
                (afterCall EvQueryVersion w)) as (k & Hk & Hled & Hall & Hlim).
    { by apply sortMigrationsAsc_sorted. }
    { by rewrite sortMigrationsAsc_perm. }
    { unfold upsLedgerSafe. by rewrite sortMigrationsAsc_perm. }
    { by intros m _ Hlt. }
    exists k. cbv zeta in *.
    destruct (upLoop _ _ _ _ _ _) as [[[[e|]|] nb] w2]; simpl in *.
    + repeat split; try done. intros; lia.
    + destruct (nb =? 0); simpl;
        (split; [done|]); (split; [by destruct output|]);
        (split; [intros _ Hl; by apply Hall|intros; lia]).
    + repeat split; try done. intros; lia.
Qed.

(** ** A rollback that fails, and the reports *)

Lemma migrateDown_any (version : Z) (down : option Action) (h : Handle)
    (w : World) (s : Store) :
  readStore h w = Some s -> (forall a, down = Some a -> ledgerSafe a) ->
  exists s',
    readStore h (snd (migrateDown version down h w)) = Some s' /\
    ((fst (migrateDown version down h w) = ret None /\
      ledger s' = filter (fun v => v ≠ version) (ledger s)) \/
     (fst (migrateDown version down h w) <> ret None /\ ledger s' = ledger s)).
Proof.
  intros Hs Hsafe.
  destruct down as [a|].
  - specialize (Hsafe a eq_refl s).
    unfold migrateDown, getDBVersion, queryDBVersion, deleteDBVersion,
      execDeleteVersion, callAction, nextFault.
    destruct h; simpl in *; simplify_eq;
      repeat (case_match; simpl in *; simplify_eq);
      (eexists; split; [first [reflexivity|eassumption]|]; simpl;
       first [ left; split; [done|]; congruence
             | right; split; [done|]; congruence ]).
  - unfold migrateDown, getDBVersion, queryDBVersion, nextFault.
    destruct h; simpl in *; simplify_eq;
      repeat (case_match; simpl in *; simplify_eq);
      (eexists; split; [first [reflexivity|eassumption]|]; simpl;
       right; split; done).
Qed.

Lemma rollbackOne_any (m : Migration) (w : World) :
  (forall a, downAction m = Some a -> ledgerSafe a) ->
  (fst (rollbackOne m w) = ret None /\
   ledger (committed (snd (rollbackOne m w))) =
     filter (fun v => v ≠ Version m) (ledger (committed w))) \/
  (fst (rollbackOne m w) <> ret None /\
   ledger (committed (snd (rollbackOne m w))) = ledger (committed w)).
Proof.
  intros Hsafe. unfold rollbackOne, downAction, modeOf in *.
  destruct (mUpDown m) as [ud|]; simpl in Hsafe.
  - unfold executeInTx.
    destruct (BeginTx w) as [[be|] w1] eqn:Hbegin.
    { apply BeginTx_committed in Hbegin as [Hc _]. right. simpl.
      split; [done|by rewrite Hc]. }
    apply BeginTx_ok in Hbegin as ->.
    set (w1 := setPending _ _).
    destruct (migrateDown_any (Version m) (Down ud) HTX w1 (committed w) eq_refl Hsafe)
      as (s' & Hread & Hcases).
    pose proof (proj2 (migrate_frame Downward (Version m) (Down ud) HTX w1) eq_refl)
      as Hframe.
    simpl in Hframe, Hread.
    destruct (migrateDown (Version m) (Down ud) HTX w1) as [[[e|]|] w2];
      simpl in *.
    + right. split; [done|by rewrite Hframe].
    + destruct Hcases as [[_ Hled]|[? _]]; [|done].
      unfold Commit, nextFault. simpl. rewrite Hread.
      destruct (match oracle w2 with [] => None | f :: _ => f end); simpl.
      * right. split; [done|by rewrite Hframe].
      * left. done.
    + right. split; [done|by rewrite Hframe].
  - destruct (mUpDownNoTX m) as [ud|]; simpl in Hsafe; [|right; done].
    unfold executeNoTx.
    destruct (migrateDown_any (Version m) (Down ud) HDB w (committed w) eq_refl Hsafe)
      as (s' & Hread & Hcases).
    simpl in Hread. injection Hread as Hread.
    destruct (migrateDown (Version m) (Down ud) HDB w) as [[[e|]|] w2];
      simpl in *; subst s'.
    + right. split; [done|]. destruct Hcases as [[? _]|[_ ?]]; done.
    + left. split; [done|]. destruct Hcases as [[_ ?]|[? _]]; done.
    + right. split; [done|]. destruct Hcases as [[? _]|[_ ?]]; done.
Qed.

Lemma downLoop_any (l : list Migration) (dbVersion : Z) (output : Writer)
    (w : World) :
  downsLedgerSafe l ->
  let run := downLoop l dbVersion output w in
  (fst run <> ret None -> ledger (committed (snd run)) = ledger (committed w)) /\
  (fst run = ret None ->
   (Forall (fun m => dbVersion < Version m) l /\
    ledger (committed (snd run)) = ledger (committed w)) \/
   (exists m, m ∈ l /\ Version m <= dbVersion /\
      ledger (committed (snd run)) =
        filter (fun v => v ≠ Version m) (ledger (committed w)))).
Proof.
  induction l as [|m l IH]; intros Hsafe; cbv zeta; simpl.
  - split; [by destruct output|]. intros _. left. split; [done|by destruct output].
  - apply Forall_cons in Hsafe as [Hsm Hsafe].
    destruct (Z.gtb_spec (Version m) dbVersion) as [Hskip|Hpick].
    + destruct (IH Hsafe) as [Hfail Hok]. split; [done|].
      intros Hr. destruct (Hok Hr) as [[Hall Hled]|(m' & Hm' & Hle & Hled)].
      * left. split; [|done]. apply Forall_cons_2; [lia|done].
      * right. exists m'. split; [by right|done].
    + destruct (rollbackOne_any m w Hsm) as [[Hr Hled]|[Hr Hled]];
        destruct (rollbackOne m w) as [[[e|]|] w1]; simpl in *; try done.
      split; [done|]. intros _. right. exists m.
      split; [by left|]. split; [lia|by destruct output].
Qed.

(** X16.  A rollback that fails leaves the ledger as it was, in both modes
    and wherever it fails (the query, the transaction, the down function,
    the delete, the commit, a nil function).  A rollback that returns nil
    has removed the version of one migration of the registry that is at most
    the current version, and no other row; or there was no such migration
    and the ledger is as it was.  This is for every registry whose down
    functions leave the rows of the ledger alone, failing or not. *)
Theorem failed_rollback_keeps_ledger (ms : list Migration) (output : Writer)
    (w : World) :
  downsLedgerSafe ms ->
  let V := currentVersion (ledger (committed w)) in
  let run := runCmdDown ms output w in
  (fst run <> ret None -> ledger (committed (snd run)) = ledger (committed w)) /\
  (fst run = ret None ->
   (Forall (fun m => V < Version m) ms /\
    ledger (committed (snd run)) = ledger (committed w)) \/
   (exists m, m ∈ ms /\ Version m <= V /\
      ledger (committed (snd run)) =
        filter (fun v => v ≠ Version m) (ledger (committed w)))).
Proof.
  intros Hsafe. cbv zeta. unfold runCmdDown.
  pose proof (getDBVersion_snd HDB w) as Hsnd.
  destruct (getDBVersion HDB w) as [[dbVersion [e|]] w1] eqn:Hget;
    simpl in Hsnd; subst w1; simpl.
  - split; done.
  - assert (dbVersion = currentVersion (ledger (committed w))) as ->.
    { apply rereads_HDB. unfold rereads. by rewrite Hget. }
    destruct (downLoop_any (sortMigrationsDesc ms)
                (currentVersion (ledger (committed w))) output
                (afterCall EvQueryVersion w)) as [Hfail Hok].
    { unfold downsLedgerSafe. by rewrite sortMigrationsDesc_perm. }
    split; [done|]. intros Hr.
    destruct (Hok Hr) as [[Hall Hled]|(m & Hm & Hle & Hled)].
    + left. split; [|done]. by rewrite sortMigrationsDesc_perm in Hall.
    + right. exists m. split; [|done]. by rewrite sortMigrationsDesc_perm in Hm.
Qed.

(** X17.  The two reports only read.  [runCmdStatus] and [runCmdVersion]
    make one call to the database, the query of the version, and leave the
    committed data and an open transaction as they are; they never panic.
    When the query fails they write nothing; when it succeeds
    [runCmdVersion] writes the version it read. *)
Theorem reports_only_read (ms : list Migration) (h : Handle) (output : Writer)
    (w : World) :
  let s := runCmdStatus ms output w in
  let v := runCmdVersion h output w in
  (fst s <> panic /\ trace (snd s) = trace w ++ [EvQueryVersion] /\
   committed (snd s) = committed w /\ pending (snd s) = pending w) /\
  (fst v <> panic /\ trace (snd v) = trace w ++ [EvQueryVersion] /\
   committed (snd v) = committed w /\ pending (snd v) = pending w) /\
  (fst s <> ret None -> written output (snd s) = written output w) /\
  (fst v <> ret None -> written output (snd v) = written output w) /\
  (fst v = ret None ->
   exists V, rereads h w V /\
     written output (snd v) =
       written output w ++
       ["Current database version:" +:+ nl +:+ pretty V +:+ nl]).
Proof.
  cbv zeta. unfold runCmdStatus, runCmdVersion, rereads.
  split; [|split; [|split; [|split]]].
  - pose proof (getDBVersion_snd HDB w) as Hsnd.
    destruct (getDBVersion HDB w) as [[dbVersion [e|]] w1];
      simpl in Hsnd; subst w1; simpl; [done|].
    destruct (status_rows output dbVersion (sortMigrationsDesc ms)
                (Fprint output statusHeader (afterCall EvQueryVersion w)))
      as (_ & Htr & Hc & Hp).
    cbv zeta in *. unfold statusRow, statusHeader in *.
    rewrite Htr, Hc, Hp. by destruct output.
  - pose proof (getDBVersion_snd h w) as Hsnd.
    destruct (getDBVersion h w) as [[dbVersion [e|]] w1];
      simpl in Hsnd; subst w1; simpl; [done|]. by destruct output.
  - pose proof (getDBVersion_snd HDB w) as Hsnd.
    destruct (getDBVersion HDB w) as [[dbVersion [e|]] w1];
      simpl in Hsnd; subst w1; simpl; [|done]. by destruct output.
  - pose proof (getDBVersion_snd h w) as Hsnd.
    destruct (getDBVersion h w) as [[dbVersion [e|]] w1];
      simpl in Hsnd; subst w1; simpl; [|done]. by destruct output.
  - pose proof (getDBVersion_snd h w) as Hsnd.
    destruct (getDBVersion h w) as [[dbVersion [e|]] w1];
      simpl in Hsnd; subst w1; simpl; [done|].
    intros _. exists dbVersion. split; [done|].
    rewrite written_Fprint. by destruct output.
Qed.

End Properties.

(** * Closed examples *)

Lemma registry123_valid : validateMigrations registry123 = None.
Proof. vm_compute. reflexivity. Qed.

Lemma registry123_int : intVersions registry123.
Proof.
  apply Forall_forall. intros m Hm. unfold registry123 in Hm.
  repeat (apply elem_of_cons in Hm as [->|Hm]);
    [..|by apply not_elem_of_nil in Hm]; split; vm_compute; discriminate.
Qed.

Lemma registry123_ups : upsBehave registry123.
Proof.
  apply Forall_forall. intros m Hm a Ha. unfold registry123 in Hm.
  repeat (apply elem_of_cons in Hm as [->|Hm]);
    [..|by apply not_elem_of_nil in Hm];
    injection Ha as <-; intros s; split; reflexivity.
Qed.

Lemma registry123_downs : downsBehave registry123.
Proof.
  apply Forall_forall. intros m Hm a Ha. unfold registry123 in Hm.
  repeat (apply elem_of_cons in Hm as [->|Hm]);
    [..|by apply not_elem_of_nil in Hm];
    injection Ha as <-; intros s; split; reflexivity.
Qed.

Lemma sorts_are_reverses_witness :
  intVersions registry123 /\ validateMigrations registry123 = None /\
  sortMigrationsDesc registry123 = rev (sortMigrationsAsc registry123) /\
  sortMigrationsAsc registry123 = rev (sortMigrationsDesc registry123) /\
  Version <$> sortMigrationsAsc registry123 ≡ₚ Version <$> registry123 /\
  Version <$> sortMigrationsDesc registry123 ≡ₚ Version <$> registry123.
Proof.
  split; [exact registry123_int|]. split; [exact registry123_valid|].
  exact (sorts_are_reverses registry123 registry123_int registry123_valid).
Defined.

Lemma apply_all_reaches_N_witness :
  Version <$> registry123 ≡ₚ seqZ 1 3 /\
  currentVersion (ledger (committed (database [1] ["t1"] []))) = 1 /\
  exists w' evs,
    runCmdUp registry123 Stdout 0 (database [1] ["t1"] []) = (ret None, w') /\
    trace w' = trace (database [1] ["t1"] []) ++ evs /\
    mutations evs = seqZ (1 + 1) (3 - 1) ≫= appliedEvents /\
    length (seqZ (1 + 1) (3 - 1)) = Z.to_nat (Z.max 0 (3 - 1)) /\
    ledger (committed w') =
      ledger (committed (database [1] ["t1"] [])) ++ seqZ (1 + 1) (3 - 1) /\
    currentVersion (ledger (committed w')) = 3 /\
    written Stdout w' =
      written Stdout (database [1] ["t1"] []) ++
      (appliedLine <$> seqZ (1 + 1) (3 - 1)) ++ [summaryLine (3 - 1)].
Proof.
  assert (Version <$> registry123 ≡ₚ seqZ 1 3) as Hperm.
  { exact (perm_trans (perm_skip 2 (perm_swap 1 3 [])) (perm_swap 1 2 [3])). }
  split; [exact Hperm|]. split; [reflexivity|].
  apply (apply_all_reaches_N registry123 3 1 Stdout (database [1] ["t1"] [])).
  - exact registry123_valid.
  - exact Hperm.
  - unfold int_max. lia.
  - lia.
  - reflexivity.
  - apply Forall_nil_2.
  - exact registry123_ups.
Defined.

Lemma guard_aborts_exactly_witness :
  rereads HTX (inTransaction [1; 2; 3] []) 3 /\
  (exists res w' evs,
     migrateUp 2 (Some (createTable "t2")) HTX (inTransaction [1; 2; 3] []) = (res, w') /\
     trace w' = trace (inTransaction [1; 2; 3] []) ++ evs /\
     ((isConflict errDBVersionChangedUp res /\ EvUp 2 ∉ evs) <-> 2 <= 3) /\
     (2 <= 3 ->
        evs = [EvQueryVersion] /\
        committed w' = committed (inTransaction [1; 2; 3] []) /\
        pending w' = pending (inTransaction [1; 2; 3] []))) /\
  (exists res w' evs,
     migrateDown 2 (Some (dropTable "t2")) HTX (inTransaction [1; 2; 3] []) = (res, w') /\
     trace w' = trace (inTransaction [1; 2; 3] []) ++ evs /\
     ((isConflict errDBVersionChangedDown res /\ EvDown 2 ∉ evs) <-> 2 > 3) /\
     (2 > 3 ->
        evs = [EvQueryVersion] /\
        committed w' = committed (inTransaction [1; 2; 3] []) /\
        pending w' = pending (inTransaction [1; 2; 3] []))).
Proof.
  split; [reflexivity|].
  apply (guard_aborts_exactly 2 3 (Some (createTable "t2")) (Some (dropTable "t2"))
           HTX (inTransaction [1; 2; 3] [])).
  reflexivity.
Defined.

Lemma rollback_one_step_witness :
  currentVersion (ledger (committed (database [1; 2; 3] ["t1"; "t2"; "t3"] []))) = 3 /\
  exists w' evs,
    runCmdDown registry123 Stdout (database [1; 2; 3] ["t1"; "t2"; "t3"] []) =
      (ret None, w') /\
    trace w' = trace (database [1; 2; 3] ["t1"; "t2"; "t3"] []) ++ evs /\
    mutations evs = rolledBackEvents 3 /\
    ledger (committed w') =
      filter (fun v => v ≠ 3)
        (ledger (committed (database [1; 2; 3] ["t1"; "t2"; "t3"] []))) /\
    written Stdout w' =
      written Stdout (database [1; 2; 3] ["t1"; "t2"; "t3"] []) ++ [rolledBackLine 3].
Proof.
  split; [reflexivity|].
  apply (proj1 (rollback_one_step registry123 3 Stdout
                  (database [1; 2; 3] ["t1"; "t2"; "t3"] [])
                  registry123_int registry123_valid registry123_downs
                  (Forall_nil_2 _) eq_refl) 3).
  - lia.
  - right. left.
  - lia.
  - intros; lia.
Defined.

Lemma apply_all_nothing_to_do_witness :
  Forall (fun m => Version m <=
            currentVersion (ledger (committed (database [1; 2; 3] [] []))))
         registry123 /\
  exists res w',
    runCmdUp registry123 Stdout 0 (database [1; 2; 3] [] []) = (res, w') /\
    trace w' = trace (database [1; 2; 3] [] []) ++ [EvQueryVersion] /\
    committed w' = committed (database [1; 2; 3] [] []) /\
    pending w' = pending (database [1; 2; 3] [] []) /\
    (rereads HDB (database [1; 2; 3] [] [])
       (currentVersion (ledger (committed (database [1; 2; 3] [] [])))) ->
     res = ret None /\
     w' = Fprint Stdout ("No migrations to apply" +:+ nl)
            (afterCall EvQueryVersion (database [1; 2; 3] [] []))).
Proof.
  assert (Forall (fun m => Version m <=
            currentVersion (ledger (committed (database [1; 2; 3] [] []))))
         registry123) as Hall.
  { unfold registry123. repeat apply Forall_cons_2; try apply Forall_nil_2;
      vm_compute; discriminate. }
  split; [exact Hall|].
  exact (apply_all_nothing_to_do registry123 Stdout (database [1; 2; 3] [] []) Hall).
Defined.

Lemma negative_limit_is_unlimited_witness :
  -1 < 0 /\
  runCmdUp registry123 Stdout (-1) (database [] [] []) =
  runCmdUp registry123 Stdout 0 (database [] [] []) /\
  ledger (committed (snd (runCmdUp registry123 Stdout (-1) (database [] [] [])))) =
  [1; 2; 3].
Proof.
  split; [lia|]. split.
  - apply (negative_limit_is_unlimited registry123 Stdout (-1) (database [] [] [])).
    lia.
  - vm_compute. reflexivity.
Defined.

Lemma guard_abort_commits_nothing_witness :
  guardTrips Upward 1 1 /\
  exists e w',
    executeInTx (migrate Upward 1 (Some (createTable "t1"))) (database [1] ["t1"] []) =
      (ret (Some e), w') /\
    errors_Is e (errDBVersionChanged Upward) = true /\
    trace w' = trace (database [1] ["t1"] []) ++ [EvBeginTx; EvQueryVersion; EvRollback] /\
    committed w' = committed (database [1] ["t1"] []) /\ pending w' = None.
Proof.
  assert (guardTrips Upward 1 1) as Hguard by (simpl; lia).
  split; [exact Hguard|].
  apply (proj1 (guard_abort_commits_nothing Upward 1 1 (Some (createTable "t1"))
                  (database [1] ["t1"] []) Hguard)
           (snd (BeginTx (database [1] ["t1"] [])))).
  - reflexivity.
  - reflexivity.
Defined.

(** The third migration of a run fails in its function, after the first two
    were applied: the created table is rolled back with the transaction, the
    error of the function comes back, and versions 1 and 2 stay applied. *)
Lemma transactional_failure_witness :
  let ms := [txMigration 1; noTxMigration 2; brokenMigration 3] in
  let w := database [] [] [] in
  let lossy := database [1; 2] ["t1"; "t2"] [None; None; Some (errors_New "lost")] in
  let e := fmt_Errorf "failed to apply migration.up version 3: " (errors_New "boom") "" in
  let e' := fmt_Errorf "execute in TX: "
              (fmt_Errorf "failed to execute in transaction: " e "") "" in
  (exists w1 w2,
     applyOne (brokenMigration 3) w1 = (ret (Some e'), w2) /\
     runCmdUp ms Stdout 0 w = (ret (Some e'), w2) /\
     ledger (committed w1) = [1; 2] /\
     (mUpDown (brokenMigration 3) <> None -> committed w2 = committed w1) /\
     written Stdout w2 = written Stdout w1) /\
  (exists w2,
     executeInTx (migrate Upward 3 (Some (brokenCreate "t3" "boom"))) lossy =
       (ret (Some (fmt_Errorf "failed to execute in transaction: " e "")),
        snd (Rollback w2)) /\
     committed (snd (Rollback w2)) = committed lossy).
Proof.
  intros ms w lossy e e'. split.
  - pose (w0 := snd (getDBVersion HDB w)).
    pose (r1 := upLoop [txMigration 1; noTxMigration 2] 0 Stdout 0 0 w0).
    pose (r2 := applyOne (brokenMigration 3) (snd r1)).
    exists (snd r1), (snd r2).
    destruct (proj2 (proj2 transactional_failure) ms
                [txMigration 1; noTxMigration 2] [] (brokenMigration 3) Stdout
                0 2 w w0 (snd r1) (snd r2) e')
      as (Hrun & Hkeep & Hout).
    + vm_compute. reflexivity.
    + vm_compute. reflexivity.
    + vm_compute. reflexivity.
    + vm_compute. reflexivity.
    + vm_compute. reflexivity.
    + split; [vm_compute; reflexivity|]. split; [exact Hrun|].
      split; [vm_compute; reflexivity|]. split; [exact Hkeep|exact Hout].
  - pose (w1 := snd (BeginTx lossy)).
    pose (w2 := snd (migrate Upward 3 (Some (brokenCreate "t3" "boom")) HTX w1)).
    exists w2.
    destruct (proj1 transactional_failure Upward 3
                (Some (brokenCreate "t3" "boom")) lossy w1 w2 e)
      as (Hrun & _ & _ & Hkeep).
    + vm_compute. reflexivity.
    + vm_compute. reflexivity.
    + split; [exact Hrun|exact Hkeep].
Defined.

Lemma validateMigrations_aggregates_witness :
  let ms := [emptyMigration; txMigration 1; noTxMigration 1] in
  exists e,
    validateMigrations ms = Some e /\
    mentions (Error e) "migration version must be > 0" /\
    mentions (Error e) (dupMessage 1 (occurrences 1 ms)).
Proof.
  intros ms.
  apply (proj2 (proj2 (proj2 (validateMigrations_aggregates ms))) emptyMigration 1).
  - left.
  - reflexivity.
  - vm_compute. lia.
Defined.

(** ** Where the specification and the code part *)

(** C2 as stated fails.  Registry [{1, 2}] on an empty ledger: the run
    selects both candidates against version 0; when the guard of migration 2
    re-reads the ledger it finds version 1, which differs from 0, and the
    migration is applied all the same. *)
Lemma drift_does_not_abort :
  let w0 := snd (getDBVersion HDB (database [] [] [])) in
  let w1 := snd (applyOne (txMigration 1) w0) in
  fst (getDBVersion HDB (database [] [] [])) = (0, None) /\
  rereads HTX (snd (BeginTx w1)) 1 /\
  fst (executeInTx (migrateUp 2 (upAction (txMigration 2))) w1) = ret None /\
  ~ abortsOnDrift 0 2 (upAction (txMigration 2)) w1.
Proof.
  intros w0 w1.
  split; [vm_compute; reflexivity|]. split; [vm_compute; reflexivity|].
  split; [vm_compute; reflexivity|].
  intros Habort.
  destruct (Habort (snd (BeginTx w1)) 1) as [e He].
  - vm_compute. reflexivity.
  - vm_compute. reflexivity.
  - lia.
  - vm_compute in He. discriminate.
Qed.

(** C6 as stated fails.  A migration with version 0 and no mode has two of
    the listed defects; the error of the registry reports the version and
    says nothing of the missing mode. *)
Lemma second_defect_not_reported :
  hasDefect emptyMigration BadVersion = true /\
  hasDefect emptyMigration NeitherMode = true /\
  validateMigrations [emptyMigration] =
    Some (errors_New "invalid migration(s): migration version must be > 0") /\
  ~ reportsEveryDefect [emptyMigration].
Proof.
  split; [reflexivity|]. split; [reflexivity|]. split; [vm_compute; reflexivity|].
  intros Hall.
  destruct (Hall emptyMigration NeitherMode) as (e & He & Hm).
  - left.
  - reflexivity.
  - vm_compute in He. injection He as <-.
    apply containsb_mentions in Hm. vm_compute in Hm. discriminate.
Qed.

(** Why the sorts are compared on valid registries only: the comparison
    functions subtract, and in 64 bits the difference of [2^62] and [-2^62]
    wraps to a negative number in both directions, so both sorts put the
    same migration first. *)
Remark sorts_with_wrapping_difference :
  let ms := [txMigration (2 ^ 62); txMigration (- 2 ^ 62)] in
  intVersions ms /\
  cmpAsc (txMigration (- 2 ^ 62)) (txMigration (2 ^ 62)) < 0 /\
  cmpDesc (txMigration (- 2 ^ 62)) (txMigration (2 ^ 62)) < 0 /\
  Version <$> sortMigrationsAsc ms = [- 2 ^ 62; 2 ^ 62] /\
  Version <$> sortMigrationsDesc ms = [- 2 ^ 62; 2 ^ 62].
Proof.
  intros ms. split.
  - unfold ms. repeat apply Forall_cons_2; try apply Forall_nil_2;
      split; vm_compute; discriminate.
  - repeat split; vm_compute; reflexivity.
Qed.


(** ** Instances of the further properties *)

Lemma registry123_ledgerSafe : upsLedgerSafe registry123.
Proof.
  apply Forall_forall. intros m Hm a Ha. unfold registry123 in Hm.
  repeat (apply elem_of_cons in Hm as [->|Hm]);
    [..|by apply not_elem_of_nil in Hm];
    injection Ha as <-; intros s; reflexivity.
Qed.

Lemma registry_order_is_irrelevant_witness :
  intVersions registry123 /\ validateMigrations registry123 = None /\
  registry123 ≡ₚ registry123' /\
  validateMigrations registry123' = None /\
  runCmdUp registry123' Stdout 0 (database [1] ["t1"] []) =
    runCmdUp registry123 Stdout 0 (database [1] ["t1"] []) /\
  runCmdDown registry123' Stdout (database [1] ["t1"] []) =
    runCmdDown registry123 Stdout (database [1] ["t1"] []) /\
  runCmdStatus registry123' Stdout (database [1] ["t1"] []) =
    runCmdStatus registry123 Stdout (database [1] ["t1"] []).
Proof.
  assert (registry123 ≡ₚ registry123') as Hperm.
  { exact (Permutation_app_comm [txMigration 2; noTxMigration 3] [txMigration 1]). }
  split; [exact registry123_int|]. split; [exact registry123_valid|].
  split; [exact Hperm|].
  exact (registry_order_is_irrelevant registry123 registry123' Stdout 0
           (database [1] ["t1"] []) registry123_int registry123_valid Hperm).
Defined.

Lemma built_tool_never_panics_witness :
  let run := runTool registry123 connected DefaultConfig upArgs osExitCode
               Stdout Stderr in
  newGosmig registry123 (Some connected) None (Some upArgs) (Some osExitCode)
    (Some Stdout) (Some Stderr) = (Some run, None) /\
  forall w, fst (run w) = ret None.
Proof.
  intros run.
  assert (newGosmig registry123 (Some connected) None (Some upArgs)
            (Some osExitCode) (Some Stdout) (Some Stderr) = (Some run, None))
    as Hbuild.
  { unfold newGosmig. rewrite registry123_valid. reflexivity. }
  split; [exact Hbuild|].
  exact (built_tool_never_panics registry123 (Some connected) None (Some upArgs)
           (Some osExitCode) (Some Stdout) (Some Stderr) run Hbuild).
Defined.

Lemma apply_calls_at_most_limit_witness :
  0 < 1 /\
  exists evs,
    trace (snd (runCmdUp registry123 Stdout 1 (database [] [] []))) =
      trace (database [] [] []) ++ evs /\
    Z.of_nat (length (calls evs)) <= 1.
Proof.
  split; [lia|].
  apply (apply_calls_at_most_limit registry123 Stdout 1 (database [] [] [])).
  lia.
Defined.

(** The second call of the run, the begin of the first transaction, fails. *)
Lemma no_transaction_left_open_witness :
  let w := database [] [] [None; Some (errors_New "lost")] in
  pending w = None /\
  pending (snd (runCmdUp registry123 Stdout 0 w)) = None /\
  pending (snd (runCmdDown registry123 Stdout w)) = None.
Proof.
  intros w. split; [reflexivity|].
  apply (no_transaction_left_open registry123 Stdout 0 w). reflexivity.
Defined.

Lemma apply_with_limit_witness :
  0 < 2 /\ faultFree (database [] [] []) /\
  exists w' evs,
    let applied :=
      take (Z.to_nat 2)
           (pendingVersions
              (currentVersion (ledger (committed (database [] [] [])))) registry123) in
    runCmdUp registry123 Stdout 2 (database [] [] []) = (ret None, w') /\
    ledger (committed w') = ledger (committed (database [] [] [])) ++ applied /\
    trace w' = trace (database [] [] []) ++ evs /\
    mutations evs = applied ≫= appliedEvents /\
    written Stdout w' =
      written Stdout (database [] [] []) ++ (appliedLine <$> applied) ++
      [summaryLine (Z.of_nat (length applied))].
Proof.
  assert (faultFree (database [] [] [])) as Hq
    by apply Forall_nil_2.
  split; [lia|]. split; [exact Hq|].
  apply (apply_with_limit registry123 Stdout 2 (database [] [] [])).
  - lia.
  - exact registry123_int.
  - exact registry123_valid.
  - exact registry123_ups.
  - exact Hq.
Defined.

Lemma up_one_then_down_restores_ledger_witness :
  let w := database [1] ["t1"] [] in
  faultFree w /\
  pendingVersions (currentVersion (ledger (committed w))) registry123 <> [] /\
  exists w1 w2 c,
    runCmdUp registry123 Stdout 1 w = (ret None, w1) /\
    runCmdDown registry123 Stdout w1 = (ret None, w2) /\
    head (pendingVersions (currentVersion (ledger (committed w))) registry123) =
      Some c /\
    ledger (committed w1) = ledger (committed w) ++ [c] /\
    ledger (committed w2) = ledger (committed w).
Proof.
  intros w.
  assert (faultFree w) as Hq by apply Forall_nil_2.
  assert (pendingVersions (currentVersion (ledger (committed w))) registry123 <> [])
    as Hpending by (vm_compute; discriminate).
  split; [exact Hq|]. split; [exact Hpending|].
  exact (up_one_then_down_restores_ledger registry123 Stdout w registry123_int
           registry123_valid registry123_ups registry123_downs Hq Hpending).
Defined.

Lemma status_report_witness :
  let w := database [1; 2] ["t1"; "t2"] [] in
  rereads HDB w 2 /\
  exists w',
    runCmdStatus registry123 Stdout w = (ret None, w') /\
    2 = currentVersion (ledger (committed w)) /\
    written Stdout w' =
      written Stdout w ++
      statusHeader :: (statusRow 2 <$> (Version <$> sortMigrationsDesc registry123)) /\
    trace w' = trace w ++ [EvQueryVersion] /\
    committed w' = committed w /\ pending w' = pending w /\
    (intVersions registry123 -> validateMigrations registry123 = None ->
     StronglySorted (fun a b => b < a) (Version <$> sortMigrationsDesc registry123) /\
     Version <$> sortMigrationsDesc registry123 ≡ₚ Version <$> registry123).
Proof.
  intros w.
  assert (rereads HDB w 2) as Hr by reflexivity.
  split; [exact Hr|].
  exact (status_report registry123 Stdout w 2 Hr).
Defined.

(** The function of version 2 creates its table and fails: run without a
    transaction, the table stays. *)
Lemma noTx_failure_is_not_undone_witness :
  let w := database [1] ["t1"] [] in
  currentVersion (ledger (committed w)) < 2 /\
  exists err w',
    executeNoTx (migrateUp 2 (Some (brokenCreate "t2" "boom"))) w =
      (ret (Some err), w') /\
    errors_Is err (errors_New "boom") = true /\
    committed w' = mkStore [1] ["t1"; "t2"] /\
    mutations (drop (length (trace w)) (trace w')) = [EvUp 2].
Proof.
  intros w.
  assert (currentVersion (ledger (committed w)) < 2) as Hlt by (vm_compute; reflexivity).
  split; [exact Hlt|].
  apply (proj1 (noTx_failure_is_not_undone 2 (brokenCreate "t2" "boom") w
                  (errors_New "boom") (mkStore [1] ["t1"; "t2"]) Hlt)).
  - apply Forall_nil_2.
  - reflexivity.
Defined.

(** The begin of the second transaction fails; the run still ends with the
    close of the connection. *)
Lemma connection_is_always_closed_witness :
  let w := database [] [] [None; None; None; None; None; None;
                           Some (errors_New "lost")] in
  parseArgs (upArgs tt) = ("postgres://localhost/app", "up", None) /\
  connected "postgres://localhost/app" (Timeout DefaultConfig) w = (None, w) /\
  exists evs,
    trace (snd (runTool registry123 connected DefaultConfig upArgs osExitCode
                  Stdout Stderr w)) =
      trace w ++ evs ++ [EvClose] /\
    head evs = Some EvCreateTable.
Proof.
  intros w.
  assert (parseArgs (upArgs tt) = ("postgres://localhost/app", "up", None))
    as Hargs by (vm_compute; reflexivity).
  split; [exact Hargs|]. split; [reflexivity|].
  exact (connection_is_always_closed registry123 connected DefaultConfig upArgs
           Stdout Stderr "postgres://localhost/app" "up" w w Hargs eq_refl).
Defined.

(** The commit of version 2 fails: the run stops with version 1 recorded
    and nothing else. *)
Lemma partial_progress_is_a_prefix_witness :
  let w := database [] [] [None; None; None; None; None; None; None; None;
                           Some (errors_New "lost")] in
  upsLedgerSafe registry123 /\
  exists k : nat,
    let pend := pendingVersions (currentVersion (ledger (committed w))) registry123 in
    let run := runCmdUp registry123 Stdout 0 w in
    (k <= length pend)%nat /\
    ledger (committed (snd run)) = ledger (committed w) ++ take k pend /\
    (fst run = ret None -> 0 <= 0 -> k = length pend) /\
    (0 < 0 -> Z.of_nat k <= 0).
Proof.
  intros w. split; [exact registry123_ledgerSafe|].
  exact (partial_progress_is_a_prefix registry123 Stdout 0 w registry123_int
           registry123_valid registry123_ledgerSafe).
Defined.


Lemma registry123_downsLedgerSafe : downsLedgerSafe registry123.
Proof.
  apply Forall_forall. intros m Hm a Ha. unfold registry123 in Hm.
  repeat (apply elem_of_cons in Hm as [->|Hm]);
    [..|by apply not_elem_of_nil in Hm];
    injection Ha as <-; intros s; reflexivity.
Qed.

(** The delete of version 3, run without a transaction, fails. *)
Lemma failed_rollback_keeps_ledger_witness :
  let w := database [1; 2; 3] ["t1"; "t2"; "t3"]
             [None; None; Some (errors_New "lost")] in
  let V := currentVersion (ledger (committed w)) in
  let run := runCmdDown registry123 Stdout w in
  downsLedgerSafe registry123 /\
  fst run <> ret None /\
  ledger (committed (snd run)) = ledger (committed w) /\
  (fst run = ret None ->
   (Forall (fun m => V < Version m) registry123 /\
    ledger (committed (snd run)) = ledger (committed w)) \/
   (exists m, m ∈ registry123 /\ Version m <= V /\
      ledger (committed (snd run)) =
        filter (fun v => v ≠ Version m) (ledger (committed w)))).
Proof.
  intros w V run.
  assert (fst run <> ret None) as Hfail by (vm_compute; discriminate).
  split; [exact registry123_downsLedgerSafe|]. split; [exact Hfail|].
  split.
  - exact (proj1 (failed_rollback_keeps_ledger registry123 Stdout w
                    registry123_downsLedgerSafe) Hfail).
  - exact (proj2 (failed_rollback_keeps_ledger registry123 Stdout w
                    registry123_downsLedgerSafe)).
Defined.
